(** * A shallow embedding of the GraphQL document parser

    The Go package [parser] (a hand-written recursive-descent parser over
    a token cursor) is embedded function by function.  The mutable
    [*Parser] becomes an explicit state that every function returns next
    to its value, Go's [(value, error)] pairs become a [result], a runtime
    panic is a result of its own, and recursion and [for] loops are
    bounded by a fuel argument. *)

From Stdlib Require Import ZArith List String Ascii Bool Lia PeanoNat.
Import ListNotations.

Open Scope Z_scope.
Set Warnings "-register-all,-notation-for-abbreviation".

(** A double quote, for messages built by [fmt.Sprintf]. *)
Definition dquote : string := String (ascii_of_nat 34) EmptyString.

Definition sapp (a b : string) : string := String.append a b.
Infix "+++" := sapp (right associativity, at level 60).

(* ------------------------------------------------------------------ *)
(** ** Package [source] *)

Module source.

(** Modelled from the spec: package [source] is not among the sources;
    the spec describes it as the raw source text plus an optional
    name. *)
Record Source := { Body : string; Name : string }.

Definition NewSource (body name : string) : Source :=
  {| Body := body; Name := name |}.

End source.

(* ------------------------------------------------------------------ *)
(** ** Package [graphqlerrors] *)

Module graphqlerrors.

(** Modelled from the spec: package [errors] is not among the sources.
    The spec has one constructor that takes the source text, an offset
    and a message (a positioned syntax error), and a distinct lexical
    error that the tokenizer raises. *)
Inductive error :=
| SyntaxError (src : source.Source) (position : Z) (description : string)
| LexError (src : source.Source) (position : Z) (description : string).

Definition NewSyntaxError (src : source.Source) (position : Z)
           (description : string) : error :=
  SyntaxError src position description.

End graphqlerrors.

(* ------------------------------------------------------------------ *)
(** ** Package [lexer] *)

Module lexer.
Import graphqlerrors.

(** Modelled from the spec: package [lexer] is not among the sources.
    The kinds are the ones the parser names through [lexer.TokenKind]
    and the spec lists for the tokenizer contract. *)
Inductive TokenKind :=
| EOF | BANG | DOLLAR | PAREN_L | PAREN_R | SPREAD | COLON | EQUALS | AT
| BRACKET_L | BRACKET_R | BRACE_L | PIPE | BRACE_R | NAME | VARIABLE
| INT | FLOAT | STRING.

Scheme Equality for TokenKind.

Record Token := {
  Token_Kind : TokenKind;
  Token_Start : Z;
  Token_End : Z;
  Token_Value : string
}.

Inductive LexResult :=
| Lexed (token : Token)
| LexFailed (err : error).

(** The tokenizer contract: a callable from a byte offset to the next
    token or an error. *)
Definition Lexer := Z -> LexResult.

(** Modelled from the spec: the descriptions that the messages
    "Expected X, found Y" and "Unexpected Y" are built from. *)
Definition GetTokenKindDesc (kind : TokenKind) : string :=
  match kind with
  | EOF => "EOF" | BANG => "!" | DOLLAR => "$" | PAREN_L => "("
  | PAREN_R => ")" | SPREAD => "..." | COLON => ":" | EQUALS => "="
  | AT => "@" | BRACKET_L => "[" | BRACKET_R => "]" | BRACE_L => "{"
  | PIPE => "|" | BRACE_R => "}" | NAME => "Name"
  | VARIABLE => "Variable" | INT => "Int" | FLOAT => "Float"
  | STRING => "String"
  end%string.

Definition GetTokenDesc (token : Token) : string :=
  if string_dec (Token_Value token) EmptyString
  then GetTokenKindDesc (Token_Kind token)
  else GetTokenKindDesc (Token_Kind token) +++ " " +++ dquote
       +++ Token_Value token +++ dquote.

(** *** A concrete tokenizer *)

Definition code (c : ascii) : nat := nat_of_ascii c.

(** Blanks, line ends and commas separate tokens. *)
Definition isIgnored (c : ascii) : bool :=
  (Nat.eqb (code c) 32 || Nat.eqb (code c) 9 || Nat.eqb (code c) 10
   || Nat.eqb (code c) 13 || Nat.eqb (code c) 44)%bool.

Definition isDigit (c : ascii) : bool :=
  (Nat.leb 48 (code c) && Nat.leb (code c) 57)%bool.

Definition isNameStart (c : ascii) : bool :=
  (Nat.eqb (code c) 95
   || (Nat.leb 65 (code c) && Nat.leb (code c) 90)
   || (Nat.leb 97 (code c) && Nat.leb (code c) 122))%bool.

Definition isNameChar (c : ascii) : bool :=
  (isNameStart c || isDigit c)%bool.

Fixpoint prefixLength (f : ascii -> bool) (cs : list ascii) : nat :=
  match cs with
  | c :: rest => if f c then S (prefixLength f rest) else O
  | [] => O
  end.

Definition punctuator (c : ascii) : option TokenKind :=
  match code c with
  | 33%nat => Some BANG
  | 36%nat => Some DOLLAR
  | 40%nat => Some PAREN_L
  | 41%nat => Some PAREN_R
  | 58%nat => Some COLON
  | 61%nat => Some EQUALS
  | 64%nat => Some AT
  | 91%nat => Some BRACKET_L
  | 93%nat => Some BRACKET_R
  | 123%nat => Some BRACE_L
  | 124%nat => Some PIPE
  | 125%nat => Some BRACE_R
  | _ => None
  end.

Definition makeToken (kind : TokenKind) (start len : nat) (value : string)
  : Token :=
  {| Token_Kind := kind;
     Token_Start := Z.of_nat start;
     Token_End := Z.of_nat (start + len);
     Token_Value := value |}.

(** Modelled from the spec: the tokenizer returns the next token
    (kind, text, start, end) that begins at or after the offset, or
    fails with a lexical error.  Punctuators carry no text; names and
    integers carry theirs; the end of the text is an [EOF] token of
    width zero. *)
Definition readToken (s : source.Source) (fromPosition : Z) : LexResult :=
  let body := list_ascii_of_string (source.Body s) in
  let from := Z.to_nat fromPosition in
  let position := (from + prefixLength isIgnored (skipn from body))%nat in
  match skipn position body with
  | [] => Lexed (makeToken EOF position 0 EmptyString)
  | c :: rest =>
      match punctuator c with
      | Some kind => Lexed (makeToken kind position 1 EmptyString)
      | None =>
          if Nat.eqb (code c) 46 then
            match rest with
            | c1 :: c2 :: _ =>
                if (Nat.eqb (code c1) 46 && Nat.eqb (code c2) 46)%bool
                then Lexed (makeToken SPREAD position 3 EmptyString)
                else LexFailed (LexError s (Z.of_nat position)
                                         "Unexpected character")
            | _ => LexFailed (LexError s (Z.of_nat position)
                                       "Unexpected character")
            end
          else if isNameStart c then
            let len := S (prefixLength isNameChar rest) in
            Lexed (makeToken NAME position len
                     (string_of_list_ascii (firstn len (c :: rest))))
          else if isDigit c then
            let len := S (prefixLength isDigit rest) in
            Lexed (makeToken INT position len
                     (string_of_list_ascii (firstn len (c :: rest))))
          else LexFailed (LexError s (Z.of_nat position)
                                   "Unexpected character")
      end
  end.

Definition Lex (s : source.Source) : Lexer :=
  fun resetPosition => readToken s resetPosition.

End lexer.

(* ------------------------------------------------------------------ *)
(** ** Package [kinds] *)

Module kinds.

(** Modelled from the spec: package [kinds] is not among the sources;
    the constructors of [ast.go] give the node kinds as their names. *)
Definition Name : string := "Name".
Definition Document : string := "Document".
Definition OperationDefinition : string := "OperationDefinition".
Definition FragmentDefinition : string := "FragmentDefinition".
Definition SelectionSet : string := "SelectionSet".
Definition Field : string := "Field".
Definition Argument : string := "Argument".
Definition Directive : string := "Directive".
Definition Variable_ : string := "Variable".
Definition VariableDefinition : string := "VariableDefinition".
Definition NamedType : string := "NamedType".
Definition ListType : string := "ListType".
Definition NonNullType : string := "NonNullType".
Definition Array : string := "Array".
Definition InlineFragment : string := "InlineFragment".
Definition FragmentSpread : string := "FragmentSpread".

End kinds.

(* ------------------------------------------------------------------ *)
(** ** Package [ast] *)

Module ast.

(** Slices are lists; a nil slice and an empty one are both [[]].  A
    pointer to the source text is an [option]. *)
Record Location := {
  Loc_Start : Z;
  Loc_End : Z;
  Loc_Source : option source.Source
}.

(** The zero value [ast.Location{}]. *)
Definition Location_zero : Location :=
  {| Loc_Start := 0; Loc_End := 0; Loc_Source := None |}.

Record Name := {
  Name_Kind : string;
  Name_Loc : Location;
  Name_Value : string
}.

Definition Name_zero : Name :=
  {| Name_Kind := EmptyString; Name_Loc := Location_zero;
     Name_Value := EmptyString |}.

(** [type Type interface{}]: nil, or one of the three type structs. *)
Inductive Type_ :=
| Type_nil
| Type_NamedType (Kind : string) (Loc : Location) (Name_ : Name)
                 (Inner : Type_)
| Type_ListType (Kind : string) (Loc : Location) (Inner : Type_)
| Type_NonNullType (Kind : string) (Loc : Location) (Inner : Type_).

Record NamedType := {
  NamedType_Kind : string;
  NamedType_Loc : Location;
  NamedType_Name : Name;
  NamedType_Type : Type_
}.

Definition NamedType_zero : NamedType :=
  {| NamedType_Kind := EmptyString; NamedType_Loc := Location_zero;
     NamedType_Name := Name_zero; NamedType_Type := Type_nil |}.

(** A [NamedType] struct stored in a [Type] interface. *)
Definition Type_of_NamedType (n : NamedType) : Type_ :=
  Type_NamedType (NamedType_Kind n) (NamedType_Loc n) (NamedType_Name n)
                 (NamedType_Type n).

(** [type Value interface{}]: nil, or an [ArrayValue]. *)
Inductive Value :=
| Value_nil
| Value_ArrayValue (Kind : string) (Loc : Location) (Values : list Value).

Record ArrayValue := {
  ArrayValue_Kind : string;
  ArrayValue_Loc : Location;
  ArrayValue_Values : list Value
}.

Definition Value_of_ArrayValue (a : ArrayValue) : Value :=
  Value_ArrayValue (ArrayValue_Kind a) (ArrayValue_Loc a)
                   (ArrayValue_Values a).

Record Argument := {
  Argument_Kind : string;
  Argument_Loc : Location;
  Argument_Name : Name;
  Argument_Value : Value
}.

Record Directive := {
  Directive_Kind : string;
  Directive_Loc : Location;
  Directive_Name : Name;
  Directive_Value : Value
}.

Record Variable_ := {
  Variable_Kind : string;
  Variable_Loc : Location;
  Variable_Name : Name
}.

Record VariableDefinition := {
  VariableDefinition_Kind : string;
  VariableDefinition_Loc : Location;
  VariableDefinition_Variable : Variable_;
  VariableDefinition_Type : Type_;
  VariableDefinition_DefaultValue : Value
}.

(** [SelectionSet] holds a slice of selections, and two of the three
    selections hold a [SelectionSet]. *)
Record SelectionSetOf (S : Type) := {
  SelectionSet_Kind : string;
  SelectionSet_Loc : Location;
  SelectionSet_Selections : list S
}.
Arguments SelectionSet_Kind {S} _.
Arguments SelectionSet_Loc {S} _.
Arguments SelectionSet_Selections {S} _.

(** [type Selection interface{}]: a [Field], a [FragmentSpread] or an
    [InlineFragment]. *)
Inductive Selection :=
| Selection_Field (Kind : string) (Loc : Location) (Alias : Name)
                  (Name_ : Name) (Arguments : list Argument)
                  (Directives : list Directive)
                  (SelectionSet : SelectionSetOf Selection)
| Selection_FragmentSpread (Kind : string) (Loc : Location) (Name_ : Name)
                           (Directives : list Directive)
| Selection_InlineFragment (Kind : string) (Loc : Location)
                           (TypeCondition : NamedType)
                           (Directives : list Directive)
                           (SelectionSet : SelectionSetOf Selection).

Definition SelectionSet := SelectionSetOf Selection.

Definition SelectionSet_zero : SelectionSet :=
  {| SelectionSet_Kind := EmptyString; SelectionSet_Loc := Location_zero;
     SelectionSet_Selections := [] |}.

Record Field := {
  Field_Kind : string;
  Field_Loc : Location;
  Field_Alias : Name;
  Field_Name : Name;
  Field_Arguments : list Argument;
  Field_Directives : list Directive;
  Field_SelectionSet : SelectionSet
}.

Definition Selection_of_Field (f : Field) : Selection :=
  Selection_Field (Field_Kind f) (Field_Loc f) (Field_Alias f)
                  (Field_Name f) (Field_Arguments f) (Field_Directives f)
                  (Field_SelectionSet f).

(** Modelled from the spec: packages [od] and [fd] are not among the
    sources.  An operation definition has an operation kind, an
    optional name, variable definitions, directives and one selection
    set; a fragment definition has a name, a named-type condition,
    directives and one selection set.  Their constructors set the kind
    only, as the constructors of [ast.go] do. *)
Record OperationDefinition := {
  OperationDefinition_Kind : string;
  OperationDefinition_Loc : Location;
  OperationDefinition_Operation : string;
  OperationDefinition_Name : Name;
  OperationDefinition_VariableDefinitions : list VariableDefinition;
  OperationDefinition_Directives : list Directive;
  OperationDefinition_SelectionSet : SelectionSet
}.

Record FragmentDefinition := {
  FragmentDefinition_Kind : string;
  FragmentDefinition_Loc : Location;
  FragmentDefinition_Name : Name;
  FragmentDefinition_TypeCondition : NamedType;
  FragmentDefinition_Directives : list Directive;
  FragmentDefinition_SelectionSet : SelectionSet
}.

(** [type Definition interface]: the two definitions implement it. *)
Inductive Definition_ :=
| Definition_Operation (o : OperationDefinition)
| Definition_Fragment (f : FragmentDefinition).

Record Document := {
  Document_Kind : string;
  Document_Loc : Location;
  Document_Definitions : list Definition_
}.

Definition Document_zero : Document :=
  {| Document_Kind := EmptyString; Document_Loc := Location_zero;
     Document_Definitions := [] |}.

End ast.

(* ------------------------------------------------------------------ *)
(** ** Outcomes of a call *)

(** What a Go call can do: return without an error, return with an
    error (of type [E]: most functions drop the value they return with
    an error, the list combinators keep their items), panic, or, in the
    embedding only, exhaust the fuel that bounds recursion and loops. *)
Inductive result (E A : Type) :=
| Ok (a : A)
| Err (e : E)
| Panic (msg : string)
| OutOfFuel.
Arguments Ok {E A} a.
Arguments Err {E A} e.
Arguments Panic {E A} msg.
Arguments OutOfFuel {E A}.

Definition bind {E A B} (r : result E A) (k : A -> result E B)
  : result E B :=
  match r with
  | Ok a => k a
  | Err e => Err e
  | Panic msg => Panic msg
  | OutOfFuel => OutOfFuel
  end.

Notation "'let*' x ':=' e 'in' k" :=
  (bind e (fun x => k))
  (at level 10, x pattern, e at level 200, k at level 200).

(** [s[i] = v] on a slice: a panic unless [i] is below the length. *)
Definition index_assign {A} (s : list A) (i : nat) (v : A)
  : option (list A) :=
  if Nat.ltb i (List.length s)
  then Some (firstn i s ++ v :: skipn (S i) s)%list
  else None.

(** [for i, v := range src { dst[i] = v }], from index [i] on. *)
Fixpoint range_assign {E A} (dst : list A) (i : nat) (src : list A)
  : result E (list A) :=
  match src with
  | [] => Ok dst
  | v :: rest =>
      match index_assign dst i v with
      | Some dst' => range_assign dst' (S i) rest
      | None => Panic "index out of range"
      end
  end.

(* ------------------------------------------------------------------ *)
(** ** Package [parser] *)

Module parser.
Import graphqlerrors.

Record ParseOptions := {
  NoLocation : bool;
  NoSource : bool
}.

(** [ParseParams.Source] is an [interface{}]: a [*source.Source], a
    string, or anything else. *)
Inductive SourceParam :=
| SourceObj (s : source.Source)
| SourceString (s : string)
| SourceOther.

Record ParseParams := {
  Params_Source : SourceParam;
  Params_Options : ParseOptions
}.

Record Parser := {
  LexToken : lexer.Lexer;
  Source : source.Source;
  Options : ParseOptions;
  PrevEnd : Z;
  Token : lexer.Token
}.

(** A call that returns a value and leaves the parser in a new state. *)
Definition fallible (A : Type) : Type := result error (A * Parser).

(** The item parsers that [many] and [any] take. *)
Definition parseFn (A : Type) : Type := Parser -> fallible A.

(** [many] and [any] return their items with the error too. *)
Definition listResult (A : Type) : Type :=
  result (list A * error) (list A * Parser).

(** Both branches of the source read [parser.Token]; [None] is the
    zero token the callers pass. *)
Definition unexpected (parser : Parser) (atToken : option lexer.Token)
  : error :=
  let token :=
    match atToken with
    | None => Token parser
    | Some _ => Token parser
    end in
  let description := "Unexpected " +++ lexer.GetTokenDesc token in
  NewSyntaxError (Source parser) (lexer.Token_Start token) description.

(** Moves the parser to the next lexed token.  On a lexical error the
    previous end is already moved and the token is kept. *)
Definition advance (parser : Parser) : option error * Parser :=
  let prevEnd := lexer.Token_End (Token parser) in
  let parser := {| LexToken := LexToken parser; Source := Source parser;
                   Options := Options parser; PrevEnd := prevEnd;
                   Token := Token parser |} in
  match LexToken parser prevEnd with
  | lexer.LexFailed err => (Some err, parser)
  | lexer.Lexed token =>
      (None, {| LexToken := LexToken parser; Source := Source parser;
                Options := Options parser; PrevEnd := PrevEnd parser;
                Token := token |})
  end.

(** The callers of [advance] drop the error it returns. *)
Definition skip (parser : Parser) (Kind : lexer.TokenKind)
  : bool * Parser :=
  if lexer.TokenKind_beq (lexer.Token_Kind (Token parser)) Kind
  then (true, snd (advance parser))
  else (false, parser).

Definition peek (parser : Parser) (Kind : lexer.TokenKind) : bool :=
  lexer.TokenKind_beq (lexer.Token_Kind (Token parser)) Kind.

Definition expectKeyWord (parser : Parser) (value : string)
  : fallible lexer.Token :=
  let token := Token parser in
  if (lexer.TokenKind_beq (lexer.Token_Kind token) lexer.NAME
      && String.eqb (lexer.Token_Value token) value)%bool
  then Ok (token, snd (advance parser))
  else
    let descp := "Expected " +++ dquote +++ value +++ dquote
                 +++ ", found " +++ lexer.GetTokenDesc token in
    Err (NewSyntaxError (Source parser) (lexer.Token_Start token) descp).

Definition loc (parser : Parser) (start : Z) : ast.Location :=
  if NoLocation (Options parser) then ast.Location_zero
  else if NoSource (Options parser) then
    {| ast.Loc_Start := start; ast.Loc_End := PrevEnd parser;
       ast.Loc_Source := None |}
  else
    {| ast.Loc_Start := start; ast.Loc_End := PrevEnd parser;
       ast.Loc_Source := Some (Source parser) |}.

Definition expect (parser : Parser) (kind : lexer.TokenKind)
  : fallible lexer.Token :=
  let token := Token parser in
  if lexer.TokenKind_beq (lexer.Token_Kind token) kind
  then Ok (token, snd (advance parser))
  else
    let descp := "Expected " +++ lexer.GetTokenKindDesc kind
                 +++ ", found " +++ lexer.GetTokenDesc token in
    Err (NewSyntaxError (Source parser) (lexer.Token_Start token) descp).

(** Converts a name lex token into a name parse node. *)
Definition parseName (parser : Parser) : fallible ast.Name :=
  let* (token, parser) := expect parser lexer.NAME in
  Ok ({| ast.Name_Kind := kinds.Name;
         ast.Name_Value := lexer.Token_Value token;
         ast.Name_Loc := loc parser (lexer.Token_Start token) |}, parser).

Definition parseNamedType (parser : Parser) : fallible ast.NamedType :=
  let start := lexer.Token_Start (Token parser) in
  let* (name, parser) := parseName parser in
  Ok ({| ast.NamedType_Kind := kinds.NamedType;
         ast.NamedType_Name := name;
         ast.NamedType_Loc := loc parser start;
         ast.NamedType_Type := ast.Type_nil |}, parser).

Definition parseFragmentName (parser : Parser) : fallible ast.Name :=
  if String.eqb (lexer.Token_Value (Token parser)) "on"
  then Err (unexpected parser None)
  else parseName parser.

Definition parseVariable (parser : Parser) : fallible ast.Variable_ :=
  let start := lexer.Token_Start (Token parser) in
  let* (_, parser) := expect parser lexer.DOLLAR in
  let* (name, parser) := parseName parser in
  Ok ({| ast.Variable_Kind := kinds.Variable_;
         ast.Variable_Name := name;
         ast.Variable_Loc := loc parser start |}, parser).

Fixpoint parseType (fuel : nat) (parser : Parser) : fallible ast.Type_ :=
  match fuel with
  | O => OutOfFuel
  | S fuel =>
      let start := lexer.Token_Start (Token parser) in
      let '(isList, parser) := skip parser lexer.BRACE_L in
      let* (ttype, parser) :=
        if isList then
          let* (t, parser) := parseType fuel parser in
          let* (_, parser) := expect parser lexer.BRACKET_R in
          Ok (ast.Type_ListType kinds.ListType (loc parser start) t,
              parser)
        else
          let* (name, parser) := parseNamedType parser in
          Ok (ast.Type_of_NamedType name, parser) in
      let '(isNonNull, parser) := skip parser lexer.BANG in
      if isNonNull then
        Ok (ast.Type_NonNullType kinds.NonNullType (loc parser start)
              ttype, parser)
      else Ok (ttype, parser)
  end.

(** *** The list combinators *)

Fixpoint many_loop {A} (fuel : nat) (parser : Parser) (parseFn : parseFn A)
         (closeKind : lexer.TokenKind) (nodes : list A) : listResult A :=
  match fuel with
  | O => OutOfFuel
  | S fuel =>
      let '(closed, parser) := skip parser closeKind in
      if closed then Ok (nodes, parser)
      else
        match parseFn parser with
        | Ok (node, parser) =>
            many_loop fuel parser parseFn closeKind (nodes ++ [node])
        | Err err => Err (nodes, err)
        | Panic msg => Panic msg
        | OutOfFuel => OutOfFuel
        end
  end.

Definition many {A} (fuel : nat) (parser : Parser)
           (openKind : lexer.TokenKind) (parseFn : parseFn A)
           (closeKind : lexer.TokenKind) : listResult A :=
  match expect parser openKind with
  | Ok (_, parser) =>
      match parseFn parser with
      | Ok (node, parser) => many_loop fuel parser parseFn closeKind [node]
      | Err err => Err ([], err)
      | Panic msg => Panic msg
      | OutOfFuel => OutOfFuel
      end
  | Err err => Err ([], err)
  | Panic msg => Panic msg
  | OutOfFuel => OutOfFuel
  end.

Fixpoint any_loop {A} (fuel : nat) (parser : Parser) (parseFn : parseFn A)
         (closeKind : lexer.TokenKind) (nodes : list A) : listResult A :=
  match fuel with
  | O => OutOfFuel
  | S fuel =>
      let '(closed, parser) := skip parser closeKind in
      if closed then Ok (nodes, parser)
      else
        match parseFn parser with
        | Ok (n, parser) =>
            any_loop fuel parser parseFn closeKind (nodes ++ [n])
        | Err err => Err (nodes, err)
        | Panic msg => Panic msg
        | OutOfFuel => OutOfFuel
        end
  end.

(** A missing open token is not an error here: the source returns the
    empty node list with a nil error. *)
Definition any {A} (fuel : nat) (parser : Parser)
           (openKind : lexer.TokenKind) (parseFn : parseFn A)
           (closeKind : lexer.TokenKind) : listResult A :=
  match expect parser openKind with
  | Ok (_, parser) => any_loop fuel parser parseFn closeKind []
  | Err _ => Ok ([], parser)
  | Panic msg => Panic msg
  | OutOfFuel => OutOfFuel
  end.

(** *** Values *)

Fixpoint parseValue (fuel : nat) (parser : Parser) (isConst : bool)
  : fallible ast.Value :=
  match fuel with
  | O => OutOfFuel
  | S fuel =>
      let token := Token parser in
      match lexer.Token_Kind token with
      | lexer.BRACE_L =>
          let* (value, parser) := parseArray fuel parser isConst in
          Ok (ast.Value_of_ArrayValue value, parser)
      | _ => Err (unexpected parser None)
      end
  end

with parseArray (fuel : nat) (parser : Parser) (isConst : bool)
  : fallible ast.ArrayValue :=
  match fuel with
  | O => OutOfFuel
  | S fuel =>
      let start := lexer.Token_Start (Token parser) in
      let item :=
        if isConst then parseConstValue fuel else parseVariableValue fuel in
      match any fuel parser lexer.BRACE_L item lexer.BRACKET_R with
      | Ok (iValues, parser) =>
          let* values := range_assign [] 0 iValues in
          Ok ({| ast.ArrayValue_Kind := kinds.Array;
                 ast.ArrayValue_Values := values;
                 ast.ArrayValue_Loc := loc parser start |}, parser)
      | Err (_, err) => Err err
      | Panic msg => Panic msg
      | OutOfFuel => OutOfFuel
      end
  end

with parseConstValue (fuel : nat) (parser : Parser) : fallible ast.Value :=
  match fuel with
  | O => OutOfFuel
  | S fuel => parseValue fuel parser true
  end

with parseVariableValue (fuel : nat) (parser : Parser)
  : fallible ast.Value :=
  match fuel with
  | O => OutOfFuel
  | S fuel => parseValue fuel parser false
  end.

(** *** Directives, arguments and variable definitions *)

Definition parseDirective (fuel : nat) (parser : Parser)
  : fallible ast.Directive :=
  let start := lexer.Token_Start (Token parser) in
  let* (_, parser) := expect parser lexer.AT in
  let* (name, parser) := parseName parser in
  let '(hasValue, parser) := skip parser lexer.COLON in
  let* (value, parser) :=
    if hasValue then parseValue fuel parser false
    else Ok (ast.Value_nil, parser) in
  Ok ({| ast.Directive_Kind := kinds.Directive;
         ast.Directive_Name := name;
         ast.Directive_Value := value;
         ast.Directive_Loc := loc parser start |}, parser).

Fixpoint parseDirectives_loop (fuel : nat) (parser : Parser)
         (directives : list ast.Directive)
  : fallible (list ast.Directive) :=
  match fuel with
  | O => OutOfFuel
  | S fuel =>
      if negb (peek parser lexer.AT) then Ok (directives, parser)
      else
        let* (directive, parser) := parseDirective fuel parser in
        parseDirectives_loop fuel parser (directives ++ [directive])
  end.

Definition parseDirectives (fuel : nat) (parser : Parser)
  : fallible (list ast.Directive) :=
  parseDirectives_loop fuel parser [].

Definition parseArgument (fuel : nat) (parser : Parser)
  : fallible ast.Argument :=
  let start := lexer.Token_Start (Token parser) in
  let* (name, parser) := parseName parser in
  let* (_, parser) := expect parser lexer.COLON in
  let* (value, parser) := parseValue fuel parser false in
  Ok ({| ast.Argument_Kind := kinds.Argument;
         ast.Argument_Name := name;
         ast.Argument_Value := value;
         ast.Argument_Loc := loc parser start |}, parser).

(** The error of [many] is looked at before the items are copied. *)
Definition parseArguments (fuel : nat) (parser : Parser)
  : fallible (list ast.Argument) :=
  if peek parser lexer.PAREN_L then
    match many fuel parser lexer.PAREN_L (parseArgument fuel)
               lexer.PAREN_R with
    | Ok (iArguments, parser) =>
        let* arguments := range_assign [] 0 iArguments in
        Ok (arguments, parser)
    | Err (_, err) => Err err
    | Panic msg => Panic msg
    | OutOfFuel => OutOfFuel
    end
  else Ok ([], parser).

Definition parseVariableDefinition (fuel : nat) (parser : Parser)
  : fallible ast.VariableDefinition :=
  let start := lexer.Token_Start (Token parser) in
  let '(hasDefault, parser) := skip parser lexer.EQUALS in
  let* (defaultValue, parser) :=
    if hasDefault then parseValue fuel parser true
    else Ok (ast.Value_nil, parser) in
  let* (_, parser) := expect parser lexer.COLON in
  let* (variable, parser) := parseVariable parser in
  let* (ttype, parser) := parseType fuel parser in
  Ok ({| ast.VariableDefinition_Kind := kinds.VariableDefinition;
         ast.VariableDefinition_Variable := variable;
         ast.VariableDefinition_Type := ttype;
         ast.VariableDefinition_DefaultValue := defaultValue;
         ast.VariableDefinition_Loc := loc parser start |}, parser).

(** The items of [many] are copied before its error is looked at. *)
Definition parseVariableDefinitions (fuel : nat) (parser : Parser)
  : fallible (list ast.VariableDefinition) :=
  if peek parser lexer.PAREN_L then
    match many fuel parser lexer.PAREN_L (parseVariableDefinition fuel)
               lexer.PAREN_R with
    | Ok (vdefs, parser) =>
        let* variableDefinitions := range_assign [] 0 vdefs in
        Ok (variableDefinitions, parser)
    | Err (vdefs, err) =>
        let* variableDefinitions :=
          range_assign (A := ast.VariableDefinition) [] 0 vdefs in
        Err err
    | Panic msg => Panic msg
    | OutOfFuel => OutOfFuel
    end
  else Ok ([], parser).

(** *** Selections *)

Fixpoint parseSelectionSet (fuel : nat) (parser : Parser)
  : fallible ast.SelectionSet :=
  match fuel with
  | O => OutOfFuel
  | S fuel =>
      let start := lexer.Token_Start (Token parser) in
      match many fuel parser lexer.BRACE_L (parseSelection fuel)
                 lexer.BRACE_R with
      | Ok (selections, parser) =>
          Ok ({| ast.SelectionSet_Kind := kinds.SelectionSet;
                 ast.SelectionSet_Selections := selections;
                 ast.SelectionSet_Loc := loc parser start |}, parser)
      | Err (_, err) => Err err
      | Panic msg => Panic msg
      | OutOfFuel => OutOfFuel
      end
  end

with parseSelection (fuel : nat) (parser : Parser)
  : fallible ast.Selection :=
  match fuel with
  | O => OutOfFuel
  | S fuel =>
      if peek parser lexer.SPREAD then parseFragment fuel parser
      else
        let* (field, parser) := parseField fuel parser in
        Ok (ast.Selection_of_Field field, parser)
  end

with parseFragment (fuel : nat) (parser : Parser)
  : fallible ast.Selection :=
  match fuel with
  | O => OutOfFuel
  | S fuel =>
      let start := lexer.Token_Start (Token parser) in
      let* (_, parser) := expect parser lexer.SPREAD in
      if String.eqb (lexer.Token_Value (Token parser)) "on" then
        let parser := snd (advance parser) in
        let* (name, parser) := parseNamedType parser in
        let* (directives, parser) := parseDirectives fuel parser in
        let* (selectionSet, parser) := parseSelectionSet fuel parser in
        Ok (ast.Selection_InlineFragment kinds.InlineFragment
              (loc parser start) name directives selectionSet, parser)
      else
        let* (name, parser) := parseFragmentName parser in
        let* (directives, parser) := parseDirectives fuel parser in
        Ok (ast.Selection_FragmentSpread kinds.FragmentSpread
              (loc parser start) name directives, parser)
  end

with parseField (fuel : nat) (parser : Parser) : fallible ast.Field :=
  match fuel with
  | O => OutOfFuel
  | S fuel =>
      let start := lexer.Token_Start (Token parser) in
      let* (nameOrAlias, parser) := parseName parser in
      let '(isAlias, parser) := skip parser lexer.COLON in
      let* (names, parser) :=
        if isAlias then
          let* (n, parser) := parseName parser in
          Ok ((n, nameOrAlias), parser)
        else Ok ((nameOrAlias, ast.Name_zero), parser) in
      let '(name, alias) := names in
      let* (selectionSet, parser) :=
        if peek parser lexer.BRACE_L then parseSelectionSet fuel parser
        else Ok (ast.SelectionSet_zero, parser) in
      let* (arguments, parser) := parseArguments fuel parser in
      let* (directives, parser) := parseDirectives fuel parser in
      Ok ({| ast.Field_Kind := kinds.Field;
             ast.Field_Alias := alias;
             ast.Field_Name := name;
             ast.Field_Arguments := arguments;
             ast.Field_Directives := directives;
             ast.Field_SelectionSet := selectionSet;
             ast.Field_Loc := loc parser start |}, parser)
  end.

(** *** Definitions *)

(** Modelled from the spec: [od.NewOperationDefinition] and
    [fd.NewFragmentDefinition] are not among the sources; like the
    constructors of [ast.go] they set the kind and leave the rest at
    its zero value. *)
Definition NewOperationDefinition : ast.OperationDefinition :=
  {| ast.OperationDefinition_Kind := kinds.OperationDefinition;
     ast.OperationDefinition_Loc := ast.Location_zero;
     ast.OperationDefinition_Operation := EmptyString;
     ast.OperationDefinition_Name := ast.Name_zero;
     ast.OperationDefinition_VariableDefinitions := [];
     ast.OperationDefinition_Directives := [];
     ast.OperationDefinition_SelectionSet := ast.SelectionSet_zero |}.

Definition NewFragmentDefinition : ast.FragmentDefinition :=
  {| ast.FragmentDefinition_Kind := kinds.FragmentDefinition;
     ast.FragmentDefinition_Loc := ast.Location_zero;
     ast.FragmentDefinition_Name := ast.Name_zero;
     ast.FragmentDefinition_TypeCondition := ast.NamedType_zero;
     ast.FragmentDefinition_Directives := [];
     ast.FragmentDefinition_SelectionSet := ast.SelectionSet_zero |}.

(** Implements the parsing rules in the Operations section. *)
Definition parseOperationDefinition (fuel : nat) (parser : Parser)
  : fallible ast.OperationDefinition :=
  let start := lexer.Token_Start (Token parser) in
  if peek parser lexer.BRACE_L then
    let* (selectionSet, parser) := parseSelectionSet fuel parser in
    let oDef := NewOperationDefinition in
    Ok ({| ast.OperationDefinition_Kind := ast.OperationDefinition_Kind oDef;
           ast.OperationDefinition_Operation := "query";
           ast.OperationDefinition_Name := ast.OperationDefinition_Name oDef;
           ast.OperationDefinition_VariableDefinitions :=
             ast.OperationDefinition_VariableDefinitions oDef;
           ast.OperationDefinition_Directives := [];
           ast.OperationDefinition_SelectionSet := selectionSet;
           ast.OperationDefinition_Loc := loc parser start |}, parser)
  else
    let* (operationToken, parser) := expect parser lexer.NAME in
    let operation := lexer.Token_Value operationToken in
    let* (name, parser) := parseName parser in
    let* (variableDefinitions, parser) :=
      parseVariableDefinitions fuel parser in
    let* (directives, parser) := parseDirectives fuel parser in
    let* (selectionSet, parser) := parseSelectionSet fuel parser in
    let oDef := NewOperationDefinition in
    Ok ({| ast.OperationDefinition_Kind := ast.OperationDefinition_Kind oDef;
           ast.OperationDefinition_Operation := operation;
           ast.OperationDefinition_Name := name;
           ast.OperationDefinition_VariableDefinitions :=
             variableDefinitions;
           ast.OperationDefinition_Directives := directives;
           ast.OperationDefinition_SelectionSet := selectionSet;
           ast.OperationDefinition_Loc := loc parser start |}, parser).

Definition parseFragmentDefinition (fuel : nat) (parser : Parser)
  : fallible ast.FragmentDefinition :=
  let start := lexer.Token_Start (Token parser) in
  let* (_, parser) := expectKeyWord parser "fragment" in
  let* (name, parser) := parseFragmentName parser in
  let* (_, parser) := expectKeyWord parser "on" in
  let* (typeCondition, parser) := parseNamedType parser in
  let* (selectionSet, parser) := parseSelectionSet fuel parser in
  let* (directives, parser) := parseDirectives fuel parser in
  let fDef := NewFragmentDefinition in
  Ok ({| ast.FragmentDefinition_Kind := ast.FragmentDefinition_Kind fDef;
         ast.FragmentDefinition_Name := name;
         ast.FragmentDefinition_TypeCondition := typeCondition;
         ast.FragmentDefinition_Directives := directives;
         ast.FragmentDefinition_SelectionSet := selectionSet;
         ast.FragmentDefinition_Loc := loc parser start |}, parser).

(** *** The document *)

(** The [for] loop of [parseDocument]. *)
Fixpoint parseDocument_loop (fuel : nat) (parser : Parser)
         (definitions : list ast.Definition_)
  : fallible (list ast.Definition_) :=
  match fuel with
  | O => OutOfFuel
  | S fuel =>
      let '(atEnd, parser) := skip parser lexer.EOF in
      if atEnd then Ok (definitions, parser)
      else if peek parser lexer.BRACE_L then
        let* (oDef, parser) := parseOperationDefinition fuel parser in
        parseDocument_loop fuel parser
          (definitions ++ [ast.Definition_Operation oDef])
      else if peek parser lexer.NAME then
        if (String.eqb (lexer.Token_Value (Token parser)) "query"
            || String.eqb (lexer.Token_Value (Token parser)) "mutation")%bool
        then
          let* (oDef, parser) := parseOperationDefinition fuel parser in
          parseDocument_loop fuel parser
            (definitions ++ [ast.Definition_Operation oDef])
        else if String.eqb (lexer.Token_Value (Token parser)) "fragment"
        then
          let* (fDef, parser) := parseFragmentDefinition fuel parser in
          parseDocument_loop fuel parser
            (definitions ++ [ast.Definition_Fragment fDef])
        else Err (unexpected parser None)
      else Err (unexpected parser None)
  end.

(** Implements the parsing rules in the Document section. *)
Definition parseDocument (fuel : nat) (parser : Parser)
  : fallible ast.Document :=
  let start := lexer.Token_Start (Token parser) in
  let* (definitions, parser) := parseDocument_loop fuel parser [] in
  Ok ({| ast.Document_Kind := kinds.Document;
         ast.Document_Loc := loc parser start;
         ast.Document_Definitions := definitions |}, parser).

(** The tokenizer constructor [lexer.Lex] is an argument, so that the
    parser can be studied over every tokenizer. *)
Definition makeParser (Lex : source.Source -> lexer.Lexer)
           (s : source.Source) (opts : ParseOptions)
  : result error Parser :=
  let lexToken := Lex s in
  match lexToken 0 with
  | lexer.LexFailed err => Err err
  | lexer.Lexed token =>
      Ok {| LexToken := lexToken; Source := s; Options := opts;
            PrevEnd := 0; Token := token |}
  end.

Definition Parse (Lex : source.Source -> lexer.Lexer) (fuel : nat)
           (p : ParseParams) : result error ast.Document :=
  let sourceObj :=
    match Params_Source p with
    | SourceObj s => s
    | SourceString s => source.NewSource s EmptyString
    | SourceOther => source.NewSource EmptyString EmptyString
    end in
  let* parser := makeParser Lex sourceObj (Params_Options p) in
  let* (doc, _) := parseDocument fuel parser in
  Ok doc.

End parser.

(* ------------------------------------------------------------------ *)
(** ** Notions used by the properties *)

Import parser.

Arguments many : simpl never.
Arguments any : simpl never.
Arguments parseArguments : simpl never.
Arguments parseDirectives : simpl never.
Arguments parseVariableDefinitions : simpl never.
Arguments parseDirective : simpl never.
Arguments parseArgument : simpl never.
Arguments parseVariableDefinition : simpl never.
Arguments parseOperationDefinition : simpl never.
Arguments parseFragmentDefinition : simpl never.
Arguments parseName : simpl never.
Arguments parseNamedType : simpl never.
Arguments parseVariable : simpl never.
Arguments parseFragmentName : simpl never.
Arguments expect : simpl never.
Arguments expectKeyWord : simpl never.
Arguments skip : simpl never.
Arguments peek : simpl never.
Arguments advance : simpl never.
Arguments loc : simpl never.
Arguments unexpected : simpl never.

(** Fuel is an artefact of the embedding: [r <<= r'] says that [r'] is
    [r] unless [r] ran out of fuel. *)
Definition defined_le {E A} (r r' : result E A) : Prop :=
  r <> OutOfFuel -> r' = r.
Infix "<<=" := defined_le (at level 70, no associativity).

Definition defaultOptions : ParseOptions :=
  {| NoLocation := false; NoSource := false |}.

(** [Parse] on a source string, with the concrete tokenizer. *)
Definition parseString (fuel : nat) (text : string) (opts : ParseOptions)
  : result graphqlerrors.error ast.Document :=
  Parse lexer.Lex fuel
        {| Params_Source := SourceString text; Params_Options := opts |}.

(** One production run on a text of its own, from the first token. *)
Definition runOn {A} (f : parseFn A) (text : string) (opts : ParseOptions)
  : result graphqlerrors.error A :=
  let* parser :=
    makeParser lexer.Lex (source.NewSource text EmptyString) opts in
  let* (a, _) := f parser in
  Ok a.

(** An error names a token kind when its message ends by describing a
    token of that kind as the one found. *)
Definition ends_with (suffix s : string) : bool :=
  let n := String.length s in
  let k := String.length suffix in
  (Nat.leb k n && String.eqb (substring (n - k) k s) suffix)%bool.

Definition error_names (kind : lexer.TokenKind) (e : graphqlerrors.error)
  : bool :=
  match e with
  | graphqlerrors.SyntaxError _ _ d =>
      (String.eqb d ("Unexpected " +++ lexer.GetTokenKindDesc kind)
       || ends_with (", found " +++ lexer.GetTokenKindDesc kind) d)%bool
  | graphqlerrors.LexError _ _ _ => false
  end.

(** The document that [{ hero { name } }] stands for, with the
    locations of the default options. *)
Definition hero_source : source.Source :=
  source.NewSource "{ hero { name } }" EmptyString.

Definition hero_loc (start stop : Z) : ast.Location :=
  {| ast.Loc_Start := start; ast.Loc_End := stop;
     ast.Loc_Source := Some hero_source |}.

Definition hero_name (value : string) (start stop : Z) : ast.Name :=
  {| ast.Name_Kind := kinds.Name; ast.Name_Loc := hero_loc start stop;
     ast.Name_Value := value |}.

Definition hero_document : ast.Document :=
  {| ast.Document_Kind := kinds.Document;
     ast.Document_Loc := hero_loc 0 17;
     ast.Document_Definitions :=
       [ast.Definition_Operation
          {| ast.OperationDefinition_Kind := kinds.OperationDefinition;
             ast.OperationDefinition_Loc := hero_loc 0 17;
             ast.OperationDefinition_Operation := "query";
             ast.OperationDefinition_Name := ast.Name_zero;
             ast.OperationDefinition_VariableDefinitions := [];
             ast.OperationDefinition_Directives := [];
             ast.OperationDefinition_SelectionSet :=
               {| ast.SelectionSet_Kind := kinds.SelectionSet;
                  ast.SelectionSet_Loc := hero_loc 0 17;
                  ast.SelectionSet_Selections :=
                    [ast.Selection_Field kinds.Field (hero_loc 2 15)
                       ast.Name_zero (hero_name "hero" 2 6) [] []
                       {| ast.SelectionSet_Kind := kinds.SelectionSet;
                          ast.SelectionSet_Loc := hero_loc 7 15;
                          ast.SelectionSet_Selections :=
                            [ast.Selection_Field kinds.Field (hero_loc 9 13)
                               ast.Name_zero (hero_name "name" 9 13) [] []
                               ast.SelectionSet_zero] |}] |} |}] |}.

(** *** Rewriting the locations of a tree

    [map*] applies [h] to the location of every node of a tree and
    leaves everything else as it is. *)

Definition mapName (h : ast.Location -> ast.Location) (n : ast.Name)
  : ast.Name :=
  {| ast.Name_Kind := ast.Name_Kind n;
     ast.Name_Loc := h (ast.Name_Loc n);
     ast.Name_Value := ast.Name_Value n |}.

Fixpoint mapType (h : ast.Location -> ast.Location) (t : ast.Type_)
  : ast.Type_ :=
  match t with
  | ast.Type_nil => ast.Type_nil
  | ast.Type_NamedType k l n i =>
      ast.Type_NamedType k (h l) (mapName h n) (mapType h i)
  | ast.Type_ListType k l i => ast.Type_ListType k (h l) (mapType h i)
  | ast.Type_NonNullType k l i => ast.Type_NonNullType k (h l) (mapType h i)
  end.

Definition mapNamedType (h : ast.Location -> ast.Location)
           (n : ast.NamedType) : ast.NamedType :=
  {| ast.NamedType_Kind := ast.NamedType_Kind n;
     ast.NamedType_Loc := h (ast.NamedType_Loc n);
     ast.NamedType_Name := mapName h (ast.NamedType_Name n);
     ast.NamedType_Type := mapType h (ast.NamedType_Type n) |}.

Fixpoint mapValue (h : ast.Location -> ast.Location) (v : ast.Value)
  : ast.Value :=
  match v with
  | ast.Value_nil => ast.Value_nil
  | ast.Value_ArrayValue k l vs =>
      ast.Value_ArrayValue k (h l) (map (mapValue h) vs)
  end.

Definition mapArrayValue (h : ast.Location -> ast.Location)
           (a : ast.ArrayValue) : ast.ArrayValue :=
  {| ast.ArrayValue_Kind := ast.ArrayValue_Kind a;
     ast.ArrayValue_Loc := h (ast.ArrayValue_Loc a);
     ast.ArrayValue_Values := map (mapValue h) (ast.ArrayValue_Values a) |}.

Definition mapArgument (h : ast.Location -> ast.Location)
           (a : ast.Argument) : ast.Argument :=
  {| ast.Argument_Kind := ast.Argument_Kind a;
     ast.Argument_Loc := h (ast.Argument_Loc a);
     ast.Argument_Name := mapName h (ast.Argument_Name a);
     ast.Argument_Value := mapValue h (ast.Argument_Value a) |}.

Definition mapDirective (h : ast.Location -> ast.Location)
           (d : ast.Directive) : ast.Directive :=
  {| ast.Directive_Kind := ast.Directive_Kind d;
     ast.Directive_Loc := h (ast.Directive_Loc d);
     ast.Directive_Name := mapName h (ast.Directive_Name d);
     ast.Directive_Value := mapValue h (ast.Directive_Value d) |}.

Definition mapVariable (h : ast.Location -> ast.Location)
           (v : ast.Variable_) : ast.Variable_ :=
  {| ast.Variable_Kind := ast.Variable_Kind v;
     ast.Variable_Loc := h (ast.Variable_Loc v);
     ast.Variable_Name := mapName h (ast.Variable_Name v) |}.

Definition mapVariableDefinition (h : ast.Location -> ast.Location)
           (v : ast.VariableDefinition) : ast.VariableDefinition :=
  {| ast.VariableDefinition_Kind := ast.VariableDefinition_Kind v;
     ast.VariableDefinition_Loc := h (ast.VariableDefinition_Loc v);
     ast.VariableDefinition_Variable :=
       mapVariable h (ast.VariableDefinition_Variable v);
     ast.VariableDefinition_Type := mapType h (ast.VariableDefinition_Type v);
     ast.VariableDefinition_DefaultValue :=
       mapValue h (ast.VariableDefinition_DefaultValue v) |}.

Fixpoint mapSelection (h : ast.Location -> ast.Location)
         (s : ast.Selection) : ast.Selection :=
  match s with
  | ast.Selection_Field k l a n args ds ss =>
      ast.Selection_Field k (h l) (mapName h a) (mapName h n)
        (map (mapArgument h) args) (map (mapDirective h) ds)
        {| ast.SelectionSet_Kind := ast.SelectionSet_Kind ss;
           ast.SelectionSet_Loc := h (ast.SelectionSet_Loc ss);
           ast.SelectionSet_Selections :=
             map (mapSelection h) (ast.SelectionSet_Selections ss) |}
  | ast.Selection_FragmentSpread k l n ds =>
      ast.Selection_FragmentSpread k (h l) (mapName h n)
        (map (mapDirective h) ds)
  | ast.Selection_InlineFragment k l tc ds ss =>
      ast.Selection_InlineFragment k (h l) (mapNamedType h tc)
        (map (mapDirective h) ds)
        {| ast.SelectionSet_Kind := ast.SelectionSet_Kind ss;
           ast.SelectionSet_Loc := h (ast.SelectionSet_Loc ss);
           ast.SelectionSet_Selections :=
             map (mapSelection h) (ast.SelectionSet_Selections ss) |}
  end.

Definition mapSelectionSet (h : ast.Location -> ast.Location)
           (ss : ast.SelectionSet) : ast.SelectionSet :=
  {| ast.SelectionSet_Kind := ast.SelectionSet_Kind ss;
     ast.SelectionSet_Loc := h (ast.SelectionSet_Loc ss);
     ast.SelectionSet_Selections :=
       map (mapSelection h) (ast.SelectionSet_Selections ss) |}.

Definition mapField (h : ast.Location -> ast.Location) (f : ast.Field)
  : ast.Field :=
  {| ast.Field_Kind := ast.Field_Kind f;
     ast.Field_Loc := h (ast.Field_Loc f);
     ast.Field_Alias := mapName h (ast.Field_Alias f);
     ast.Field_Name := mapName h (ast.Field_Name f);
     ast.Field_Arguments := map (mapArgument h) (ast.Field_Arguments f);
     ast.Field_Directives := map (mapDirective h) (ast.Field_Directives f);
     ast.Field_SelectionSet := mapSelectionSet h (ast.Field_SelectionSet f) |}.

Definition mapOperationDefinition (h : ast.Location -> ast.Location)
           (o : ast.OperationDefinition) : ast.OperationDefinition :=
  {| ast.OperationDefinition_Kind := ast.OperationDefinition_Kind o;
     ast.OperationDefinition_Loc := h (ast.OperationDefinition_Loc o);
     ast.OperationDefinition_Operation := ast.OperationDefinition_Operation o;
     ast.OperationDefinition_Name :=
       mapName h (ast.OperationDefinition_Name o);
     ast.OperationDefinition_VariableDefinitions :=
       map (mapVariableDefinition h)
           (ast.OperationDefinition_VariableDefinitions o);
     ast.OperationDefinition_Directives :=
       map (mapDirective h) (ast.OperationDefinition_Directives o);
     ast.OperationDefinition_SelectionSet :=
       mapSelectionSet h (ast.OperationDefinition_SelectionSet o) |}.

Definition mapFragmentDefinition (h : ast.Location -> ast.Location)
           (f : ast.FragmentDefinition) : ast.FragmentDefinition :=
  {| ast.FragmentDefinition_Kind := ast.FragmentDefinition_Kind f;
     ast.FragmentDefinition_Loc := h (ast.FragmentDefinition_Loc f);
     ast.FragmentDefinition_Name := mapName h (ast.FragmentDefinition_Name f);
     ast.FragmentDefinition_TypeCondition :=
       mapNamedType h (ast.FragmentDefinition_TypeCondition f);
     ast.FragmentDefinition_Directives :=
       map (mapDirective h) (ast.FragmentDefinition_Directives f);
     ast.FragmentDefinition_SelectionSet :=
       mapSelectionSet h (ast.FragmentDefinition_SelectionSet f) |}.

Definition mapDefinition (h : ast.Location -> ast.Location)
           (d : ast.Definition_) : ast.Definition_ :=
  match d with
  | ast.Definition_Operation o =>
      ast.Definition_Operation (mapOperationDefinition h o)
  | ast.Definition_Fragment f =>
      ast.Definition_Fragment (mapFragmentDefinition h f)
  end.

Definition mapDocument (h : ast.Location -> ast.Location)
           (d : ast.Document) : ast.Document :=
  {| ast.Document_Kind := ast.Document_Kind d;
     ast.Document_Loc := h (ast.Document_Loc d);
     ast.Document_Definitions :=
       map (mapDefinition h) (ast.Document_Definitions d) |}.

(** The two rewritings of the location options. *)
Definition zeroLocation (l : ast.Location) : ast.Location :=
  ast.Location_zero.

Definition dropSource (l : ast.Location) : ast.Location :=
  {| ast.Loc_Start := ast.Loc_Start l; ast.Loc_End := ast.Loc_End l;
     ast.Loc_Source := None |}.

(** The value of a result, rewritten. *)
Definition mapResult {E A B} (f : A -> B) (r : result E A) : result E B :=
  match r with
  | Ok a => Ok (f a)
  | Err e => Err e
  | Panic msg => Panic msg
  | OutOfFuel => OutOfFuel
  end.

(** Two parser states that differ in their options only: the first has
    the default options, the second has [o]. *)
Definition sim (o : ParseOptions) (p1 p2 : Parser) : Prop :=
  LexToken p2 = LexToken p1 /\ Source p2 = Source p1
  /\ PrevEnd p2 = PrevEnd p1 /\ Token p2 = Token p1
  /\ Options p1 = defaultOptions /\ Options p2 = o.

(** Two outcomes of the same kind: equal errors and panics, values
    related by [ma] (and by [me] where an error carries items), final
    states that differ in their options only. *)
Definition rel {E A} (o : ParseOptions) (me : E -> E) (ma : A -> A)
           (r1 r2 : result E (A * Parser)) : Prop :=
  match r1, r2 with
  | Ok (a1, q1), Ok (a2, q2) => a2 = ma a1 /\ sim o q1 q2
  | Err e1, Err e2 => e2 = me e1
  | Panic m1, Panic m2 => m2 = m1
  | OutOfFuel, OutOfFuel => True
  | _, _ => False
  end.

Definition mapItems {A} (m : A -> A) (x : list A * graphqlerrors.error)
  : list A * graphqlerrors.error :=
  (map m (fst x), snd x).

(** *** The locations of a tree

    [locs*] lists the location of a node and of every node below it. *)

Definition locsName (n : ast.Name) : list ast.Location := [ast.Name_Loc n].

Fixpoint locsType (t : ast.Type_) : list ast.Location :=
  match t with
  | ast.Type_nil => []
  | ast.Type_NamedType _ l n i => l :: locsName n ++ locsType i
  | ast.Type_ListType _ l i => l :: locsType i
  | ast.Type_NonNullType _ l i => l :: locsType i
  end.

Definition locsNamedType (n : ast.NamedType) : list ast.Location :=
  ast.NamedType_Loc n :: locsName (ast.NamedType_Name n)
    ++ locsType (ast.NamedType_Type n).

Fixpoint locsValue (v : ast.Value) : list ast.Location :=
  match v with
  | ast.Value_nil => []
  | ast.Value_ArrayValue _ l vs => l :: flat_map locsValue vs
  end.

Definition locsArrayValue (a : ast.ArrayValue) : list ast.Location :=
  ast.ArrayValue_Loc a :: flat_map locsValue (ast.ArrayValue_Values a).

Definition locsArgument (a : ast.Argument) : list ast.Location :=
  ast.Argument_Loc a :: locsName (ast.Argument_Name a)
    ++ locsValue (ast.Argument_Value a).

Definition locsDirective (d : ast.Directive) : list ast.Location :=
  ast.Directive_Loc d :: locsName (ast.Directive_Name d)
    ++ locsValue (ast.Directive_Value d).

Definition locsVariable (v : ast.Variable_) : list ast.Location :=
  ast.Variable_Loc v :: locsName (ast.Variable_Name v).

Definition locsVariableDefinition (v : ast.VariableDefinition)
  : list ast.Location :=
  ast.VariableDefinition_Loc v
    :: locsVariable (ast.VariableDefinition_Variable v)
    ++ locsType (ast.VariableDefinition_Type v)
    ++ locsValue (ast.VariableDefinition_DefaultValue v).

Fixpoint locsSelection (s : ast.Selection) : list ast.Location :=
  match s with
  | ast.Selection_Field _ l a n args ds ss =>
      l :: locsName a ++ locsName n ++ flat_map locsArgument args
        ++ flat_map locsDirective ds
        ++ ast.SelectionSet_Loc ss
        :: flat_map locsSelection (ast.SelectionSet_Selections ss)
  | ast.Selection_FragmentSpread _ l n ds =>
      l :: locsName n ++ flat_map locsDirective ds
  | ast.Selection_InlineFragment _ l tc ds ss =>
      l :: locsNamedType tc ++ flat_map locsDirective ds
        ++ ast.SelectionSet_Loc ss
        :: flat_map locsSelection (ast.SelectionSet_Selections ss)
  end.

Definition locsSelectionSet (ss : ast.SelectionSet) : list ast.Location :=
  ast.SelectionSet_Loc ss
    :: flat_map locsSelection (ast.SelectionSet_Selections ss).

Definition locsField (f : ast.Field) : list ast.Location :=
  locsSelection (ast.Selection_of_Field f).

Definition locsOperationDefinition (o : ast.OperationDefinition)
  : list ast.Location :=
  ast.OperationDefinition_Loc o
    :: locsName (ast.OperationDefinition_Name o)
    ++ flat_map locsVariableDefinition
         (ast.OperationDefinition_VariableDefinitions o)
    ++ flat_map locsDirective (ast.OperationDefinition_Directives o)
    ++ locsSelectionSet (ast.OperationDefinition_SelectionSet o).

Definition locsFragmentDefinition (f : ast.FragmentDefinition)
  : list ast.Location :=
  ast.FragmentDefinition_Loc f
    :: locsName (ast.FragmentDefinition_Name f)
    ++ locsNamedType (ast.FragmentDefinition_TypeCondition f)
    ++ flat_map locsDirective (ast.FragmentDefinition_Directives f)
    ++ locsSelectionSet (ast.FragmentDefinition_SelectionSet f).

Definition locsDefinition (d : ast.Definition_) : list ast.Location :=
  match d with
  | ast.Definition_Operation o => locsOperationDefinition o
  | ast.Definition_Fragment f => locsFragmentDefinition f
  end.

Definition locsDocument (d : ast.Document) : list ast.Location :=
  ast.Document_Loc d :: flat_map locsDefinition (ast.Document_Definitions d).

(** *** Consumed tokens

    [consumes p last q]: from the state [p] the cursor was advanced one
    or more times, the first time over the current token of [p] and the
    last time over the token [last], and is now in the state [q]. *)
Inductive consumes (p : Parser) : lexer.Token -> Parser -> Prop :=
| consumes_first : consumes p (Token p) (snd (advance p))
| consumes_next last q :
    consumes p last q -> consumes p (Token q) (snd (advance q)).

Definition consumed (p q : Parser) : Prop := exists last, consumes p last q.

Definition reaches (p q : Parser) : Prop := q = p \/ consumed p q.

(** A location whose end is not before its start. *)
Definition ordered (l : ast.Location) : Prop :=
  ast.Loc_Start l <= ast.Loc_End l.

(** The tokenizer contract of the spec: the token returned for an
    offset begins at or after that offset, and ends at or after its
    start. *)
Definition lexer_sane (lex : lexer.Lexer) : Prop :=
  forall offset t,
    lex offset = lexer.Lexed t ->
    offset <= lexer.Token_Start t /\ lexer.Token_Start t <= lexer.Token_End t.

Definition cursor_ok (p : Parser) : Prop :=
  lexer_sane (LexToken p)
  /\ lexer.Token_Start (Token p) <= lexer.Token_End (Token p)
  /\ PrevEnd p <= lexer.Token_End (Token p).

(** What a production that returned the node [a] from the state [p],
    leaving the state [q], did: it consumed one token or more, it gave
    [a] the location that [loc] computes at [q] from the start of the
    first token, and, given a sane tokenizer, every location in [a] is
    ordered. *)
Definition located {A} (getLoc : A -> ast.Location)
           (locs : A -> list ast.Location) (p : Parser) (a : A)
           (q : Parser) : Prop :=
  consumed p q
  /\ getLoc a = loc q (lexer.Token_Start (Token p))
  /\ (cursor_ok p -> Forall ordered (locs a)).

(** The same for an item parser and for a list of nodes, which may
    consume nothing. *)
Definition located_items {A} (locs : A -> list ast.Location)
           (p : Parser) (l : list A) (q : Parser) : Prop :=
  reaches p q /\ (cursor_ok p -> Forall ordered (flat_map locs l)).

Definition item_spec {A} (locs : A -> list ast.Location) (f : parseFn A)
  : Prop :=
  forall p a q,
    f p = Ok (a, q) -> reaches p q /\ (cursor_ok p -> Forall ordered (locs a)).

Definition typeLoc (t : ast.Type_) : ast.Location :=
  match t with
  | ast.Type_nil => ast.Location_zero
  | ast.Type_NamedType _ l _ _ => l
  | ast.Type_ListType _ l _ => l
  | ast.Type_NonNullType _ l _ => l
  end.

Definition valueLoc (v : ast.Value) : ast.Location :=
  match v with
  | ast.Value_nil => ast.Location_zero
  | ast.Value_ArrayValue _ l _ => l
  end.

Definition selectionLoc (s : ast.Selection) : ast.Location :=
  match s with
  | ast.Selection_Field _ l _ _ _ _ _ => l
  | ast.Selection_FragmentSpread _ l _ _ => l
  | ast.Selection_InlineFragment _ l _ _ _ => l
  end.

(** The span from the start of the token [first] to the end of the
    token [last], with the source: what the default options record. *)
Definition span (src : source.Source) (first last : lexer.Token)
  : ast.Location :=
  {| ast.Loc_Start := lexer.Token_Start first;
     ast.Loc_End := lexer.Token_End last;
     ast.Loc_Source := Some src |}.

(** Under the default options the production [f] gives its node the
    span from the start of the first token of the production to the end
    of the last token consumed while building the node. *)
Definition records_span {A} (getLoc : A -> ast.Location) (f : parseFn A)
  : Prop :=
  forall p a q,
    Options p = defaultOptions ->
    f p = Ok (a, q) ->
    exists last,
      consumes p last q /\ getLoc a = span (Source p) (Token p) last.


(** *** Shapes of parsed trees *)

(** What the document loop lets through: an operation is a [query] or a
    [mutation], anonymous (zero name) or named by a name token; a
    fragment is never named [on]. *)
Definition definition_ok (d : ast.Definition_) : Prop :=
  match d with
  | ast.Definition_Operation o =>
      (ast.OperationDefinition_Operation o = "query"%string
       \/ ast.OperationDefinition_Operation o = "mutation"%string)
      /\ (ast.OperationDefinition_Name o = ast.Name_zero
          \/ ast.Name_Kind (ast.OperationDefinition_Name o) = kinds.Name)
      /\ ast.OperationDefinition_VariableDefinitions o = []
      /\ ast.SelectionSet_Selections (ast.OperationDefinition_SelectionSet o)
         <> []
  | ast.Definition_Fragment f =>
      ast.Name_Value (ast.FragmentDefinition_Name f) <> "on"%string
      /\ ast.SelectionSet_Selections (ast.FragmentDefinition_SelectionSet f)
         <> []
  end.

(** A type reference as [parseType] builds it: a named type, a list of
    a type, or a non-null wrapper around a type that is not itself a
    non-null wrapper. *)
Fixpoint wfType (t : ast.Type_) : Prop :=
  match t with
  | ast.Type_nil => False
  | ast.Type_NamedType k _ n inner =>
      k = kinds.NamedType /\ ast.Name_Kind n = kinds.Name
      /\ inner = ast.Type_nil
  | ast.Type_ListType k _ inner => k = kinds.ListType /\ wfType inner
  | ast.Type_NonNullType k _ inner =>
      k = kinds.NonNullType /\ wfType inner
      /\ match inner with
         | ast.Type_NonNullType _ _ _ => False
         | _ => True
         end
  end.

(** The state after [n] tokens were consumed. *)
Definition advances (n : nat) (p : Parser) : Parser :=
  Nat.iter n (fun q => snd (advance q)) p.

(** The parser that [makeParser] builds for a text whose first token is
    [first]. *)
Definition parserOn (text : string) (first : lexer.Token) : Parser :=
  {| LexToken := lexer.Lex (source.NewSource text EmptyString);
     Source := source.NewSource text EmptyString;
     Options := defaultOptions; PrevEnd := 0; Token := first |}.

Definition locOn (text : string) (start stop : Z) : ast.Location :=
  {| ast.Loc_Start := start; ast.Loc_End := stop;
     ast.Loc_Source := Some (source.NewSource text EmptyString) |}.

(** The state of [parseField] after the field's name: three tokens on
    (alias, colon, name) when a colon follows the first name, one token
    on otherwise. *)
Definition afterFieldName (p : Parser) : Parser :=
  if lexer.TokenKind_beq (lexer.Token_Kind (Token (advances 1 p)))
                         lexer.COLON
  then advances 3 p else advances 1 p.

(** The operation definition that a bare selection set stands for: the
    operation [query], no name, no variable definitions, no
    directives. *)
Definition anonymousQuery (selectionSet : ast.SelectionSet)
           (l : ast.Location) : ast.OperationDefinition :=
  {| ast.OperationDefinition_Kind := kinds.OperationDefinition;
     ast.OperationDefinition_Loc := l;
     ast.OperationDefinition_Operation := "query";
     ast.OperationDefinition_Name := ast.Name_zero;
     ast.OperationDefinition_VariableDefinitions := [];
     ast.OperationDefinition_Directives := [];
     ast.OperationDefinition_SelectionSet := selectionSet |}.

(** A document that holds one anonymous query and nothing else. *)
Definition anonymous_query_document (doc : ast.Document) : Prop :=
  exists selectionSet l,
    ast.Document_Definitions doc
    = [ast.Definition_Operation (anonymousQuery selectionSet l)].

(* ------------------------------------------------------------------ *)
(** * Properties *)

(** ** Fuel

    A call that returns, fails or panics with some fuel does the same
    with any larger fuel. *)

(** ** The token cursor *)

Lemma TokenKind_beq_refl k : lexer.TokenKind_beq k k = true.
Proof. destruct k; reflexivity. Qed.

Lemma TokenKind_beq_eq k k' : lexer.TokenKind_beq k k' = true <-> k = k'.
Proof.
  split; [|intros ->; apply TokenKind_beq_refl].
  destruct k, k'; simpl; intros H; try discriminate; reflexivity.
Qed.

Lemma TokenKind_beq_neq k k' : k <> k' -> lexer.TokenKind_beq k k' = false.
Proof.
  intros H. destruct (lexer.TokenKind_beq k k') eqn:E; [|reflexivity].
  apply TokenKind_beq_eq in E. contradiction.
Qed.

Lemma expect_ok p k :
  lexer.Token_Kind (Token p) = k ->
  expect p k = Ok (Token p, snd (advance p)).
Proof. intros H. unfold expect. rewrite H, TokenKind_beq_refl. reflexivity. Qed.

Lemma expect_fail p k :
  lexer.Token_Kind (Token p) <> k ->
  expect p k =
  Err (graphqlerrors.SyntaxError (Source p) (lexer.Token_Start (Token p))
         ("Expected " +++ lexer.GetTokenKindDesc k +++ ", found "
          +++ lexer.GetTokenDesc (Token p))).
Proof.
  intros H. unfold expect. rewrite (TokenKind_beq_neq _ _ H). reflexivity.
Qed.

Lemma skip_true p k :
  lexer.Token_Kind (Token p) = k -> skip p k = (true, snd (advance p)).
Proof. intros H. unfold skip. rewrite H, TokenKind_beq_refl. reflexivity. Qed.

Lemma skip_false p k :
  lexer.Token_Kind (Token p) <> k -> skip p k = (false, p).
Proof.
  intros H. unfold skip. rewrite (TokenKind_beq_neq _ _ H). reflexivity.
Qed.

Lemma peek_true p k : lexer.Token_Kind (Token p) = k -> peek p k = true.
Proof. intros H. unfold peek. rewrite H. apply TokenKind_beq_refl. Qed.

Lemma peek_false p k : lexer.Token_Kind (Token p) <> k -> peek p k = false.
Proof. intros H. unfold peek. apply TokenKind_beq_neq. exact H. Qed.

Lemma advance_Source p : Source (snd (advance p)) = Source p.
Proof. unfold advance. destruct (LexToken _ _); reflexivity. Qed.

Lemma advance_Options p : Options (snd (advance p)) = Options p.
Proof. unfold advance. destruct (LexToken _ _); reflexivity. Qed.

Lemma advance_LexToken p : LexToken (snd (advance p)) = LexToken p.
Proof. unfold advance. destruct (LexToken _ _); reflexivity. Qed.

Lemma advance_PrevEnd p :
  PrevEnd (snd (advance p)) = lexer.Token_End (Token p).
Proof. unfold advance. destruct (LexToken _ _); reflexivity. Qed.

(** ** Unfolding equations of the mutually recursive parsers *)

Lemma parseValue_S fuel parser isConst :
  parseValue (S fuel) parser isConst =
  match lexer.Token_Kind (Token parser) with
  | lexer.BRACE_L =>
      let* (value, parser) := parseArray fuel parser isConst in
      Ok (ast.Value_of_ArrayValue value, parser)
  | _ => Err (unexpected parser None)
  end.
Proof. reflexivity. Qed.

Lemma parseArray_S fuel parser isConst :
  parseArray (S fuel) parser isConst =
  match any fuel parser lexer.BRACE_L
            (if isConst then parseConstValue fuel
             else parseVariableValue fuel) lexer.BRACKET_R with
  | Ok (iValues, parser') =>
      let* values := range_assign [] 0 iValues in
      Ok ({| ast.ArrayValue_Kind := kinds.Array;
             ast.ArrayValue_Values := values;
             ast.ArrayValue_Loc :=
               loc parser' (lexer.Token_Start (Token parser)) |}, parser')
  | Err (_, err) => Err err
  | Panic msg => Panic msg
  | OutOfFuel => OutOfFuel
  end.
Proof. reflexivity. Qed.

Lemma parseConstValue_S fuel parser :
  parseConstValue (S fuel) parser = parseValue fuel parser true.
Proof. reflexivity. Qed.

Lemma parseVariableValue_S fuel parser :
  parseVariableValue (S fuel) parser = parseValue fuel parser false.
Proof. reflexivity. Qed.

Lemma parseSelectionSet_S fuel parser :
  parseSelectionSet (S fuel) parser =
  match many fuel parser lexer.BRACE_L (parseSelection fuel)
             lexer.BRACE_R with
  | Ok (selections, parser') =>
      Ok ({| ast.SelectionSet_Kind := kinds.SelectionSet;
             ast.SelectionSet_Selections := selections;
             ast.SelectionSet_Loc :=
               loc parser' (lexer.Token_Start (Token parser)) |}, parser')
  | Err (_, err) => Err err
  | Panic msg => Panic msg
  | OutOfFuel => OutOfFuel
  end.
Proof. reflexivity. Qed.

Lemma parseSelection_S fuel parser :
  parseSelection (S fuel) parser =
  if peek parser lexer.SPREAD then parseFragment fuel parser
  else
    let* (field, parser) := parseField fuel parser in
    Ok (ast.Selection_of_Field field, parser).
Proof. reflexivity. Qed.

Lemma parseFragment_S fuel parser :
  parseFragment (S fuel) parser =
  let start := lexer.Token_Start (Token parser) in
  let* (_, parser) := expect parser lexer.SPREAD in
  if String.eqb (lexer.Token_Value (Token parser)) "on" then
    let parser := snd (advance parser) in
    let* (name, parser) := parseNamedType parser in
    let* (directives, parser) := parseDirectives fuel parser in
    let* (selectionSet, parser) := parseSelectionSet fuel parser in
    Ok (ast.Selection_InlineFragment kinds.InlineFragment
          (loc parser start) name directives selectionSet, parser)
  else
    let* (name, parser) := parseFragmentName parser in
    let* (directives, parser) := parseDirectives fuel parser in
    Ok (ast.Selection_FragmentSpread kinds.FragmentSpread
          (loc parser start) name directives, parser).
Proof. reflexivity. Qed.

Lemma parseField_S fuel parser :
  parseField (S fuel) parser =
  let start := lexer.Token_Start (Token parser) in
  let* (nameOrAlias, parser) := parseName parser in
  let '(isAlias, parser) := skip parser lexer.COLON in
  let* (names, parser) :=
    if isAlias then
      let* (n, parser) := parseName parser in
      Ok ((n, nameOrAlias), parser)
    else Ok ((nameOrAlias, ast.Name_zero), parser) in
  let '(name, alias) := names in
  let* (selectionSet, parser) :=
    if peek parser lexer.BRACE_L then parseSelectionSet fuel parser
    else Ok (ast.SelectionSet_zero, parser) in
  let* (arguments, parser) := parseArguments fuel parser in
  let* (directives, parser) := parseDirectives fuel parser in
  Ok ({| ast.Field_Kind := kinds.Field;
         ast.Field_Alias := alias;
         ast.Field_Name := name;
         ast.Field_Arguments := arguments;
         ast.Field_Directives := directives;
         ast.Field_SelectionSet := selectionSet;
         ast.Field_Loc := loc parser start |}, parser).
Proof. reflexivity. Qed.

Lemma parseType_S fuel parser :
  parseType (S fuel) parser =
  let start := lexer.Token_Start (Token parser) in
  let '(isList, parser) := skip parser lexer.BRACE_L in
  let* (ttype, parser) :=
    if isList then
      let* (t, parser) := parseType fuel parser in
      let* (_, parser) := expect parser lexer.BRACKET_R in
      Ok (ast.Type_ListType kinds.ListType (loc parser start) t, parser)
    else
      let* (name, parser) := parseNamedType parser in
      Ok (ast.Type_of_NamedType name, parser) in
  let '(isNonNull, parser) := skip parser lexer.BANG in
  if isNonNull then
    Ok (ast.Type_NonNullType kinds.NonNullType (loc parser start) ttype,
        parser)
  else Ok (ttype, parser).
Proof. reflexivity. Qed.


Lemma defined_le_refl {E A} (r : result E A) : r <<= r.
Proof. intros _. reflexivity. Qed.

Lemma defined_le_bot {E A} (r : result E A) : OutOfFuel <<= r.
Proof. intros H. contradiction H. reflexivity. Qed.

Lemma bind_le {E A B} (r r' : result E A) (k k' : A -> result E B) :
  r <<= r' -> (forall a, k a <<= k' a) -> bind r k <<= bind r' k'.
Proof.
  intros Hr Hk. destruct r as [a|e|msg|]; simpl.
  - rewrite Hr by discriminate. simpl. apply Hk.
  - rewrite Hr by discriminate. apply defined_le_refl.
  - rewrite Hr by discriminate. apply defined_le_refl.
  - apply defined_le_bot.
Qed.

(** Case analysis on a call that occurs on both sides with two fuels. *)
Ltac le_call H :=
  match type of H with
  | ?r <<= ?r' =>
      let a := fresh "a" in let q := fresh "q" in
      let e := fresh "e" in let msg := fresh "msg" in
      destruct r as [[a q]|e|msg|];
      [ rewrite (H ltac:(discriminate))
      | rewrite (H ltac:(discriminate)); try apply defined_le_refl
      | rewrite (H ltac:(discriminate)); try apply defined_le_refl
      | try apply defined_le_bot ]
  end.

Create HintDb fuel.

Ltac le_auto :=
  repeat first
    [ apply defined_le_refl
    | apply defined_le_bot
    | solve [ auto with fuel ]
    | apply bind_le; [ | intros [? ?] ]
    | match goal with
      | |- context [skip ?p ?k] => destruct (skip p k) as [[|] ?]
      | |- context [if peek ?p ?k then _ else _] => destruct (peek p k)
      | |- context [if negb (peek ?p ?k) then _ else _] =>
          destruct (peek p k); simpl negb; cbv iota
      | |- context [if String.eqb ?a ?b then _ else _] =>
          destruct (String.eqb a b)
      | |- context [match ?x with pair _ _ => _ end] => is_var x; destruct x
      end ].


Lemma parseType_le n : forall m p, (n <= m)%nat ->
  parseType n p <<= parseType m p.
Proof.
  induction n as [|n IH]; intros m p Hle; [apply defined_le_bot|].
  destruct m as [|m]; [lia|]. simpl.
  destruct (skip p lexer.BRACE_L) as [[|] p1].
  - apply bind_le; [|intros [t q]; apply defined_le_refl].
    apply bind_le; [apply IH; lia|]. intros [t q]. apply defined_le_refl.
  - apply defined_le_refl.
Qed.
#[global] Hint Resolve parseType_le : fuel.

Lemma many_loop_le {A} (f g : parseFn A) :
  (forall p, f p <<= g p) ->
  forall n m, (n <= m)%nat -> forall p c nodes,
    many_loop n p f c nodes <<= many_loop m p g c nodes.
Proof.
  intros Hfg. induction n as [|n IH]; intros m Hle p c nodes;
    [apply defined_le_bot|].
  destruct m as [|m]; [lia|]. simpl.
  destruct (skip p c) as [[|] p1]; [apply defined_le_refl|].
  pose proof (Hfg p1) as H. le_call H. apply IH. lia.
Qed.
#[global] Hint Resolve many_loop_le : fuel.

Lemma many_le {A} (f g : parseFn A) :
  (forall p, f p <<= g p) ->
  forall n m, (n <= m)%nat -> forall p o c,
    many n p o f c <<= many m p o g c.
Proof.
  intros Hfg n m Hle p o c. unfold many.
  destruct (expect p o) as [[t p1]|e|msg|]; try apply defined_le_refl.
  pose proof (Hfg p1) as H. le_call H. apply many_loop_le; assumption.
Qed.
#[global] Hint Resolve many_le : fuel.

Lemma any_loop_le {A} (f g : parseFn A) :
  (forall p, f p <<= g p) ->
  forall n m, (n <= m)%nat -> forall p c nodes,
    any_loop n p f c nodes <<= any_loop m p g c nodes.
Proof.
  intros Hfg. induction n as [|n IH]; intros m Hle p c nodes;
    [apply defined_le_bot|].
  destruct m as [|m]; [lia|]. simpl.
  destruct (skip p c) as [[|] p1]; [apply defined_le_refl|].
  pose proof (Hfg p1) as H. le_call H. apply IH. lia.
Qed.
#[global] Hint Resolve any_loop_le : fuel.

Lemma any_le {A} (f g : parseFn A) :
  (forall p, f p <<= g p) ->
  forall n m, (n <= m)%nat -> forall p o c,
    any n p o f c <<= any m p o g c.
Proof.
  intros Hfg n m Hle p o c. unfold any.
  destruct (expect p o) as [[t p1]|e|msg|]; try apply defined_le_refl.
  apply any_loop_le; assumption.
Qed.
#[global] Hint Resolve any_le : fuel.

Lemma value_group_le n : forall m, (n <= m)%nat ->
  (forall p c, parseValue n p c <<= parseValue m p c)
  /\ (forall p c, parseArray n p c <<= parseArray m p c)
  /\ (forall p, parseConstValue n p <<= parseConstValue m p)
  /\ (forall p, parseVariableValue n p <<= parseVariableValue m p).
Proof.
  induction n as [|n IH]; intros m Hle.
  { repeat split; intros; apply defined_le_bot. }
  destruct m as [|m]; [lia|].
  destruct (IH m ltac:(lia)) as (IHv & IHa & IHc & IHw).
  repeat split; intros;
    rewrite ?parseValue_S, ?parseArray_S, ?parseConstValue_S,
      ?parseVariableValue_S.
  - destruct (lexer.Token_Kind (Token p)); try apply defined_le_refl.
    apply bind_le; [apply IHa|]. intros [v q]. apply defined_le_refl.
  - assert (H : any n p lexer.BRACE_L
                  (if c then parseConstValue n else parseVariableValue n)
                  lexer.BRACKET_R
                <<= any m p lexer.BRACE_L
                  (if c then parseConstValue m else parseVariableValue m)
                  lexer.BRACKET_R).
    { apply any_le; [|lia]. destruct c; assumption. }
    le_call H; apply defined_le_refl.
  - apply IHv.
  - apply IHv.
Qed.

Lemma parseValue_le n m p c : (n <= m)%nat ->
  parseValue n p c <<= parseValue m p c.
Proof. intros H. apply (value_group_le n m H). Qed.
#[global] Hint Resolve parseValue_le : fuel.

Lemma parseDirective_le n m p : (n <= m)%nat ->
  parseDirective n p <<= parseDirective m p.
Proof. intros Hle. unfold parseDirective. le_auto. Qed.
#[global] Hint Resolve parseDirective_le : fuel.

Lemma parseDirectives_loop_le n : forall m p ds, (n <= m)%nat ->
  parseDirectives_loop n p ds <<= parseDirectives_loop m p ds.
Proof.
  induction n as [|n IH]; intros m p ds Hle; [apply defined_le_bot|].
  destruct m as [|m]; [lia|]. assert (Hnm : (n <= m)%nat) by lia.
  simpl. le_auto.
Qed.
#[global] Hint Resolve parseDirectives_loop_le : fuel.

Lemma parseDirectives_le n m p : (n <= m)%nat ->
  parseDirectives n p <<= parseDirectives m p.
Proof. apply parseDirectives_loop_le. Qed.
#[global] Hint Resolve parseDirectives_le : fuel.

Lemma parseArgument_le n m p : (n <= m)%nat ->
  parseArgument n p <<= parseArgument m p.
Proof. intros Hle. unfold parseArgument. le_auto. Qed.
#[global] Hint Resolve parseArgument_le : fuel.

Lemma parseArguments_le n m p : (n <= m)%nat ->
  parseArguments n p <<= parseArguments m p.
Proof.
  intros Hle. unfold parseArguments.
  destruct (peek p lexer.PAREN_L); [|apply defined_le_refl].
  assert (H : many n p lexer.PAREN_L (parseArgument n) lexer.PAREN_R
              <<= many m p lexer.PAREN_L (parseArgument m) lexer.PAREN_R)
    by auto with fuel.
  le_call H; apply defined_le_refl.
Qed.
#[global] Hint Resolve parseArguments_le : fuel.

Lemma parseVariableDefinition_le n m p : (n <= m)%nat ->
  parseVariableDefinition n p <<= parseVariableDefinition m p.
Proof. intros Hle. unfold parseVariableDefinition. le_auto. Qed.
#[global] Hint Resolve parseVariableDefinition_le : fuel.

Lemma parseVariableDefinitions_le n m p : (n <= m)%nat ->
  parseVariableDefinitions n p <<= parseVariableDefinitions m p.
Proof.
  intros Hle. unfold parseVariableDefinitions.
  destruct (peek p lexer.PAREN_L); [|apply defined_le_refl].
  assert (H : many n p lexer.PAREN_L (parseVariableDefinition n)
                   lexer.PAREN_R
              <<= many m p lexer.PAREN_L (parseVariableDefinition m)
                   lexer.PAREN_R) by auto with fuel.
  le_call H; apply defined_le_refl.
Qed.
#[global] Hint Resolve parseVariableDefinitions_le : fuel.

Lemma selection_group_le n : forall m, (n <= m)%nat ->
  (forall p, parseSelectionSet n p <<= parseSelectionSet m p)
  /\ (forall p, parseSelection n p <<= parseSelection m p)
  /\ (forall p, parseFragment n p <<= parseFragment m p)
  /\ (forall p, parseField n p <<= parseField m p).
Proof.
  induction n as [|n IH]; intros m Hle.
  { repeat split; intros; apply defined_le_bot. }
  destruct m as [|m]; [lia|].
  assert (Hnm : (n <= m)%nat) by lia.
  destruct (IH m Hnm) as (IHs & IHsel & IHfr & IHf).
  repeat split; intros;
    rewrite ?parseSelectionSet_S, ?parseSelection_S, ?parseFragment_S,
      ?parseField_S; cbv zeta.
  - assert (H : many n p lexer.BRACE_L (parseSelection n) lexer.BRACE_R
                <<= many m p lexer.BRACE_L (parseSelection m)
                      lexer.BRACE_R) by auto with fuel.
    le_call H; apply defined_le_refl.
  - le_auto.
  - le_auto.
  - le_auto.
Qed.

Lemma parseSelectionSet_le n m p : (n <= m)%nat ->
  parseSelectionSet n p <<= parseSelectionSet m p.
Proof. intros H. apply (selection_group_le n m H). Qed.
#[global] Hint Resolve parseSelectionSet_le : fuel.

Lemma parseOperationDefinition_le n m p : (n <= m)%nat ->
  parseOperationDefinition n p <<= parseOperationDefinition m p.
Proof. intros Hle. unfold parseOperationDefinition. le_auto. Qed.
#[global] Hint Resolve parseOperationDefinition_le : fuel.

Lemma parseFragmentDefinition_le n m p : (n <= m)%nat ->
  parseFragmentDefinition n p <<= parseFragmentDefinition m p.
Proof. intros Hle. unfold parseFragmentDefinition. le_auto. Qed.
#[global] Hint Resolve parseFragmentDefinition_le : fuel.

Lemma parseDocument_loop_le n : forall m p ds, (n <= m)%nat ->
  parseDocument_loop n p ds <<= parseDocument_loop m p ds.
Proof.
  induction n as [|n IH]; intros m p ds Hle; [apply defined_le_bot|].
  destruct m as [|m]; [lia|]. simpl.
  assert (Hnm : (n <= m)%nat) by lia.
  destruct (skip p lexer.EOF) as [[|] p1]; [apply defined_le_refl|].
  destruct (peek p1 lexer.BRACE_L); [le_auto|].
  destruct (peek p1 lexer.NAME); [|apply defined_le_refl].
  destruct (_ || _)%bool; [le_auto|].
  destruct (String.eqb _ _); le_auto.
Qed.
#[global] Hint Resolve parseDocument_loop_le : fuel.

Lemma parseDocument_le n m p : (n <= m)%nat ->
  parseDocument n p <<= parseDocument m p.
Proof. intros Hle. unfold parseDocument. le_auto. Qed.
#[global] Hint Resolve parseDocument_le : fuel.

Lemma Parse_le Lex n m params : (n <= m)%nat ->
  Parse Lex n params <<= Parse Lex m params.
Proof.
  intros Hle. unfold Parse.
  apply bind_le; [apply defined_le_refl|]. intros q. le_auto.
Qed.

(** A result obtained with some fuel is the result with any larger one. *)
Lemma Parse_fuel Lex n params r :
  Parse Lex n params = r -> r <> OutOfFuel ->
  forall m, (n <= m)%nat -> Parse Lex m params = r.
Proof.
  intros H Hr m Hle. subst r. apply (Parse_le Lex n m params Hle Hr).
Qed.

(* ------------------------------------------------------------------ *)
(** ** Type references *)

(** With a [[] as the current token [parseType] takes the named-type
    branch, where [parseName] rejects the bracket. *)
Lemma parseType_at_bracket fuel p :
  lexer.Token_Kind (Token p) = lexer.BRACKET_L ->
  parseType (S fuel) p =
  Err (graphqlerrors.SyntaxError (Source p) (lexer.Token_Start (Token p))
         ("Expected Name, found " +++ lexer.GetTokenDesc (Token p))).
Proof.
  intros H. rewrite parseType_S. unfold skip. rewrite H. simpl.
  unfold parseNamedType, parseName, expect. rewrite H. reflexivity.
Qed.

(** The wrapping order that the source builds, on the opening token it
    tests for: a brace. *)
Lemma parseType_brace_wraps fuel :
  (exists l1 l2 l3 n,
      runOn (parseType (S (S fuel))) "{Int]!" defaultOptions =
      Ok (ast.Type_NonNullType kinds.NonNullType l1
            (ast.Type_ListType kinds.ListType l2
               (ast.Type_NamedType kinds.NamedType l3 n ast.Type_nil)))
      /\ ast.Name_Value n = "Int"%string)
  /\ (exists l1 l2 l3 n,
      runOn (parseType (S (S fuel))) "{Int!]" defaultOptions =
      Ok (ast.Type_ListType kinds.ListType l1
            (ast.Type_NonNullType kinds.NonNullType l2
               (ast.Type_NamedType kinds.NamedType l3 n ast.Type_nil)))
      /\ ast.Name_Value n = "Int"%string).
Proof.
  split; do 4 eexists; split; solve [vm_compute; reflexivity].
Qed.

(** C1. The spec has [parseType] open a list type on the token [[]: the
    text [[Int]!] should give NonNullType(ListType(NamedType Int)) and
    [[Int!]] should give ListType(NonNullType(NamedType Int)).  The
    source tests for the brace token instead, so both texts are rejected
    at offset 0 with "Expected Name, found [", whatever the fuel and the
    options. *)
Theorem parseType_bracket_texts_rejected :
  forall fuel opts,
    runOn (parseType (S fuel)) "[Int]!" opts =
    Err (graphqlerrors.SyntaxError
           (source.NewSource "[Int]!" EmptyString) 0
           "Expected Name, found [")
    /\ runOn (parseType (S fuel)) "[Int!]" opts =
       Err (graphqlerrors.SyntaxError
              (source.NewSource "[Int!]" EmptyString) 0
              "Expected Name, found [").
Proof.
  intros fuel opts. unfold runOn.
  split.
  - change (makeParser lexer.Lex (source.NewSource "[Int]!" EmptyString) opts)
      with (Ok (E := graphqlerrors.error)
               {| LexToken := lexer.Lex (source.NewSource "[Int]!" EmptyString);
                  Source := source.NewSource "[Int]!" EmptyString;
                  Options := opts; PrevEnd := 0;
                  Token := lexer.makeToken lexer.BRACKET_L 0 1 EmptyString |}).
    cbn [bind]. rewrite parseType_at_bracket by reflexivity. reflexivity.
  - change (makeParser lexer.Lex (source.NewSource "[Int!]" EmptyString) opts)
      with (Ok (E := graphqlerrors.error)
               {| LexToken := lexer.Lex (source.NewSource "[Int!]" EmptyString);
                  Source := source.NewSource "[Int!]" EmptyString;
                  Options := opts; PrevEnd := 0;
                  Token := lexer.makeToken lexer.BRACKET_L 0 1 EmptyString |}).
    cbn [bind]. rewrite parseType_at_bracket by reflexivity. reflexivity.
Qed.

(* ------------------------------------------------------------------ *)
(** ** Values *)

(** C3. The spec has [parseValue] recognise one token kind, the
    list-open token [[], and reject every other kind as unexpected.  The
    source recognises one kind too, but it is the brace: every other
    kind, the bracket [[] and the scalar literals among them, is
    rejected with "Unexpected <token>" at the token's start, so the
    text [[]] is rejected and the text [{]] is the empty array. *)
Theorem parseValue_dispatch :
  forall fuel p isConst,
    parseValue (S fuel) p isConst =
    (if lexer.TokenKind_beq (lexer.Token_Kind (Token p)) lexer.BRACE_L
     then
       let* (value, p') := parseArray fuel p isConst in
       Ok (ast.Value_of_ArrayValue value, p')
     else
       Err (graphqlerrors.SyntaxError (Source p)
              (lexer.Token_Start (Token p))
              ("Unexpected " +++ lexer.GetTokenDesc (Token p))))
    /\ runOn (fun q => parseValue (S fuel) q isConst) "[]" defaultOptions =
       Err (graphqlerrors.SyntaxError (source.NewSource "[]" EmptyString) 0
              "Unexpected [")
    /\ runOn (fun q => parseValue (S (S (S fuel))) q isConst) "{]"
             defaultOptions =
       Ok (ast.Value_ArrayValue kinds.Array
             {| ast.Loc_Start := 0; ast.Loc_End := 2;
                ast.Loc_Source := Some (source.NewSource "{]" EmptyString) |}
             []).
Proof.
  intros fuel p isConst. split; [|split].
  - rewrite parseValue_S.
    destruct (lexer.Token_Kind (Token p)); reflexivity.
  - vm_compute. reflexivity.
  - destruct isConst; vm_compute; reflexivity.
Qed.

(* ------------------------------------------------------------------ *)
(** ** Fragment names *)

(** C8. [parseFragmentName] fails with the unexpected-token error, at
    the start of the current token, when that token's text is [on]; so
    the input [fragment on on User { id }] fails at offset 9, the start
    of the first [on]. *)
Theorem parseFragmentName_rejects_on :
  (forall p,
      lexer.Token_Value (Token p) = "on"%string ->
      parseFragmentName p =
      Err (graphqlerrors.SyntaxError (Source p) (lexer.Token_Start (Token p))
             ("Unexpected " +++ lexer.GetTokenDesc (Token p))))
  /\ (forall fuel opts,
         parseString (S fuel) "fragment on on User { id }" opts =
         Err (graphqlerrors.SyntaxError
                (source.NewSource "fragment on on User { id }" EmptyString) 9
                ("Unexpected Name " +++ dquote +++ "on" +++ dquote))).
Proof.
  split.
  - intros p H. unfold parseFragmentName. rewrite H. reflexivity.
  - intros fuel opts. unfold parseString.
    apply Parse_fuel with (n := 1%nat); [|discriminate|lia].
    vm_compute. reflexivity.
Qed.

Lemma parseFragmentName_rejects_on_witness :
  let s := source.NewSource "on on" EmptyString in
  let p := {| LexToken := lexer.Lex s; Source := s;
              Options := defaultOptions; PrevEnd := 0;
              Token := lexer.makeToken lexer.NAME 0 2 "on" |} in
  lexer.Token_Value (Token p) = "on"%string
  /\ parseFragmentName p =
     Err (graphqlerrors.SyntaxError s 0
            ("Unexpected Name " +++ dquote +++ "on" +++ dquote)).
Proof.
  split; [reflexivity|].
  apply (proj1 parseFragmentName_rejects_on). reflexivity.
Defined.

(* ------------------------------------------------------------------ *)
(** ** Variable definitions *)

(** C10. [parseVariableDefinition] looks for an optional [=] and then
    requires a [:], before the variable and its type.  With [$] as the
    current token it therefore fails with "Expected :, found $", and a
    variable-definition list that opens [($] is never accepted: the
    list fails with the same error, as does the whole document
    [query Q ($x: Int) { a }]. *)
Theorem parseVariableDefinition_at_dollar :
  (forall fuel p,
      lexer.Token_Kind (Token p) = lexer.DOLLAR ->
      lexer.Token_Value (Token p) = EmptyString ->
      parseVariableDefinition fuel p =
      Err (graphqlerrors.SyntaxError (Source p) (lexer.Token_Start (Token p))
             "Expected :, found $"))
  /\ (forall fuel p,
         lexer.Token_Kind (Token p) = lexer.PAREN_L ->
         lexer.Token_Kind (Token (snd (advance p))) = lexer.DOLLAR ->
         lexer.Token_Value (Token (snd (advance p))) = EmptyString ->
         parseVariableDefinitions fuel p =
         Err (graphqlerrors.SyntaxError (Source p)
                (lexer.Token_Start (Token (snd (advance p))))
                "Expected :, found $"))
  /\ (forall fuel opts,
         parseString (S fuel) "query Q ($x: Int) { a }" opts =
         Err (graphqlerrors.SyntaxError
                (source.NewSource "query Q ($x: Int) { a }" EmptyString) 9
                "Expected :, found $")).
Proof.
  assert (Hone : forall fuel p,
      lexer.Token_Kind (Token p) = lexer.DOLLAR ->
      lexer.Token_Value (Token p) = EmptyString ->
      parseVariableDefinition fuel p =
      Err (graphqlerrors.SyntaxError (Source p) (lexer.Token_Start (Token p))
             "Expected :, found $")).
  { intros fuel p Hk Hv. unfold parseVariableDefinition, skip, expect.
    rewrite Hk. simpl. unfold lexer.GetTokenDesc. rewrite Hv, Hk.
    reflexivity. }
  split; [exact Hone|split].
  - intros fuel p Hk Hk' Hv'. unfold parseVariableDefinitions, peek.
    rewrite Hk. simpl. unfold many, expect. rewrite Hk. simpl.
    rewrite (Hone fuel _ Hk' Hv'). simpl.
    unfold advance. destruct (LexToken _ _); reflexivity.
  - intros fuel opts. unfold parseString.
    apply Parse_fuel with (n := 1%nat); [|discriminate|lia].
    vm_compute. reflexivity.
Qed.

Lemma parseVariableDefinition_at_dollar_witness :
  let s := source.NewSource "($x: Int)" EmptyString in
  let p := {| LexToken := lexer.Lex s; Source := s;
              Options := defaultOptions; PrevEnd := 0;
              Token := lexer.makeToken lexer.PAREN_L 0 1 EmptyString |} in
  (lexer.Token_Kind (Token (snd (advance p))) = lexer.DOLLAR
   /\ lexer.Token_Value (Token (snd (advance p))) = EmptyString)
  /\ parseVariableDefinition 0 (snd (advance p)) =
     Err (graphqlerrors.SyntaxError s 1 "Expected :, found $")
  /\ parseVariableDefinitions 0 p =
     Err (graphqlerrors.SyntaxError s 1 "Expected :, found $").
Proof.
  split; [split; reflexivity|]. split.
  - apply (proj1 parseVariableDefinition_at_dollar); reflexivity.
  - apply (proj1 (proj2 parseVariableDefinition_at_dollar)); reflexivity.
Defined.

(* ------------------------------------------------------------------ *)
(** ** Selection sets *)

Lemma many_loop_extends {A} (f : parseFn A) fuel :
  forall p c nodes nodes' p',
    many_loop fuel p f c nodes = Ok (nodes', p') ->
    exists rest, nodes' = (nodes ++ rest)%list.
Proof.
  induction fuel as [|fuel IH]; intros p c nodes nodes' p' H;
    [discriminate|].
  simpl in H. destruct (skip p c) as [[|] p1].
  - inversion H; subst. exists []. rewrite app_nil_r. reflexivity.
  - destruct (f p1) as [[node p2]|e|msg|]; try discriminate.
    destruct (IH _ _ _ _ _ H) as [rest Hrest].
    exists (node :: rest). rewrite Hrest, <- app_assoc. reflexivity.
Qed.

Lemma many_nonempty {A} (f : parseFn A) fuel p o c nodes p' :
  many fuel p o f c = Ok (nodes, p') -> nodes <> [].
Proof.
  unfold many. destruct (expect p o) as [[t p1]|e|msg|]; try discriminate.
  destruct (f p1) as [[node p2]|e|msg|]; try discriminate.
  intros H. destruct (many_loop_extends _ _ _ _ _ _ _ H) as [rest ->].
  discriminate.
Qed.

Lemma parseSelectionSet_nonempty fuel p ss p' :
  parseSelectionSet fuel p = Ok (ss, p') ->
  ast.SelectionSet_Selections ss <> [].
Proof.
  destruct fuel as [|fuel]; [discriminate|]. rewrite parseSelectionSet_S.
  destruct (many _ _ _ _ _) as [[sels q]|[sels e]|msg|] eqn:Hm;
    try discriminate.
  intros H. inversion H; subst. simpl.
  eapply many_nonempty. eassumption.
Qed.

(** C4, as the code has it.  [many] takes one item before it looks for
    the close token, so a selection set that parses is never empty, and
    a selection set that closes at once fails with "Expected Name,
    found }" at the closing brace; the inputs [{ }] and [query Q { }]
    fail so.  (The input [query { }] fails before its selection set is
    reached, see the counterexample.) *)
Theorem selection_set_never_empty :
  (forall A (f : parseFn A) fuel p o c nodes p',
      many fuel p o f c = Ok (nodes, p') -> nodes <> [])
  /\ (forall fuel p ss p',
         parseSelectionSet fuel p = Ok (ss, p') ->
         ast.SelectionSet_Selections ss <> [])
  /\ (forall fuel p,
         lexer.Token_Kind (Token p) = lexer.BRACE_L ->
         lexer.Token_Kind (Token (snd (advance p))) = lexer.BRACE_R ->
         lexer.Token_Value (Token (snd (advance p))) = EmptyString ->
         parseSelectionSet (S (S (S fuel))) p =
         Err (graphqlerrors.SyntaxError (Source p)
                (lexer.Token_Start (Token (snd (advance p))))
                "Expected Name, found }"))
  /\ (forall fuel,
         parseString (S (S (S (S fuel)))) "{ }" defaultOptions =
         Err (graphqlerrors.SyntaxError (source.NewSource "{ }" EmptyString)
                2 "Expected Name, found }"))
  /\ (forall fuel,
         parseString (S (S (S (S fuel)))) "query Q { }" defaultOptions =
         Err (graphqlerrors.SyntaxError
                (source.NewSource "query Q { }" EmptyString)
                10 "Expected Name, found }"))
  /\ error_names lexer.BRACE_R
       (graphqlerrors.SyntaxError (source.NewSource "{ }" EmptyString)
          2 "Expected Name, found }") = true.
Proof.
  split; [|split; [|split; [|split; [|split]]]].
  - intros A f fuel p o c nodes p'. apply many_nonempty.
  - apply parseSelectionSet_nonempty.
  - intros fuel p Hk Hk' Hv'. rewrite parseSelectionSet_S.
    unfold many. rewrite (expect_ok _ _ Hk).
    rewrite parseSelection_S, peek_false by (rewrite Hk'; discriminate).
    rewrite parseField_S. cbv zeta. unfold parseName.
    rewrite expect_fail by (rewrite Hk'; discriminate).
    unfold lexer.GetTokenDesc. rewrite Hv', Hk', advance_Source.
    reflexivity.
  - intros fuel. unfold parseString.
    apply Parse_fuel with (n := 4%nat); [|discriminate|lia].
    vm_compute. reflexivity.
  - intros fuel. unfold parseString.
    apply Parse_fuel with (n := 4%nat); [|discriminate|lia].
    vm_compute. reflexivity.
  - vm_compute. reflexivity.
Qed.

Lemma selection_set_never_empty_witness :
  let s := source.NewSource "{ }" EmptyString in
  let p := {| LexToken := lexer.Lex s; Source := s;
              Options := defaultOptions; PrevEnd := 0;
              Token := lexer.makeToken lexer.BRACE_L 0 1 EmptyString |} in
  (lexer.Token_Kind (Token p) = lexer.BRACE_L
   /\ lexer.Token_Kind (Token (snd (advance p))) = lexer.BRACE_R
   /\ lexer.Token_Value (Token (snd (advance p))) = EmptyString)
  /\ parseSelectionSet 3 p =
     Err (graphqlerrors.SyntaxError s 2 "Expected Name, found }")
  /\ (forall sels q,
         many 3 p lexer.BRACE_L (parseSelection 3) lexer.BRACE_R
         = Ok (sels, q) -> sels <> []).
Proof.
  split; [repeat split|split].
  - apply (proj1 (proj2 (proj2 selection_set_never_empty)) 0%nat);
      reflexivity.
  - intros sels q H.
    exact (proj1 selection_set_never_empty _ _ _ _ _ _ _ _ H).
Defined.

(** C4 as stated fails on its own example: [query { }] is rejected at
    offset 6, the opening brace, because a name must follow the
    operation keyword; the error names the opening brace, not the
    closing one. *)
Lemma query_without_name_counterexample :
  (forall fuel,
      parseString (S fuel) "query { }" defaultOptions =
      Err (graphqlerrors.SyntaxError
             (source.NewSource "query { }" EmptyString)
             6 "Expected Name, found {"))
  /\ error_names lexer.BRACE_R
       (graphqlerrors.SyntaxError
          (source.NewSource "query { }" EmptyString)
          6 "Expected Name, found {") = false
  /\ error_names lexer.BRACE_L
       (graphqlerrors.SyntaxError
          (source.NewSource "query { }" EmptyString)
          6 "Expected Name, found {") = true.
Proof.
  split; [|split; vm_compute; reflexivity].
  intros fuel. unfold parseString.
  apply Parse_fuel with (n := 1%nat); [|discriminate|lia].
  vm_compute. reflexivity.
Qed.

(* ------------------------------------------------------------------ *)
(** ** The anonymous query *)

Lemma parseDocument_loop_extends fuel :
  forall p ds ds' p',
    parseDocument_loop fuel p ds = Ok (ds', p') ->
    exists rest, ds' = (ds ++ rest)%list.
Proof.
  induction fuel as [|fuel IH]; intros p ds ds' p' H; [discriminate|].
  simpl in H. destruct (skip p lexer.EOF) as [[|] p1].
  { inversion H; subst. exists []. rewrite app_nil_r. reflexivity. }
  assert (Hstep : forall d q,
             parseDocument_loop fuel q (ds ++ [d]) = Ok (ds', p') ->
             exists rest, ds' = (ds ++ rest)%list).
  { intros d q Hq. destruct (IH _ _ _ _ Hq) as [rest ->].
    exists (d :: rest). rewrite <- app_assoc. reflexivity. }
  destruct (peek p1 lexer.BRACE_L).
  { destruct (parseOperationDefinition fuel p1) as [[o q]|e|msg|];
      try discriminate. eapply Hstep; eassumption. }
  destruct (peek p1 lexer.NAME); [|discriminate].
  destruct (_ || _)%bool.
  { destruct (parseOperationDefinition fuel p1) as [[o q]|e|msg|];
      try discriminate. eapply Hstep; eassumption. }
  destruct (String.eqb _ _); [|discriminate].
  destruct (parseFragmentDefinition fuel p1) as [[o q]|e|msg|];
    try discriminate. eapply Hstep; eassumption.
Qed.

(** The value and the final state of a call that returns, seen through
    a function of both. *)
Lemma returns_with {A B} (g : A * Parser -> B) (r : fallible A) b :
  mapResult g r = Ok b -> exists a q, r = Ok (a, q) /\ g (a, q) = b.
Proof.
  destruct r as [[a q]|?|?|]; try discriminate.
  cbn. intros H. inversion H; subst. exists a, q. split; reflexivity.
Qed.

(** C5. When the first token is a bare [{], the operation definition
    parsed there is what the selection set parsed at that [{] gives: if
    [parseSelectionSet] returns a selection set, the definition is the
    operation [query] with the zero name, no variable definitions, no
    directives and that selection set; if [parseSelectionSet] fails,
    panics or never returns, so does [Parse].  The document holds that
    one definition and nothing else when the end of the input follows
    the selection set; a document that is returned when more input
    follows holds further definitions after it.  The input
    [{ hero { name } }] gives exactly one such definition, with the
    field [hero] that holds a selection set with the field [name]. *)
Theorem anonymous_query_shorthand :
  (forall fuel p,
      lexer.Token_Kind (Token p) = lexer.BRACE_L ->
      parseOperationDefinition fuel p
      = let* (selectionSet, q) := parseSelectionSet fuel p in
        Ok (anonymousQuery selectionSet
              (loc q (lexer.Token_Start (Token p))), q))
  /\ (forall Lex fuel more src opts p0 selectionSet q,
         makeParser Lex src opts = Ok p0 ->
         lexer.Token_Kind (Token p0) = lexer.BRACE_L ->
         parseSelectionSet fuel p0 = Ok (selectionSet, q) ->
         lexer.Token_Kind (Token q) = lexer.EOF ->
         Parse Lex (S fuel + more)
               {| Params_Source := SourceObj src; Params_Options := opts |}
         = Ok {| ast.Document_Kind := kinds.Document;
                 ast.Document_Loc :=
                   loc (snd (advance q)) (lexer.Token_Start (Token p0));
                 ast.Document_Definitions :=
                   [ast.Definition_Operation
                      (anonymousQuery selectionSet
                         (loc q (lexer.Token_Start (Token p0))))] |})
  /\ (forall Lex fuel more src opts p0,
         makeParser Lex src opts = Ok p0 ->
         lexer.Token_Kind (Token p0) = lexer.BRACE_L ->
         (forall e,
             parseSelectionSet fuel p0 = Err e ->
             Parse Lex (S fuel + more)
                   {| Params_Source := SourceObj src;
                      Params_Options := opts |} = Err e)
         /\ (forall msg,
                parseSelectionSet fuel p0 = Panic msg ->
                Parse Lex (S fuel + more)
                      {| Params_Source := SourceObj src;
                         Params_Options := opts |} = Panic msg))
  /\ (forall Lex src opts p0,
         makeParser Lex src opts = Ok p0 ->
         lexer.Token_Kind (Token p0) = lexer.BRACE_L ->
         (forall fuel, parseSelectionSet fuel p0 = OutOfFuel) ->
         forall fuel,
           Parse Lex fuel {| Params_Source := SourceObj src;
                             Params_Options := opts |} = OutOfFuel)
  /\ (forall Lex fuel src opts p0 doc,
         makeParser Lex src opts = Ok p0 ->
         lexer.Token_Kind (Token p0) = lexer.BRACE_L ->
         Parse Lex fuel {| Params_Source := SourceObj src;
                           Params_Options := opts |} = Ok doc ->
         exists selectionSet q rest,
           parseSelectionSet (pred fuel) p0 = Ok (selectionSet, q)
           /\ ast.Document_Definitions doc
              = ast.Definition_Operation
                  (anonymousQuery selectionSet
                     (loc q (lexer.Token_Start (Token p0)))) :: rest)
  /\ (forall fuel,
         parseString (10 + fuel) "{ hero { name } }" defaultOptions
         = Ok hero_document)
  /\ anonymous_query_document hero_document.
Proof.
  assert (Hop : forall fuel p,
      lexer.Token_Kind (Token p) = lexer.BRACE_L ->
      parseOperationDefinition fuel p
      = let* (selectionSet, q) := parseSelectionSet fuel p in
        Ok (anonymousQuery selectionSet
              (loc q (lexer.Token_Start (Token p))), q)).
  { intros fuel p Hk. unfold parseOperationDefinition.
    rewrite (peek_true _ _ Hk).
    destruct (parseSelectionSet fuel p) as [[ss q]|e|msg|]; reflexivity. }
  assert (Hdoc : forall Lex fuel src opts p0,
      makeParser Lex src opts = Ok p0 ->
      lexer.Token_Kind (Token p0) = lexer.BRACE_L ->
      Parse Lex (S fuel)
            {| Params_Source := SourceObj src; Params_Options := opts |}
      = let* (selectionSet, q) := parseSelectionSet fuel p0 in
        let* (definitions, q') :=
          parseDocument_loop fuel q
            [ast.Definition_Operation
               (anonymousQuery selectionSet
                  (loc q (lexer.Token_Start (Token p0))))] in
        Ok {| ast.Document_Kind := kinds.Document;
              ast.Document_Loc := loc q' (lexer.Token_Start (Token p0));
              ast.Document_Definitions := definitions |}).
  { intros Lex fuel src opts p0 Hmk Hk. unfold Parse.
    cbn [Params_Source Params_Options]. rewrite Hmk. cbn [bind].
    unfold parseDocument. simpl parseDocument_loop.
    rewrite skip_false by (rewrite Hk; discriminate).
    rewrite (peek_true _ _ Hk), (Hop _ _ Hk).
    destruct (parseSelectionSet fuel p0) as [[ss q]|e|msg|];
      try reflexivity.
    cbn [bind app].
    destruct (parseDocument_loop fuel q _) as [[ds q']|e|msg|];
      reflexivity. }
  split; [exact Hop|]. split; [|split; [|split; [|split; [|split]]]].
  - intros Lex fuel more src opts p0 ss q Hmk Hk E Heof.
    apply Parse_fuel with (n := S fuel); [|discriminate|lia].
    rewrite (Hdoc _ _ _ _ _ Hmk Hk), E. cbn [bind].
    destruct fuel as [|fuel]; [discriminate E|].
    simpl parseDocument_loop. rewrite (skip_true _ _ Heof). reflexivity.
  - intros Lex fuel more src opts p0 Hmk Hk. split.
    + intros e E. apply Parse_fuel with (n := S fuel); [|discriminate|lia].
      rewrite (Hdoc _ _ _ _ _ Hmk Hk), E. reflexivity.
    + intros msg E.
      apply Parse_fuel with (n := S fuel); [|discriminate|lia].
      rewrite (Hdoc _ _ _ _ _ Hmk Hk), E. reflexivity.
  - intros Lex src opts p0 Hmk Hk Hnever fuel.
    destruct fuel as [|fuel].
    + unfold Parse. cbn [Params_Source Params_Options]. rewrite Hmk.
      reflexivity.
    + rewrite (Hdoc _ _ _ _ _ Hmk Hk), Hnever. reflexivity.
  - intros Lex fuel src opts p0 doc Hmk Hk H.
    destruct fuel as [|fuel].
    { unfold Parse in H. cbn [Params_Source Params_Options] in H.
      rewrite Hmk in H. discriminate H. }
    rewrite (Hdoc _ _ _ _ _ Hmk Hk) in H. cbn [pred].
    destruct (parseSelectionSet fuel p0) as [[ss q]|e|msg|];
      try discriminate H.
    cbn [bind] in H.
    destruct (parseDocument_loop fuel q _) as [[ds q']|e|msg|] eqn:Hloop;
      try discriminate H.
    cbn [bind] in H. inversion H; subst doc; clear H.
    destruct (parseDocument_loop_extends _ _ _ _ _ Hloop) as [rest ->].
    exists ss, q, rest. split; reflexivity.
  - intros fuel. unfold parseString.
    apply Parse_fuel with (n := 10%nat); [|discriminate|lia].
    vm_compute. reflexivity.
  - eexists _, _. reflexivity.
Qed.

Lemma anonymous_query_shorthand_witness :
  let p0 := {| LexToken := lexer.Lex hero_source; Source := hero_source;
               Options := defaultOptions; PrevEnd := 0;
               Token := lexer.makeToken lexer.BRACE_L 0 1 EmptyString |} in
  exists selectionSet q,
    parseSelectionSet 9 p0 = Ok (selectionSet, q)
    /\ lexer.Token_Kind (Token q) = lexer.EOF
    /\ Parse lexer.Lex 10 {| Params_Source := SourceObj hero_source;
                             Params_Options := defaultOptions |}
       = Ok {| ast.Document_Kind := kinds.Document;
               ast.Document_Loc := loc (snd (advance q)) 0;
               ast.Document_Definitions :=
                 [ast.Definition_Operation
                    (anonymousQuery selectionSet (loc q 0))] |}.
Proof.
  intros p0.
  assert (R : mapResult (fun r => lexer.Token_Kind (Token (snd r)))
                        (parseSelectionSet 9 p0) = Ok lexer.EOF)
    by (vm_compute; reflexivity).
  destruct (returns_with _ _ _ R) as (ss & q & E & Heof).
  exists ss, q. split; [exact E|]. split; [exact Heof|].
  exact (proj1 (proj2 anonymous_query_shorthand) lexer.Lex 9%nat 0%nat
               hero_source defaultOptions p0 ss q eq_refl eq_refl E Heof).
Defined.

(** C5 as stated fails on inputs that begin with a bare [{]: [{ }] is
    rejected with a syntax error, [{ a(b: {]) }] panics in the copy loop
    of [parseArguments], and [{ a } { b }] gives a document with two
    definitions. *)
Lemma bare_brace_input_counterexample :
  let two := {| Params_Source := SourceString "{ a } { b }";
                Params_Options := defaultOptions |} in
  (forall fuel,
      parseString (4 + fuel) "{ }" defaultOptions
      = Err (graphqlerrors.SyntaxError
               (source.NewSource "{ }" EmptyString)
               2 "Expected Name, found }"))
  /\ (forall fuel,
         parseString (8 + fuel) "{ a(b: {]) }" defaultOptions
         = Panic "index out of range")
  /\ (exists doc,
         (forall fuel, Parse lexer.Lex (8 + fuel) two = Ok doc)
         /\ List.length (ast.Document_Definitions doc) = 2%nat
         /\ ~ anonymous_query_document doc).
Proof.
  intros two. split; [|split].
  - intros fuel. unfold parseString.
    apply Parse_fuel with (n := 4%nat); [|discriminate|lia].
    vm_compute. reflexivity.
  - intros fuel. unfold parseString.
    apply Parse_fuel with (n := 8%nat); [|discriminate|lia].
    vm_compute. reflexivity.
  - assert (R : mapResult
                  (fun d => List.length (ast.Document_Definitions d))
                  (Parse lexer.Lex 8 two) = Ok 2%nat)
      by (vm_compute; reflexivity).
    destruct (Parse lexer.Lex 8 two) as [doc|e|msg|] eqn:E;
      try discriminate R.
    cbn in R. injection R as Hlen. exists doc. split; [|split].
    + intros fuel.
      apply Parse_fuel with (n := 8%nat); [exact E|discriminate|lia].
    + exact Hlen.
    + intros (ss & l & Hd). rewrite Hd in Hlen. discriminate Hlen.
Qed.

(* ------------------------------------------------------------------ *)
(** ** Index assignment into an empty slice *)

Lemma range_assign_nil_panics {E A} (v : A) (rest : list A) :
  range_assign (E := E) [] 0 (v :: rest) = Panic "index out of range".
Proof. reflexivity. Qed.

Lemma range_assign_nonempty_panics {E A} (nodes : list A) :
  nodes <> [] ->
  range_assign (E := E) [] 0 nodes = Panic "index out of range".
Proof. destruct nodes; [congruence|reflexivity]. Qed.

Lemma many_ok_open {A} (f : parseFn A) fuel p o c (nodes : list A) p' :
  many fuel p o f c = Ok (nodes, p') -> peek p o = true.
Proof.
  unfold many, expect, peek.
  destruct (lexer.TokenKind_beq _ _); [reflexivity|discriminate].
Qed.

(** C2, as the code has it.  [parseArguments] and [parseArray] copy the
    items only when the combinator returned no error: then a non-empty
    item list is written by index into the empty destination and the
    call panics, so no argument list and no array with an item is ever
    returned; when the combinator returned an error, that error is
    returned and nothing is written.  [parseVariableDefinitions] copies
    before it looks at the error and panics on every non-empty item
    list, with or without an error. *)
Theorem index_assignment_panics :
  (forall fuel p nodes p',
      many fuel p lexer.PAREN_L (parseArgument fuel) lexer.PAREN_R
      = Ok (nodes, p') ->
      parseArguments fuel p = Panic "index out of range")
  /\ (forall fuel p nodes e,
         peek p lexer.PAREN_L = true ->
         many fuel p lexer.PAREN_L (parseArgument fuel) lexer.PAREN_R
         = Err (nodes, e) ->
         parseArguments fuel p = Err e)
  /\ (forall fuel p (isConst : bool) nodes p',
         nodes <> [] ->
         any fuel p lexer.BRACE_L
             (if isConst then parseConstValue fuel
              else parseVariableValue fuel) lexer.BRACKET_R
         = Ok (nodes, p') ->
         parseArray (S fuel) p isConst = Panic "index out of range")
  /\ (forall fuel p (isConst : bool) nodes e,
         any fuel p lexer.BRACE_L
             (if isConst then parseConstValue fuel
              else parseVariableValue fuel) lexer.BRACKET_R
         = Err (nodes, e) ->
         parseArray (S fuel) p isConst = Err e)
  /\ (forall fuel p nodes p',
         many fuel p lexer.PAREN_L (parseVariableDefinition fuel)
              lexer.PAREN_R = Ok (nodes, p') ->
         parseVariableDefinitions fuel p = Panic "index out of range")
  /\ (forall fuel p nodes e,
         peek p lexer.PAREN_L = true ->
         nodes <> [] ->
         many fuel p lexer.PAREN_L (parseVariableDefinition fuel)
              lexer.PAREN_R = Err (nodes, e) ->
         parseVariableDefinitions fuel p = Panic "index out of range")
  /\ (forall fuel opts,
         parseString (20 + fuel) "{ a(b: {]) }" opts
         = Panic "index out of range"
         /\ parseString (20 + fuel) "{ a @d: { {] ] }" opts
            = Panic "index out of range"
         /\ parseString (20 + fuel) "query Q (: $x Int) { a }" opts
            = Panic "index out of range"
         /\ parseString (20 + fuel) "query Q (: $x Int x" opts
            = Panic "index out of range").
Proof.
  repeat match goal with |- _ /\ _ => split end.
  - intros fuel p nodes p' H. unfold parseArguments.
    rewrite (many_ok_open _ _ _ _ _ _ _ H), H.
    rewrite range_assign_nonempty_panics; [reflexivity|].
    eapply many_nonempty; eassumption.
  - intros fuel p nodes e Hp H. unfold parseArguments.
    rewrite Hp, H. reflexivity.
  - intros fuel p isConst nodes p' Hne H. rewrite parseArray_S, H.
    rewrite range_assign_nonempty_panics by assumption. reflexivity.
  - intros fuel p isConst nodes e H. rewrite parseArray_S, H. reflexivity.
  - intros fuel p nodes p' H. unfold parseVariableDefinitions.
    rewrite (many_ok_open _ _ _ _ _ _ _ H), H.
    rewrite range_assign_nonempty_panics; [reflexivity|].
    eapply many_nonempty; eassumption.
  - intros fuel p nodes e Hp Hne H. unfold parseVariableDefinitions.
    rewrite Hp, H. rewrite range_assign_nonempty_panics by assumption.
    reflexivity.
  - intros fuel opts. unfold parseString.
    repeat split;
      (apply Parse_fuel with (n := 20%nat); [|discriminate|lia];
       destruct opts as [[|] [|]]; vm_compute; reflexivity).
Qed.

Lemma index_assignment_panics_witness :
  let s := source.NewSource "(b: {])" EmptyString in
  let p := {| LexToken := lexer.Lex s; Source := s;
              Options := defaultOptions; PrevEnd := 0;
              Token := lexer.makeToken lexer.PAREN_L 0 1 EmptyString |} in
  let s' := source.NewSource "{ {] ]" EmptyString in
  let p' := {| LexToken := lexer.Lex s'; Source := s';
               Options := defaultOptions; PrevEnd := 0;
               Token := lexer.makeToken lexer.BRACE_L 0 1 EmptyString |} in
  let s'' := source.NewSource "(: $x Int x" EmptyString in
  let p'' := {| LexToken := lexer.Lex s''; Source := s'';
                Options := defaultOptions; PrevEnd := 0;
                Token := lexer.makeToken lexer.PAREN_L 0 1 EmptyString |} in
  parseArguments 5 p = Panic "index out of range"
  /\ parseArray 6 p' false = Panic "index out of range"
  /\ parseVariableDefinitions 5 p'' = Panic "index out of range".
Proof.
  split; [|split].
  - eapply (proj1 index_assignment_panics). vm_compute. reflexivity.
  - eapply (proj1 (proj2 (proj2 index_assignment_panics)) 5%nat);
      [|vm_compute; reflexivity]. discriminate.
  - eapply (proj1 (proj2 (proj2 (proj2 (proj2 (proj2
              index_assignment_panics))))));
      [reflexivity| |vm_compute; reflexivity]. discriminate.
Defined.

(** C2 as stated fails when a later item of the list is rejected: on
    [(b: {] c], [many] hands the one argument it parsed back to
    [parseArguments] together with an error, and [parseArguments]
    returns that error without writing anything; the document
    [{ a(b: {] c] is rejected with a syntax error, with no panic. *)
Lemma argument_list_error_counterexample :
  let s := source.NewSource "(b: {] c" EmptyString in
  let p := {| LexToken := lexer.Lex s; Source := s;
              Options := defaultOptions; PrevEnd := 0;
              Token := lexer.makeToken lexer.PAREN_L 0 1 EmptyString |} in
  let e := graphqlerrors.SyntaxError s 8 "Expected :, found EOF" in
  makeParser lexer.Lex s defaultOptions = Ok p
  /\ (exists arg,
         many 5 p lexer.PAREN_L (parseArgument 5) lexer.PAREN_R
         = Err ([arg], e))
  /\ parseArguments 5 p = Err e
  /\ parseString 10 "{ a(b: {] c" defaultOptions
     = Err (graphqlerrors.SyntaxError
              (source.NewSource "{ a(b: {] c" EmptyString) 11
              "Expected :, found EOF").
Proof.
  cbv zeta. split; [reflexivity|]. split; [|split].
  - eexists. vm_compute. reflexivity.
  - vm_compute. reflexivity.
  - vm_compute. reflexivity.
Qed.

(* ------------------------------------------------------------------ *)
(** ** The location options

    The options are read by [loc] only, so a parse under other options
    takes the same steps as the default parse and builds the same tree
    with rewritten locations.  The rewriting [h] is left open here, and
    is instantiated for [NoLocation] and for [NoSource] below. *)

Section LocationOptions.

Variable o : ParseOptions.
Variable h : ast.Location -> ast.Location.
Hypothesis h_zero : h ast.Location_zero = ast.Location_zero.
Hypothesis h_loc :
  forall p1 p2 start, sim o p1 p2 -> loc p2 start = h (loc p1 start).

Notation relF ma := (rel o (fun e : graphqlerrors.error => e) ma).
Notation relL m := (rel o (mapItems m) (map m)).

Lemma sim_Token p1 p2 : sim o p1 p2 -> Token p2 = Token p1.
Proof. intros H. apply H. Qed.

Lemma sim_Source p1 p2 : sim o p1 p2 -> Source p2 = Source p1.
Proof. intros H. apply H. Qed.

Lemma sim_advance p1 p2 :
  sim o p1 p2 -> sim o (snd (advance p1)) (snd (advance p2)).
Proof.
  intros (HL & HS & HP & HT & H1 & H2). unfold advance.
  rewrite HL, HT. cbn [LexToken].
  destruct (LexToken p1 _); cbn; repeat split; auto.
Qed.

Lemma sim_skip p1 p2 k :
  sim o p1 p2 ->
  fst (skip p2 k) = fst (skip p1 k)
  /\ sim o (snd (skip p1 k)) (snd (skip p2 k)).
Proof.
  intros Hs. unfold skip. rewrite (sim_Token _ _ Hs).
  destruct (lexer.TokenKind_beq _ _); cbn; split; auto.
  apply sim_advance. assumption.
Qed.

Lemma sim_peek p1 p2 k : sim o p1 p2 -> peek p2 k = peek p1 k.
Proof. intros Hs. unfold peek. rewrite (sim_Token _ _ Hs). reflexivity. Qed.

Lemma sim_expect p1 p2 k :
  sim o p1 p2 -> relF (fun t => t) (expect p1 k) (expect p2 k).
Proof.
  intros Hs. unfold expect.
  rewrite (sim_Token _ _ Hs), (sim_Source _ _ Hs).
  destruct (lexer.TokenKind_beq _ _); cbn; [|reflexivity].
  split; [reflexivity|]. apply sim_advance. assumption.
Qed.

Lemma sim_expectKeyWord p1 p2 v :
  sim o p1 p2 ->
  relF (fun t => t) (expectKeyWord p1 v) (expectKeyWord p2 v).
Proof.
  intros Hs. unfold expectKeyWord.
  rewrite (sim_Token _ _ Hs), (sim_Source _ _ Hs).
  destruct (_ && _)%bool; cbn; [|reflexivity].
  split; [reflexivity|]. apply sim_advance. assumption.
Qed.

Lemma sim_unexpected p1 p2 t :
  sim o p1 p2 -> unexpected p2 t = unexpected p1 t.
Proof.
  intros Hs. unfold unexpected.
  rewrite (sim_Token _ _ Hs), (sim_Source _ _ Hs). reflexivity.
Qed.

Lemma rel_bind {A B} (ma : A -> A) (mb : B -> B)
      (r1 r2 : fallible A) (k1 k2 : A * Parser -> fallible B) :
  relF ma r1 r2 ->
  (forall a q1 q2, sim o q1 q2 -> relF mb (k1 (a, q1)) (k2 (ma a, q2))) ->
  relF mb (bind r1 k1) (bind r2 k2).
Proof.
  intros Hr Hk.
  destruct r1 as [[a1 q1]|e1|m1|], r2 as [[a2 q2]|e2|m2|]; cbn in *;
    try contradiction; try assumption.
  destruct Hr as [-> Hs]. apply Hk. assumption.
Qed.

Lemma rel_ret {A} (ma : A -> A) a1 a2 q1 q2 :
  a2 = ma a1 -> sim o q1 q2 ->
  relF ma (Ok (a1, q1)) (Ok (a2, q2)).
Proof. intros. split; assumption. Qed.

(** Case analysis on the two results of a call. *)
Ltac rel_call H :=
  match type of H with
  | rel _ _ _ ?r1 ?r2 =>
      let a1 := fresh "a" in let q1 := fresh "q" in
      let a2 := fresh "a" in let q2 := fresh "q" in
      let Hs := fresh "Hs" in
      destruct r1 as [[a1 q1]|?|?|], r2 as [[a2 q2]|?|?|];
      cbn in H; try contradiction;
      [ destruct H as [-> Hs] | subst | subst | ]
  end.

Ltac sim_skip_step :=
  match goal with
  | Hs : sim _ ?p1 ?p2 |- context [skip ?p1 ?k] =>
      let H := fresh "Hk" in
      let b := fresh "b" in let q1 := fresh "q" in let q2 := fresh "q" in
      pose proof (sim_skip p1 p2 k Hs) as H;
      destruct (skip p1 k) as [b q1], (skip p2 k) as [? q2];
      cbn [fst snd] in H; destruct H as [-> H]; destruct b
  end.

Ltac sim_peek_step :=
  match goal with
  | Hs : sim _ ?p1 ?p2 |- context [peek ?p2 ?k] =>
      rewrite (sim_peek p1 p2 k Hs); destruct (peek p1 k)
  end.

Lemma sim_parseName p1 p2 :
  sim o p1 p2 -> relF (mapName h) (parseName p1) (parseName p2).
Proof.
  intros Hs. unfold parseName.
  eapply rel_bind; [apply sim_expect; assumption|].
  intros t q1 q2 Hq. apply rel_ret; [|assumption].
  unfold mapName; cbn. rewrite (h_loc _ _ _ Hq). reflexivity.
Qed.

Lemma sim_parseNamedType p1 p2 :
  sim o p1 p2 ->
  relF (mapNamedType h) (parseNamedType p1) (parseNamedType p2).
Proof.
  intros Hs. unfold parseNamedType.
  eapply rel_bind; [apply sim_parseName; assumption|].
  intros n q1 q2 Hq. apply rel_ret; [|assumption].
  unfold mapNamedType; cbn.
  rewrite (h_loc _ _ _ Hq), (sim_Token _ _ Hs). reflexivity.
Qed.

Lemma sim_parseFragmentName p1 p2 :
  sim o p1 p2 ->
  relF (mapName h) (parseFragmentName p1) (parseFragmentName p2).
Proof.
  intros Hs. unfold parseFragmentName. rewrite (sim_Token _ _ Hs).
  destruct (String.eqb _ _).
  - cbn. apply sim_unexpected. assumption.
  - apply sim_parseName. assumption.
Qed.

Lemma sim_parseVariable p1 p2 :
  sim o p1 p2 ->
  relF (mapVariable h) (parseVariable p1) (parseVariable p2).
Proof.
  intros Hs. unfold parseVariable.
  eapply rel_bind; [apply sim_expect; assumption|].
  intros t q1 q2 Hq.
  eapply rel_bind; [apply sim_parseName; assumption|].
  intros n r1 r2 Hr. apply rel_ret; [|assumption].
  unfold mapVariable; cbn.
  rewrite (h_loc _ _ _ Hr), (sim_Token _ _ Hs). reflexivity.
Qed.

Lemma sim_parseType fuel : forall p1 p2,
  sim o p1 p2 ->
  relF (mapType h) (parseType fuel p1) (parseType fuel p2).
Proof.
  induction fuel as [|fuel IH]; intros p1 p2 Hs; [exact I|].
  rewrite !parseType_S. cbv zeta. rewrite (sim_Token _ _ Hs).
  sim_skip_step.
  - eapply (rel_bind (mapType h)).
    + eapply rel_bind; [apply IH; assumption|].
      intros t r1 r2 Hr.
      eapply rel_bind; [apply sim_expect; assumption|].
      intros t' s1 s2 Hs'. apply rel_ret; [|assumption].
      cbn. rewrite (h_loc _ _ _ Hs'). reflexivity.
    + intros t r1 r2 Hr. sim_skip_step; (apply rel_ret; [|assumption]).
      * cbn. rewrite (h_loc _ _ _ Hk0). reflexivity.
      * reflexivity.
  - eapply (rel_bind (mapType h)).
    + eapply rel_bind; [apply sim_parseNamedType; assumption|].
      intros n r1 r2 Hr. apply rel_ret; [reflexivity|assumption].
    + intros t r1 r2 Hr. sim_skip_step; (apply rel_ret; [|assumption]).
      * cbn. rewrite (h_loc _ _ _ Hk0). reflexivity.
      * reflexivity.
Qed.

Lemma sim_many_loop {A} (m : A -> A) (f : parseFn A) :
  (forall p1 p2, sim o p1 p2 -> relF m (f p1) (f p2)) ->
  forall fuel p1 p2 c nodes,
    sim o p1 p2 ->
    relL m (many_loop fuel p1 f c nodes)
         (many_loop fuel p2 f c (map m nodes)).
Proof.
  intros Hf. induction fuel as [|fuel IH]; intros p1 p2 c nodes Hs;
    [exact I|].
  simpl. sim_skip_step; [split; [reflexivity|assumption]|].
  pose proof (Hf _ _ Hk) as H. rel_call H; cbn; try reflexivity.
  replace (map m nodes ++ [m a])%list with (map m (nodes ++ [a]))
    by apply map_app.
  apply IH. assumption.
Qed.

Lemma sim_many {A} (m : A -> A) (f : parseFn A) :
  (forall p1 p2, sim o p1 p2 -> relF m (f p1) (f p2)) ->
  forall fuel p1 p2 k c,
    sim o p1 p2 -> relL m (many fuel p1 k f c) (many fuel p2 k f c).
Proof.
  intros Hf fuel p1 p2 k c Hs. unfold many.
  pose proof (sim_expect _ _ k Hs) as H. rel_call H; cbn; try reflexivity.
  pose proof (Hf _ _ Hs0) as H. rel_call H; cbn; try reflexivity.
  apply (sim_many_loop m f Hf fuel _ _ c [a0]). assumption.
Qed.

Lemma sim_any_loop {A} (m : A -> A) (f : parseFn A) :
  (forall p1 p2, sim o p1 p2 -> relF m (f p1) (f p2)) ->
  forall fuel p1 p2 c nodes,
    sim o p1 p2 ->
    relL m (any_loop fuel p1 f c nodes)
         (any_loop fuel p2 f c (map m nodes)).
Proof.
  intros Hf. induction fuel as [|fuel IH]; intros p1 p2 c nodes Hs;
    [exact I|].
  simpl. sim_skip_step; [split; [reflexivity|assumption]|].
  pose proof (Hf _ _ Hk) as H. rel_call H; cbn; try reflexivity.
  replace (map m nodes ++ [m a])%list with (map m (nodes ++ [a]))
    by apply map_app.
  apply IH. assumption.
Qed.

Lemma sim_any {A} (m : A -> A) (f : parseFn A) :
  (forall p1 p2, sim o p1 p2 -> relF m (f p1) (f p2)) ->
  forall fuel p1 p2 k c,
    sim o p1 p2 -> relL m (any fuel p1 k f c) (any fuel p2 k f c).
Proof.
  intros Hf fuel p1 p2 k c Hs. unfold any.
  pose proof (sim_expect _ _ k Hs) as H. rel_call H; cbn; try reflexivity.
  - apply (sim_any_loop m f Hf fuel _ _ c []). assumption.
  - split; [reflexivity|assumption].
Qed.

(** The copy loop runs alike on the items and on the rewritten items. *)
Lemma range_assign_map {A} (m : A -> A) (l : list A) :
  range_assign (E := graphqlerrors.error) [] 0 (map m l)
  = mapResult (map m) (range_assign [] 0 l).
Proof. destruct l; reflexivity. Qed.

Lemma sim_value_group fuel :
  (forall p1 p2 c, sim o p1 p2 ->
     relF (mapValue h) (parseValue fuel p1 c) (parseValue fuel p2 c))
  /\ (forall p1 p2 c, sim o p1 p2 ->
     relF (mapArrayValue h) (parseArray fuel p1 c) (parseArray fuel p2 c))
  /\ (forall p1 p2, sim o p1 p2 ->
     relF (mapValue h) (parseConstValue fuel p1) (parseConstValue fuel p2))
  /\ (forall p1 p2, sim o p1 p2 ->
     relF (mapValue h) (parseVariableValue fuel p1)
          (parseVariableValue fuel p2)).
Proof.
  induction fuel as [|fuel (IHv & IHa & IHc & IHw)].
  { repeat split; intros; exact I. }
  repeat split; intros p1 p2; intros.
  - rewrite !parseValue_S, (sim_Token p1 p2) by assumption.
    destruct (lexer.Token_Kind (Token p1));
      try (cbn; apply sim_unexpected; assumption).
    eapply rel_bind; [apply IHa; assumption|].
    intros a q1 q2 Hq. apply rel_ret; [reflexivity|assumption].
  - rewrite !parseArray_S, (sim_Token p1 p2) by assumption.
    assert (Hany : relL (mapValue h)
              (any fuel p1 lexer.BRACE_L
                   (if c then parseConstValue fuel
                    else parseVariableValue fuel) lexer.BRACKET_R)
              (any fuel p2 lexer.BRACE_L
                   (if c then parseConstValue fuel
                    else parseVariableValue fuel) lexer.BRACKET_R)).
    { apply sim_any; [|assumption]. destruct c; assumption. }
    rel_call Hany; cbn; try reflexivity.
    + rewrite range_assign_map.
      destruct (range_assign [] 0 a) as [vs|e|msg|]; cbn;
        try reflexivity.
      split; [|assumption]. unfold mapArrayValue; cbn.
      rewrite (h_loc _ _ _ Hs). reflexivity.
    + destruct e as [nodes e]. reflexivity.
  - rewrite !parseConstValue_S. apply IHv. assumption.
  - rewrite !parseVariableValue_S. apply IHv. assumption.
Qed.

Lemma sim_parseValue fuel p1 p2 c :
  sim o p1 p2 ->
  relF (mapValue h) (parseValue fuel p1 c) (parseValue fuel p2 c).
Proof. apply (sim_value_group fuel). Qed.

Lemma sim_parseDirective fuel p1 p2 :
  sim o p1 p2 ->
  relF (mapDirective h) (parseDirective fuel p1) (parseDirective fuel p2).
Proof.
  intros Hs. unfold parseDirective. rewrite (sim_Token _ _ Hs).
  eapply rel_bind; [apply sim_expect; assumption|].
  intros t q1 q2 Hq.
  eapply rel_bind; [apply sim_parseName; assumption|].
  intros n r1 r2 Hr. sim_skip_step.
  - eapply rel_bind; [apply sim_parseValue; assumption|].
    intros v s1 s2 Hs'. apply rel_ret; [|assumption].
    unfold mapDirective; cbn. rewrite (h_loc _ _ _ Hs'). reflexivity.
  - eapply (rel_bind (mapValue h)); [apply rel_ret; [reflexivity|assumption]|].
    intros v s1 s2 Hs'. apply rel_ret; [|assumption].
    unfold mapDirective; cbn. rewrite (h_loc _ _ _ Hs'). reflexivity.
Qed.

Lemma sim_parseDirectives_loop fuel : forall p1 p2 ds,
  sim o p1 p2 ->
  relF (map (mapDirective h)) (parseDirectives_loop fuel p1 ds)
       (parseDirectives_loop fuel p2 (map (mapDirective h) ds)).
Proof.
  induction fuel as [|fuel IH]; intros p1 p2 ds Hs; [exact I|].
  simpl. sim_peek_step; cbn [negb].
  - eapply rel_bind; [apply sim_parseDirective; assumption|].
    intros d q1 q2 Hq.
    replace (map (mapDirective h) ds ++ [mapDirective h d])%list
      with (map (mapDirective h) (ds ++ [d])) by apply map_app.
    apply IH. assumption.
  - apply rel_ret; [reflexivity|assumption].
Qed.

Lemma sim_parseDirectives fuel p1 p2 :
  sim o p1 p2 ->
  relF (map (mapDirective h)) (parseDirectives fuel p1)
       (parseDirectives fuel p2).
Proof. apply (sim_parseDirectives_loop fuel p1 p2 []). Qed.

Lemma sim_parseArgument fuel p1 p2 :
  sim o p1 p2 ->
  relF (mapArgument h) (parseArgument fuel p1) (parseArgument fuel p2).
Proof.
  intros Hs. unfold parseArgument. rewrite (sim_Token _ _ Hs).
  eapply rel_bind; [apply sim_parseName; assumption|].
  intros n q1 q2 Hq.
  eapply rel_bind; [apply sim_expect; assumption|].
  intros t r1 r2 Hr.
  eapply rel_bind; [apply sim_parseValue; assumption|].
  intros v s1 s2 Hs'. apply rel_ret; [|assumption].
  unfold mapArgument; cbn. rewrite (h_loc _ _ _ Hs'). reflexivity.
Qed.

Lemma sim_parseArguments fuel p1 p2 :
  sim o p1 p2 ->
  relF (map (mapArgument h)) (parseArguments fuel p1)
       (parseArguments fuel p2).
Proof.
  intros Hs. unfold parseArguments. sim_peek_step.
  - pose proof (sim_many (mapArgument h) (parseArgument fuel)
                  (sim_parseArgument fuel) fuel _ _ lexer.PAREN_L
                  lexer.PAREN_R Hs) as H.
    rel_call H; cbn; try reflexivity.
    + rewrite range_assign_map.
      destruct (range_assign [] 0 a) as [vs|e|msg|]; cbn;
        try reflexivity.
      split; [reflexivity|assumption].
    + destruct e as [nodes e]. reflexivity.
  - apply rel_ret; [reflexivity|assumption].
Qed.

Lemma sim_parseVariableDefinition fuel p1 p2 :
  sim o p1 p2 ->
  relF (mapVariableDefinition h) (parseVariableDefinition fuel p1)
       (parseVariableDefinition fuel p2).
Proof.
  intros Hs. unfold parseVariableDefinition. rewrite (sim_Token _ _ Hs).
  assert (Hrest : forall v q1 q2, sim o q1 q2 ->
     relF (mapVariableDefinition h)
       (let* (_, parser) := expect q1 lexer.COLON in
        let* (variable, parser0) := parseVariable parser in
        let* (ttype, parser1) := parseType fuel parser0 in
        Ok ({| ast.VariableDefinition_Kind := kinds.VariableDefinition;
               ast.VariableDefinition_Loc :=
                 loc parser1 (lexer.Token_Start (Token p1));
               ast.VariableDefinition_Variable := variable;
               ast.VariableDefinition_Type := ttype;
               ast.VariableDefinition_DefaultValue := v |}, parser1))
       (let* (_, parser) := expect q2 lexer.COLON in
        let* (variable, parser0) := parseVariable parser in
        let* (ttype, parser1) := parseType fuel parser0 in
        Ok ({| ast.VariableDefinition_Kind := kinds.VariableDefinition;
               ast.VariableDefinition_Loc :=
                 loc parser1 (lexer.Token_Start (Token p1));
               ast.VariableDefinition_Variable := variable;
               ast.VariableDefinition_Type := ttype;
               ast.VariableDefinition_DefaultValue := mapValue h v |},
            parser1))).
  { intros v q1 q2 Hq.
    eapply rel_bind; [apply sim_expect; assumption|].
    intros t r1 r2 Hr.
    eapply rel_bind; [apply sim_parseVariable; assumption|].
    intros x s1 s2 Hs'.
    eapply rel_bind; [apply sim_parseType; assumption|].
    intros ty u1 u2 Hu. apply rel_ret; [|assumption].
    unfold mapVariableDefinition; cbn. rewrite (h_loc _ _ _ Hu).
    reflexivity. }
  sim_skip_step.
  - eapply rel_bind; [apply sim_parseValue; assumption|].
    intros v r1 r2 Hr. apply Hrest. assumption.
  - eapply (rel_bind (mapValue h));
      [apply rel_ret; [reflexivity|assumption]|].
    intros v r1 r2 Hr. apply Hrest. assumption.
Qed.

Lemma sim_parseVariableDefinitions fuel p1 p2 :
  sim o p1 p2 ->
  relF (map (mapVariableDefinition h)) (parseVariableDefinitions fuel p1)
       (parseVariableDefinitions fuel p2).
Proof.
  intros Hs. unfold parseVariableDefinitions. sim_peek_step.
  - pose proof (sim_many (mapVariableDefinition h)
                  (parseVariableDefinition fuel)
                  (sim_parseVariableDefinition fuel) fuel _ _ lexer.PAREN_L
                  lexer.PAREN_R Hs) as H.
    rel_call H; cbn; try reflexivity.
    + rewrite range_assign_map.
      destruct (range_assign [] 0 a) as [vs|e|msg|]; cbn;
        try reflexivity.
      split; [reflexivity|assumption].
    + destruct e as [nodes e]. cbn. rewrite range_assign_map.
      destruct (range_assign [] 0 nodes) as [vs|e'|msg|]; reflexivity.
  - apply rel_ret; [reflexivity|assumption].
Qed.

Lemma sim_selection_group fuel :
  (forall p1 p2, sim o p1 p2 ->
     relF (mapSelectionSet h) (parseSelectionSet fuel p1)
          (parseSelectionSet fuel p2))
  /\ (forall p1 p2, sim o p1 p2 ->
     relF (mapSelection h) (parseSelection fuel p1)
          (parseSelection fuel p2))
  /\ (forall p1 p2, sim o p1 p2 ->
     relF (mapSelection h) (parseFragment fuel p1) (parseFragment fuel p2))
  /\ (forall p1 p2, sim o p1 p2 ->
     relF (mapField h) (parseField fuel p1) (parseField fuel p2)).
Proof.
  induction fuel as [|fuel (IHs & IHsel & IHfr & IHf)].
  { repeat split; intros; exact I. }
  repeat split; intros p1 p2 Hs.
  - rewrite !parseSelectionSet_S, (sim_Token _ _ Hs).
    pose proof (sim_many (mapSelection h) (parseSelection fuel) IHsel
                  fuel _ _ lexer.BRACE_L lexer.BRACE_R Hs) as H.
    rel_call H; cbn; try reflexivity.
    + split; [|assumption]. unfold mapSelectionSet; cbn.
      rewrite (h_loc _ _ _ Hs0). reflexivity.
    + destruct e as [nodes e]. reflexivity.
  - rewrite !parseSelection_S. sim_peek_step.
    + apply IHfr. assumption.
    + eapply rel_bind; [apply IHf; assumption|].
      intros f q1 q2 Hq. apply rel_ret; [reflexivity|assumption].
  - rewrite !parseFragment_S. cbv zeta. rewrite (sim_Token _ _ Hs).
    eapply rel_bind; [apply sim_expect; assumption|].
    intros t q1 q2 Hq. rewrite (sim_Token _ _ Hq).
    destruct (String.eqb _ _).
    + eapply rel_bind;
        [apply sim_parseNamedType; apply sim_advance; assumption|].
      intros n r1 r2 Hr.
      eapply rel_bind; [apply sim_parseDirectives; assumption|].
      intros ds s1 s2 Hs'.
      eapply rel_bind; [apply IHs; assumption|].
      intros ss u1 u2 Hu. apply rel_ret; [|assumption].
      cbn. rewrite (h_loc _ _ _ Hu). reflexivity.
    + eapply rel_bind; [apply sim_parseFragmentName; assumption|].
      intros n r1 r2 Hr.
      eapply rel_bind; [apply sim_parseDirectives; assumption|].
      intros ds s1 s2 Hs'. apply rel_ret; [|assumption].
      cbn. rewrite (h_loc _ _ _ Hs'). reflexivity.
  - rewrite !parseField_S. cbv zeta. rewrite (sim_Token _ _ Hs).
    eapply rel_bind; [apply sim_parseName; assumption|].
    intros n q1 q2 Hq.
    assert (Hrest : forall nm al r1 r2, sim o r1 r2 ->
      relF (mapField h)
        (let* (selectionSet, parser) :=
           if peek r1 lexer.BRACE_L then parseSelectionSet fuel r1
           else Ok (ast.SelectionSet_zero, r1) in
         let* (arguments, parser0) := parseArguments fuel parser in
         let* (directives, parser1) := parseDirectives fuel parser0 in
         Ok ({| ast.Field_Kind := kinds.Field;
                ast.Field_Loc := loc parser1 (lexer.Token_Start (Token p1));
                ast.Field_Alias := al;
                ast.Field_Name := nm;
                ast.Field_Arguments := arguments;
                ast.Field_Directives := directives;
                ast.Field_SelectionSet := selectionSet |}, parser1))
        (let* (selectionSet, parser) :=
           if peek r2 lexer.BRACE_L then parseSelectionSet fuel r2
           else Ok (ast.SelectionSet_zero, r2) in
         let* (arguments, parser0) := parseArguments fuel parser in
         let* (directives, parser1) := parseDirectives fuel parser0 in
         Ok ({| ast.Field_Kind := kinds.Field;
                ast.Field_Loc := loc parser1 (lexer.Token_Start (Token p1));
                ast.Field_Alias := mapName h al;
                ast.Field_Name := mapName h nm;
                ast.Field_Arguments := arguments;
                ast.Field_Directives := directives;
                ast.Field_SelectionSet := selectionSet |}, parser1))).
    { intros nm al r1 r2 Hr.
      eapply (rel_bind (mapSelectionSet h)).
      { sim_peek_step; [apply IHs; assumption|].
        apply rel_ret; [|assumption].
        unfold mapSelectionSet; cbn. rewrite h_zero. reflexivity. }
      intros ss s1 s2 Hs'.
      eapply rel_bind; [apply sim_parseArguments; assumption|].
      intros args u1 u2 Hu.
      eapply rel_bind; [apply sim_parseDirectives; assumption|].
      intros ds v1 v2 Hv. apply rel_ret; [|assumption].
      unfold mapField; cbn. rewrite (h_loc _ _ _ Hv). reflexivity. }
    sim_skip_step.
    + destruct (parseName q) as [[n1 r1]|e1|m1|] eqn:E1;
        pose proof (sim_parseName _ _ Hk) as Hn; rewrite E1 in Hn;
        destruct (parseName q0) as [[n2 r2]|e2|m2|]; cbn in Hn;
        try contradiction; cbn.
      * destruct Hn as [-> Hr]. apply Hrest. assumption.
      * assumption.
      * assumption.
      * exact I.
    + pose proof (Hrest n ast.Name_zero _ _ Hk) as H.
      replace (mapName h ast.Name_zero) with ast.Name_zero in H
        by (unfold mapName; cbn; rewrite h_zero; reflexivity).
      exact H.
Qed.

Lemma sim_parseSelectionSet fuel p1 p2 :
  sim o p1 p2 ->
  relF (mapSelectionSet h) (parseSelectionSet fuel p1)
       (parseSelectionSet fuel p2).
Proof. apply (sim_selection_group fuel). Qed.

Lemma sim_parseOperationDefinition fuel p1 p2 :
  sim o p1 p2 ->
  relF (mapOperationDefinition h) (parseOperationDefinition fuel p1)
       (parseOperationDefinition fuel p2).
Proof.
  intros Hs. unfold parseOperationDefinition. rewrite (sim_Token _ _ Hs).
  sim_peek_step.
  - eapply rel_bind; [apply sim_parseSelectionSet; assumption|].
    intros ss q1 q2 Hq. apply rel_ret; [|assumption].
    unfold mapOperationDefinition; cbn.
    rewrite (h_loc _ _ _ Hq). unfold mapName; cbn. rewrite h_zero.
    reflexivity.
  - eapply rel_bind; [apply sim_expect; assumption|].
    intros t q1 q2 Hq.
    eapply rel_bind; [apply sim_parseName; assumption|].
    intros n r1 r2 Hr.
    eapply rel_bind; [apply sim_parseVariableDefinitions; assumption|].
    intros vs s1 s2 Hs'.
    eapply rel_bind; [apply sim_parseDirectives; assumption|].
    intros ds u1 u2 Hu.
    eapply rel_bind; [apply sim_parseSelectionSet; assumption|].
    intros ss v1 v2 Hv. apply rel_ret; [|assumption].
    unfold mapOperationDefinition; cbn. rewrite (h_loc _ _ _ Hv).
    reflexivity.
Qed.

Lemma sim_parseFragmentDefinition fuel p1 p2 :
  sim o p1 p2 ->
  relF (mapFragmentDefinition h) (parseFragmentDefinition fuel p1)
       (parseFragmentDefinition fuel p2).
Proof.
  intros Hs. unfold parseFragmentDefinition. rewrite (sim_Token _ _ Hs).
  eapply rel_bind; [apply sim_expectKeyWord; assumption|].
  intros t q1 q2 Hq.
  eapply rel_bind; [apply sim_parseFragmentName; assumption|].
  intros n r1 r2 Hr.
  eapply rel_bind; [apply sim_expectKeyWord; assumption|].
  intros t' s1 s2 Hs'.
  eapply rel_bind; [apply sim_parseNamedType; assumption|].
  intros tc u1 u2 Hu.
  eapply rel_bind; [apply sim_parseSelectionSet; assumption|].
  intros ss v1 v2 Hv.
  eapply rel_bind; [apply sim_parseDirectives; assumption|].
  intros ds w1 w2 Hw. apply rel_ret; [|assumption].
  unfold mapFragmentDefinition; cbn. rewrite (h_loc _ _ _ Hw).
  reflexivity.
Qed.

Lemma sim_parseDocument_loop fuel : forall p1 p2 ds,
  sim o p1 p2 ->
  relF (map (mapDefinition h)) (parseDocument_loop fuel p1 ds)
       (parseDocument_loop fuel p2 (map (mapDefinition h) ds)).
Proof.
  induction fuel as [|fuel IH]; intros p1 p2 ds Hs; [exact I|].
  simpl. sim_skip_step; [apply rel_ret; [reflexivity|assumption]|].
  assert (Hop : relF (map (mapDefinition h))
     (let* (oDef, parser) := parseOperationDefinition fuel q in
      parseDocument_loop fuel parser (ds ++ [ast.Definition_Operation oDef]))
     (let* (oDef, parser) := parseOperationDefinition fuel q0 in
      parseDocument_loop fuel parser
        (map (mapDefinition h) ds ++ [ast.Definition_Operation oDef]))).
  { eapply rel_bind; [apply sim_parseOperationDefinition; assumption|].
    intros d r1 r2 Hr.
    replace (map (mapDefinition h) ds
             ++ [ast.Definition_Operation (mapOperationDefinition h d)])%list
      with (map (mapDefinition h) (ds ++ [ast.Definition_Operation d]))
      by apply map_app.
    apply IH. assumption. }
  sim_peek_step; [exact Hop|].
  sim_peek_step; [|cbn; apply sim_unexpected; assumption].
  rewrite (sim_Token _ _ Hk).
  destruct (_ || _)%bool; [exact Hop|].
  destruct (String.eqb _ _); [|cbn; apply sim_unexpected; assumption].
  eapply rel_bind; [apply sim_parseFragmentDefinition; assumption|].
  intros d r1 r2 Hr.
  replace (map (mapDefinition h) ds
           ++ [ast.Definition_Fragment (mapFragmentDefinition h d)])%list
    with (map (mapDefinition h) (ds ++ [ast.Definition_Fragment d]))
    by apply map_app.
  apply IH. assumption.
Qed.

Lemma sim_parseDocument fuel p1 p2 :
  sim o p1 p2 ->
  relF (mapDocument h) (parseDocument fuel p1) (parseDocument fuel p2).
Proof.
  intros Hs. unfold parseDocument. rewrite (sim_Token _ _ Hs).
  eapply rel_bind; [apply (sim_parseDocument_loop fuel _ _ []); assumption|].
  intros ds q1 q2 Hq. apply rel_ret; [|assumption].
  unfold mapDocument; cbn. rewrite (h_loc _ _ _ Hq). reflexivity.
Qed.

(** The parse under [o] is the default parse with [h] applied to every
    location. *)
Lemma Parse_options Lex fuel src :
  Parse Lex fuel {| Params_Source := src; Params_Options := o |}
  = mapResult (mapDocument h)
      (Parse Lex fuel {| Params_Source := src;
                         Params_Options := defaultOptions |}).
Proof.
  unfold Parse, makeParser. cbn [Params_Source Params_Options].
  set (s := match src with
            | SourceObj s => s
            | SourceString s => source.NewSource s EmptyString
            | SourceOther => source.NewSource EmptyString EmptyString
            end).
  destruct (Lex s 0) as [token|err]; [|reflexivity]. cbn [bind].
  match goal with
  | |- bind (parseDocument fuel ?p2) _
       = mapResult _ (bind (parseDocument fuel ?p1) _) =>
      assert (H : relF (mapDocument h) (parseDocument fuel p1)
                       (parseDocument fuel p2))
        by (apply sim_parseDocument; repeat split);
      destruct (parseDocument fuel p1) as [[d1 q1]|e1|m1|],
               (parseDocument fuel p2) as [[d2 q2]|e2|m2|];
      cbn in H; try contradiction; cbn
  end.
  - destruct H as [-> _]. reflexivity.
  - subst. reflexivity.
  - subst. reflexivity.
  - reflexivity.
Qed.

End LocationOptions.

(** *** The locations of a rewritten tree *)

Lemma flat_map_locs_map {A} (locsA : A -> list ast.Location) (m : A -> A)
      (h : ast.Location -> ast.Location) :
  (forall a, locsA (m a) = map h (locsA a)) ->
  forall l, flat_map locsA (map m l) = map h (flat_map locsA l).
Proof.
  intros H. induction l as [|a l IH]; cbn; [reflexivity|].
  rewrite ?map_app, H, IH. reflexivity.
Qed.

Create Rewrite HintDb locs.

Ltac locs_simpl :=
  repeat (cbn; autorewrite with locs); try reflexivity.

Lemma locsType_map h t : locsType (mapType h t) = map h (locsType t).
Proof.
  induction t as [|k l n i IH|k l i IH|k l i IH]; cbn;
    rewrite ?map_app, ?IH; reflexivity.
Qed.
#[global] Hint Rewrite map_app locsType_map : locs.

Lemma locsNamedType_map h n :
  locsNamedType (mapNamedType h n) = map h (locsNamedType n).
Proof. unfold locsNamedType, mapNamedType. locs_simpl. Qed.

Lemma locsValue_map h : forall v,
  locsValue (mapValue h v) = map h (locsValue v).
Proof.
  fix IH 1. intros [|k l vs]; cbn; [reflexivity|]. f_equal.
  induction vs as [|v vs IHvs]; cbn; [reflexivity|].
  rewrite map_app, IH, IHvs. reflexivity.
Qed.
#[global] Hint Rewrite locsValue_map : locs.

Lemma locsArgument_map h a :
  locsArgument (mapArgument h a) = map h (locsArgument a).
Proof. unfold locsArgument, mapArgument. locs_simpl. Qed.

Lemma locsDirective_map h d :
  locsDirective (mapDirective h d) = map h (locsDirective d).
Proof. unfold locsDirective, mapDirective. locs_simpl. Qed.

Lemma locsVariableDefinition_map h v :
  locsVariableDefinition (mapVariableDefinition h v)
  = map h (locsVariableDefinition v).
Proof.
  unfold locsVariableDefinition, mapVariableDefinition. locs_simpl.
Qed.

Lemma locsArguments_map h l :
  flat_map locsArgument (map (mapArgument h) l)
  = map h (flat_map locsArgument l).
Proof. apply flat_map_locs_map, locsArgument_map. Qed.

Lemma locsDirectives_map h l :
  flat_map locsDirective (map (mapDirective h) l)
  = map h (flat_map locsDirective l).
Proof. apply flat_map_locs_map, locsDirective_map. Qed.

Lemma locsVariableDefinitions_map h l :
  flat_map locsVariableDefinition (map (mapVariableDefinition h) l)
  = map h (flat_map locsVariableDefinition l).
Proof. apply flat_map_locs_map, locsVariableDefinition_map. Qed.
#[global] Hint Rewrite locsArguments_map locsDirectives_map
  locsVariableDefinitions_map : locs.

Lemma locsSelection_map h : forall s,
  locsSelection (mapSelection h s) = map h (locsSelection s).
Proof.
  fix IH 1.
  assert (Hsels : forall sels,
             flat_map locsSelection (map (mapSelection h) sels)
             = map h (flat_map locsSelection sels)).
  { induction sels as [|x sels IHsels]; cbn; [reflexivity|].
    rewrite map_app, IH, IHsels. reflexivity. }
  intros [k l a n args ds ss|k l n ds|k l tc ds ss]; cbn;
    rewrite ?Hsels; locs_simpl.
Qed.

Lemma locsSelections_map h l :
  flat_map locsSelection (map (mapSelection h) l)
  = map h (flat_map locsSelection l).
Proof. apply flat_map_locs_map, locsSelection_map. Qed.
#[global] Hint Rewrite locsSelections_map : locs.

Lemma locsSelectionSet_map h ss :
  locsSelectionSet (mapSelectionSet h ss) = map h (locsSelectionSet ss).
Proof. unfold locsSelectionSet, mapSelectionSet. locs_simpl. Qed.

Lemma locsDefinition_map h d :
  locsDefinition (mapDefinition h d) = map h (locsDefinition d).
Proof.
  destruct d as [d|d];
    unfold locsDefinition, mapDefinition, locsOperationDefinition,
      mapOperationDefinition, locsFragmentDefinition,
      mapFragmentDefinition, locsSelectionSet, mapSelectionSet,
      locsNamedType, mapNamedType;
    locs_simpl.
Qed.

Lemma locsDocument_map h d :
  locsDocument (mapDocument h d) = map h (locsDocument d).
Proof.
  unfold locsDocument, mapDocument; cbn.
  rewrite (flat_map_locs_map _ _ h (locsDefinition_map h)). reflexivity.
Qed.

(** C7. For every tokenizer, source and fuel, the parse with
    [NoLocation] (with or without [NoSource]) is the default parse with
    every location replaced by the zero location, and the parse with
    [NoSource] alone is the default parse with the source reference of
    every location dropped and its start and end kept; errors, panics
    and the rest of the tree are the same. *)
Theorem location_options_rewrite_locations :
  forall Lex fuel src,
    (forall b,
        Parse Lex fuel {| Params_Source := src;
                          Params_Options := {| NoLocation := true;
                                               NoSource := b |} |}
        = mapResult (mapDocument zeroLocation)
            (Parse Lex fuel {| Params_Source := src;
                               Params_Options := defaultOptions |}))
    /\ Parse Lex fuel {| Params_Source := src;
                         Params_Options := {| NoLocation := false;
                                              NoSource := true |} |}
       = mapResult (mapDocument dropSource)
           (Parse Lex fuel {| Params_Source := src;
                              Params_Options := defaultOptions |})
    /\ (forall d,
           Forall (fun l => l = ast.Location_zero)
                  (locsDocument (mapDocument zeroLocation d)))
    /\ (forall d,
           map ast.Loc_Start (locsDocument (mapDocument dropSource d))
           = map ast.Loc_Start (locsDocument d)
           /\ map ast.Loc_End (locsDocument (mapDocument dropSource d))
              = map ast.Loc_End (locsDocument d)
           /\ Forall (fun l => ast.Loc_Source l = None)
                     (locsDocument (mapDocument dropSource d))).
Proof.
  intros Lex fuel src. split; [|split; [|split]].
  - intros b. apply Parse_options; [reflexivity|].
    intros p1 p2 start (_ & _ & _ & _ & _ & Ho). unfold loc.
    rewrite Ho. reflexivity.
  - apply Parse_options; [reflexivity|].
    intros p1 p2 start (_ & _ & HP & _ & Hd & Ho). unfold loc.
    rewrite Ho, Hd, HP. reflexivity.
  - intros d. rewrite locsDocument_map. apply Forall_forall.
    intros l Hl. apply in_map_iff in Hl. destruct Hl as (l' & <- & _).
    reflexivity.
  - intros d. rewrite locsDocument_map, !map_map. repeat split.
    apply Forall_forall. intros l Hl. apply in_map_iff in Hl.
    destruct Hl as (l' & <- & _). reflexivity.
Qed.

(* ------------------------------------------------------------------ *)
(** ** Locations *)

(** *** The cursor only moves forward *)

Lemma consumes_frame p last q :
  consumes p last q ->
  Source q = Source p /\ Options q = Options p /\ LexToken q = LexToken p.
Proof.
  induction 1 as [|last q _ (HS & HO & HL)].
  - rewrite advance_Source, advance_Options, advance_LexToken. auto.
  - rewrite advance_Source, advance_Options, advance_LexToken. auto.
Qed.

Lemma consumes_PrevEnd p last q :
  consumes p last q -> PrevEnd q = lexer.Token_End last.
Proof. destruct 1; apply advance_PrevEnd. Qed.

Lemma consumes_trans p l1 q l2 r :
  consumes p l1 q -> consumes q l2 r -> consumes p l2 r.
Proof.
  intros H1 H2. induction H2.
  - apply consumes_next with (last := l1). assumption.
  - eapply consumes_next. eassumption.
Qed.

Lemma reaches_refl p : reaches p p.
Proof. left. reflexivity. Qed.

Lemma consumed_advance p : consumed p (snd (advance p)).
Proof. eexists. apply consumes_first. Qed.

Lemma consumed_reaches p q : consumed p q -> reaches p q.
Proof. intros H. right. assumption. Qed.

Lemma consumed_then_reaches p q r :
  consumed p q -> reaches q r -> consumed p r.
Proof.
  intros [l1 H1] [->|[l2 H2]]; [exists l1; assumption|].
  exists l2. eapply consumes_trans; eassumption.
Qed.

Lemma reaches_then_consumed p q r :
  reaches p q -> consumed q r -> consumed p r.
Proof.
  intros [->|[l1 H1]] [l2 H2]; [exists l2; assumption|].
  exists l2. eapply consumes_trans; eassumption.
Qed.

Lemma reaches_trans p q r : reaches p q -> reaches q r -> reaches p r.
Proof.
  intros [->|H1] H2; [assumption|].
  right. eapply consumed_then_reaches; eassumption.
Qed.

Lemma cursor_ok_advance p :
  cursor_ok p ->
  cursor_ok (snd (advance p)) /\ PrevEnd p <= PrevEnd (snd (advance p)).
Proof.
  intros (Hl & Hse & Hpe). rewrite advance_PrevEnd. split; [|assumption].
  unfold advance, cursor_ok. cbn [LexToken].
  destruct (LexToken p (lexer.Token_End (Token p))) as [t|e] eqn:E; cbn.
  - destruct (Hl _ _ E) as [H1 H2]. split; [assumption|split; lia].
  - split; [assumption|split; lia].
Qed.

Lemma cursor_ok_consumes p last q :
  consumes p last q -> cursor_ok p ->
  cursor_ok q /\ lexer.Token_End (Token p) <= PrevEnd q.
Proof.
  induction 1 as [|last q Hc IH]; intros Hok.
  - split; [apply cursor_ok_advance; assumption|].
    rewrite advance_PrevEnd. lia.
  - destruct (IH Hok) as [Hq Hle].
    destruct (cursor_ok_advance _ Hq) as [Hq' Hle'].
    split; [assumption|lia].
Qed.

Lemma cursor_ok_reaches p q : reaches p q -> cursor_ok p -> cursor_ok q.
Proof.
  intros [->|[last H]] Hok; [assumption|].
  apply (cursor_ok_consumes _ _ _ H Hok).
Qed.

Lemma ordered_zero : ordered ast.Location_zero.
Proof. unfold ordered. cbn. lia. Qed.

Lemma ordered_loc p q :
  consumed p q -> cursor_ok p -> ordered (loc q (lexer.Token_Start (Token p))).
Proof.
  intros [last Hc] Hok.
  destruct (cursor_ok_consumes _ _ _ Hc Hok) as [_ Hle].
  destruct Hok as (_ & Hse & _).
  unfold loc, ordered.
  destruct (NoLocation _); [cbn; lia|].
  destruct (NoSource _); cbn; lia.
Qed.

(** Under the default options [loc] records the span from the first
    token of the production to the last token consumed. *)
Lemma loc_span p last q :
  Options p = defaultOptions -> consumes p last q ->
  loc q (lexer.Token_Start (Token p)) = span (Source p) (Token p) last.
Proof.
  intros Ho Hc. destruct (consumes_frame _ _ _ Hc) as (HS & HO & _).
  unfold loc, span. rewrite HO, Ho, HS, (consumes_PrevEnd _ _ _ Hc).
  reflexivity.
Qed.

(** The concrete tokenizer keeps the contract. *)
Lemma Lex_sane s : lexer_sane (lexer.Lex s).
Proof.
  intros offset t. unfold lexer.Lex, lexer.readToken.
  set (body := list_ascii_of_string (source.Body s)).
  set (from := Z.to_nat offset).
  set (position := (from + lexer.prefixLength lexer.isIgnored
                             (skipn from body))%nat).
  assert (Hpos : offset <= Z.of_nat position) by (subst position from; lia).
  assert (Hmk : forall k len v,
             offset <= lexer.Token_Start (lexer.makeToken k position len v)
             /\ lexer.Token_Start (lexer.makeToken k position len v)
                <= lexer.Token_End (lexer.makeToken k position len v)).
  { intros k len v. cbn. lia. }
  destruct (skipn position body) as [|c rest].
  { intros H. inversion H; subst. apply Hmk. }
  destruct (lexer.punctuator c).
  { intros H. inversion H; subst. apply Hmk. }
  destruct (Nat.eqb (lexer.code c) 46).
  { destruct rest as [|c1 [|c2 rest]]; try discriminate.
    destruct (_ && _)%bool; [|discriminate].
    intros H. inversion H; subst. apply Hmk. }
  destruct (lexer.isNameStart c).
  { intros H. inversion H; subst. apply Hmk. }
  destruct (lexer.isDigit c); [|discriminate].
  intros H. inversion H; subst. apply Hmk.
Qed.

(** A result of [Parse] or [runOn] comes from a run of the production
    on the parser that [makeParser] built. *)
Lemma Parse_inv Lex fuel src opts doc :
  Parse Lex fuel {| Params_Source := src; Params_Options := opts |} = Ok doc ->
  exists p0 q,
    makeParser Lex
      match src with
      | SourceObj s => s
      | SourceString s => source.NewSource s EmptyString
      | SourceOther => source.NewSource EmptyString EmptyString
      end opts = Ok p0
    /\ parseDocument fuel p0 = Ok (doc, q).
Proof.
  unfold Parse. cbn [Params_Source Params_Options]. intros H.
  destruct (makeParser Lex _ opts) as [p0|?|?|] eqn:Emk; try discriminate.
  cbn [bind] in H.
  destruct (parseDocument fuel p0) as [[d q]|?|?|] eqn:Ed;
    try discriminate.
  cbn [bind] in H. inversion H; subst. exists p0, q.
  split; [reflexivity|assumption].
Qed.

Lemma runOn_inv {A} (f : parseFn A) text opts a :
  runOn f text opts = Ok a ->
  exists p0 q,
    makeParser lexer.Lex (source.NewSource text EmptyString) opts = Ok p0
    /\ f p0 = Ok (a, q).
Proof.
  unfold runOn. intros H.
  destruct (makeParser lexer.Lex _ opts) as [p0|?|?|] eqn:Emk;
    try discriminate.
  cbn [bind] in H.
  destruct (f p0) as [[a' q]|?|?|] eqn:Ef; try discriminate.
  cbn [bind] in H. inversion H; subst. exists p0, q.
  split; [reflexivity|assumption].
Qed.

(** A call returns when its value, computed apart from the final state,
    is there. *)
Lemma returns_value {A} (r : fallible A) a :
  mapResult fst r = Ok a -> exists q, r = Ok (a, q).
Proof.
  destruct r as [[a' q]|?|?|]; try discriminate.
  cbn. intros H. inversion H; subst. exists q. reflexivity.
Qed.

Lemma returns_some {A} (r : fallible A) :
  mapResult (fun _ => tt) r = Ok tt -> exists a q, r = Ok (a, q).
Proof.
  destruct r as [[a q]|?|?|]; try discriminate.
  intros _. exists a, q. reflexivity.
Qed.

(** *** What every production records *)

Lemma expect_inv p k t q :
  expect p k = Ok (t, q) -> t = Token p /\ q = snd (advance p).
Proof.
  unfold expect. destruct (lexer.TokenKind_beq _ _); [|discriminate].
  intros H. inversion H. auto.
Qed.

Lemma expectKeyWord_inv p v t q :
  expectKeyWord p v = Ok (t, q) -> t = Token p /\ q = snd (advance p).
Proof.
  unfold expectKeyWord. destruct (_ && _)%bool; [|discriminate].
  intros H. inversion H. auto.
Qed.

Lemma skip_inv p k b q :
  skip p k = (b, q) ->
  (b = true /\ q = snd (advance p)
   /\ lexer.Token_Kind (Token p) = k)
  \/ (b = false /\ q = p).
Proof.
  unfold skip. destruct (lexer.TokenKind_beq _ _) eqn:E; intros H;
    inversion H; subst; [left|right]; repeat split.
  apply TokenKind_beq_eq. assumption.
Qed.

(** All the consequences of the facts at hand about reached states. *)
Ltac closure :=
  repeat match goal with
  | H : consumed ?p ?q |- _ =>
      lazymatch goal with
      | _ : reaches p q |- _ => fail
      | _ => pose proof (consumed_reaches _ _ H)
      end
  | H1 : consumed ?p ?q, H2 : reaches ?q ?r |- _ =>
      lazymatch goal with
      | _ : consumed p r |- _ => fail
      | _ => pose proof (consumed_then_reaches _ _ _ H1 H2)
      end
  | H1 : reaches ?p ?q, H2 : consumed ?q ?r |- _ =>
      lazymatch goal with
      | _ : consumed p r |- _ => fail
      | _ => pose proof (reaches_then_consumed _ _ _ H1 H2)
      end
  | H1 : reaches ?p ?q, H2 : reaches ?q ?r |- _ =>
      lazymatch goal with
      | _ : reaches p r |- _ => fail
      | _ => pose proof (reaches_trans _ _ _ H1 H2)
      end
  end.

(** Discharges the cursor premise of every fact about a reached state. *)
Ltac use_ok :=
  repeat match goal with
  | H : cursor_ok ?q -> _ |- _ =>
      let Hq := fresh "Hok" in
      assert (Hq : cursor_ok q)
        by (first
              [ assumption
              | match goal with
                | Hok : cursor_ok ?p0, Hr : reaches ?p0 q |- _ =>
                    exact (cursor_ok_reaches _ _ Hr Hok)
                end ]);
      specialize (H Hq)
  end.

Ltac split_ordered :=
  repeat match goal with
  | H : Forall _ (_ :: _) |- _ => apply Forall_cons_iff in H; destruct H
  | H : Forall _ (_ ++ _) |- _ => apply Forall_app in H; destruct H
  | H : Forall _ [] |- _ => clear H
  end.

Ltac solve_ordered :=
  unfold locsDocument, locsOperationDefinition, locsFragmentDefinition,
    locsField, locsSelectionSet, locsVariableDefinition, locsVariable,
    locsDirective, locsArgument, locsArrayValue, locsNamedType,
    locsName in *;
  cbn in *; split_ordered;
  repeat first
    [ assumption
    | apply Forall_nil
    | apply Forall_cons
    | apply Forall_app; split
    | apply ordered_zero
    | apply ordered_loc; assumption
    | progress cbn ].

(** The first call of [H] returned: name its value and state, and turn
    its equation into the fact [lem] gives. *)
Tactic Notation "step" hyp(H) "by" constr(lem) :=
  match type of H with
  | context [bind ?r _] =>
      let E := fresh "E" in
      destruct r as [[? ?]|?|?|] eqn:E; cbn [bind] in H;
      try discriminate H; apply lem in E
  end.

Ltac step_skip H :=
  match type of H with
  | context [skip ?p ?k] =>
      let E := fresh "E" in
      destruct (skip p k) as [? ?] eqn:E; apply skip_inv in E;
      destruct E as [(-> & -> & ?)|(-> & ->)]
  end.

Ltac finish H :=
  inversion H; subst; clear H;
  split; [closure; assumption
         |split; [first [reflexivity | cbn; assumption]
                 |intros ?; closure; use_ok; solve_ordered]].

Lemma parseName_located p n q :
  parseName p = Ok (n, q) -> located ast.Name_Loc locsName p n q.
Proof.
  unfold parseName. intros H. step H by expect_inv.
  destruct E as [-> ->]. pose proof (consumed_advance p). finish H.
Qed.

Lemma parseNamedType_located p n q :
  parseNamedType p = Ok (n, q) ->
  located ast.NamedType_Loc locsNamedType p n q.
Proof.
  unfold parseNamedType. intros H. step H by parseName_located.
  destruct E as (? & ? & ?). finish H.
Qed.

Lemma parseFragmentName_located p n q :
  parseFragmentName p = Ok (n, q) -> located ast.Name_Loc locsName p n q.
Proof.
  unfold parseFragmentName. destruct (String.eqb _ _); [discriminate|].
  apply parseName_located.
Qed.

Lemma parseVariable_located p v q :
  parseVariable p = Ok (v, q) ->
  located ast.Variable_Loc locsVariable p v q.
Proof.
  unfold parseVariable. intros H. step H by expect_inv.
  destruct E as [-> ->]. pose proof (consumed_advance p).
  step H by parseName_located. destruct E as (? & ? & ?). finish H.
Qed.

Lemma parseType_located fuel : forall p t q,
  parseType fuel p = Ok (t, q) -> located typeLoc locsType p t q.
Proof.
  induction fuel as [|fuel IH]; intros p t q H; [discriminate|].
  rewrite parseType_S in H. cbv zeta in H. step_skip H.
  - pose proof (consumed_advance p).
    destruct (parseType fuel (snd (advance p))) as [[t1 q1]|?|?|] eqn:E1;
      try discriminate.
    apply IH in E1. destruct E1 as (? & ? & ?). cbn [bind] in H.
    destruct (expect q1 lexer.BRACKET_R) as [[t2 q2]|?|?|] eqn:E2;
      try discriminate.
    apply expect_inv in E2. destruct E2 as [-> ->].
    pose proof (consumed_advance q1). cbn [bind] in H.
    step_skip H; [pose proof (consumed_advance (snd (advance q1)))|];
      finish H.
  - destruct (parseNamedType p) as [[n q1]|?|?|] eqn:E1; try discriminate.
    apply parseNamedType_located in E1. destruct E1 as (? & ? & ?).
    cbn [bind] in H.
    step_skip H; [pose proof (consumed_advance q1)|]; finish H.
Qed.

Lemma located_item {A} (getLoc : A -> ast.Location) locs p (a : A) q :
  located getLoc locs p a q ->
  reaches p q /\ (cursor_ok p -> Forall ordered (locs a)).
Proof. intros (Hc & _ & Ho). split; [right|]; assumption. Qed.

Lemma flat_map_snoc {A B} (f : A -> list B) l a :
  flat_map f (l ++ [a]) = (flat_map f l ++ f a)%list.
Proof. rewrite flat_map_app. cbn. rewrite app_nil_r. reflexivity. Qed.

Lemma many_loop_located {A} (locs : A -> list ast.Location) (f : parseFn A) :
  item_spec locs f ->
  forall fuel p c nodes nodes' q,
    many_loop fuel p f c nodes = Ok (nodes', q) ->
    consumed p q
    /\ (cursor_ok p -> Forall ordered (flat_map locs nodes) ->
        Forall ordered (flat_map locs nodes')).
Proof.
  intros Hf. induction fuel as [|fuel IH]; intros p c nodes nodes' q H;
    [discriminate|].
  simpl in H. step_skip H.
  - inversion H; subst. split; [apply consumed_advance|auto].
  - destruct (f p) as [[a q1]|?|?|] eqn:E; try discriminate.
    apply Hf in E. destruct E as [Hr Ho].
    apply IH in H. destruct H as [Hc Hn].
    split; [eapply reaches_then_consumed; eassumption|].
    intros Hok Hnodes. apply Hn.
    + eapply cursor_ok_reaches; eassumption.
    + rewrite flat_map_snoc. apply Forall_app. split; auto.
Qed.

Lemma many_located {A} (locs : A -> list ast.Location) (f : parseFn A) :
  item_spec locs f ->
  forall fuel p k c nodes q,
    many fuel p k f c = Ok (nodes, q) ->
    consumed p q /\ (cursor_ok p -> Forall ordered (flat_map locs nodes)).
Proof.
  intros Hf fuel p k c nodes q H. unfold many in H.
  destruct (expect p k) as [[t q1]|?|?|] eqn:E; try discriminate.
  apply expect_inv in E. destruct E as [-> ->].
  destruct (f (snd (advance p))) as [[a q2]|?|?|] eqn:E; try discriminate.
  apply Hf in E. destruct E as [Hr Ho].
  apply (many_loop_located locs f Hf) in H. destruct H as [Hc Hn].
  pose proof (consumed_advance p) as Hadv. split.
  - eapply consumed_then_reaches; [eassumption|].
    eapply reaches_trans; [eassumption|right; assumption].
  - intros Hok.
    assert (Hok1 : cursor_ok (snd (advance p)))
      by (apply cursor_ok_advance; assumption).
    apply Hn.
    + eapply cursor_ok_reaches; eassumption.
    + cbn. rewrite app_nil_r. auto.
Qed.

Lemma any_loop_located {A} (locs : A -> list ast.Location) (f : parseFn A) :
  item_spec locs f ->
  forall fuel p c nodes nodes' q,
    any_loop fuel p f c nodes = Ok (nodes', q) ->
    consumed p q
    /\ (cursor_ok p -> Forall ordered (flat_map locs nodes) ->
        Forall ordered (flat_map locs nodes')).
Proof.
  intros Hf. induction fuel as [|fuel IH]; intros p c nodes nodes' q H;
    [discriminate|].
  simpl in H. step_skip H.
  - inversion H; subst. split; [apply consumed_advance|auto].
  - destruct (f p) as [[a q1]|?|?|] eqn:E; try discriminate.
    apply Hf in E. destruct E as [Hr Ho].
    apply IH in H. destruct H as [Hc Hn].
    split; [eapply reaches_then_consumed; eassumption|].
    intros Hok Hnodes. apply Hn.
    + eapply cursor_ok_reaches; eassumption.
    + rewrite flat_map_snoc. apply Forall_app. split; auto.
Qed.

(** [any] after an open token that is there: the only use in the
    source. *)
Lemma any_located {A} (locs : A -> list ast.Location) (f : parseFn A) :
  item_spec locs f ->
  forall fuel p k c nodes q,
    lexer.Token_Kind (Token p) = k ->
    any fuel p k f c = Ok (nodes, q) ->
    consumed p q /\ (cursor_ok p -> Forall ordered (flat_map locs nodes)).
Proof.
  intros Hf fuel p k c nodes q Hk H. unfold any in H.
  rewrite (expect_ok _ _ Hk) in H.
  apply (any_loop_located locs f Hf) in H. destruct H as [Hc Hn].
  pose proof (consumed_advance p) as Hadv. split.
  - eapply consumed_then_reaches; [eassumption|right; assumption].
  - intros Hok. apply Hn; [|apply Forall_nil].
    apply cursor_ok_advance. assumption.
Qed.

Lemma range_assign_nil_inv {E A} (src dst : list A) :
  range_assign (E := E) [] 0 src = Ok dst -> src = [] /\ dst = [].
Proof.
  destruct src; [|discriminate]. intros H. inversion H. auto.
Qed.

Lemma value_group_located fuel :
  (forall p c v q, parseValue fuel p c = Ok (v, q) ->
                   located valueLoc locsValue p v q)
  /\ (forall p c a q, parseArray fuel p c = Ok (a, q) ->
                      lexer.Token_Kind (Token p) = lexer.BRACE_L ->
                      located ast.ArrayValue_Loc locsArrayValue p a q)
  /\ (forall p v q, parseConstValue fuel p = Ok (v, q) ->
                    located valueLoc locsValue p v q)
  /\ (forall p v q, parseVariableValue fuel p = Ok (v, q) ->
                    located valueLoc locsValue p v q).
Proof.
  induction fuel as [|fuel (IHv & IHa & IHc & IHw)].
  { repeat split; discriminate. }
  repeat match goal with |- _ /\ _ => split end.
  - intros p c v q H. rewrite parseValue_S in H.
    destruct (lexer.Token_Kind (Token p)) eqn:Hk; try discriminate.
    destruct (parseArray fuel p c) as [[a q1]|?|?|] eqn:E;
      try discriminate.
    apply IHa in E; [|assumption]. destruct E as (? & ? & ?).
    cbn [bind] in H. inversion H; subst. repeat split; assumption.
  - intros p c a q H Hk. rewrite parseArray_S in H.
    destruct (any _ _ _ _ _) as [[vs q1]|[? ?]|?|] eqn:E;
      try discriminate.
    apply (any_located locsValue) in E; [| |assumption].
    + destruct E as [Hc Ho].
      destruct (range_assign [] 0 vs) as [vs'|?|?|] eqn:Er;
        try discriminate.
      apply range_assign_nil_inv in Er. destruct Er as [-> ->].
      cbn [bind] in H. finish H.
    + intros p' a' q' H'. apply (located_item valueLoc).
      destruct c; [apply IHc|apply IHw]; assumption.
  - intros p v q H. rewrite parseConstValue_S in H.
    apply IHv in H. assumption.
  - intros p v q H. rewrite parseVariableValue_S in H.
    apply IHv in H. assumption.
Qed.

Lemma parseValue_located fuel p c v q :
  parseValue fuel p c = Ok (v, q) -> located valueLoc locsValue p v q.
Proof. apply (value_group_located fuel). Qed.

Lemma parseDirective_located fuel p d q :
  parseDirective fuel p = Ok (d, q) ->
  located ast.Directive_Loc locsDirective p d q.
Proof.
  unfold parseDirective. intros H. step H by expect_inv.
  destruct E as [-> ->]. pose proof (consumed_advance p).
  step H by parseName_located. destruct E as (? & ? & ?).
  step_skip H.
  - pose proof (consumed_advance p0).
    step H by parseValue_located. destruct E as (? & ? & ?). finish H.
  - cbn [bind] in H. finish H.
Qed.

Lemma parseDirectives_loop_located fuel : forall p ds ds' q,
  parseDirectives_loop fuel p ds = Ok (ds', q) ->
  reaches p q
  /\ (cursor_ok p -> Forall ordered (flat_map locsDirective ds) ->
      Forall ordered (flat_map locsDirective ds')).
Proof.
  induction fuel as [|fuel IH]; intros p ds ds' q H; [discriminate|].
  simpl in H. destruct (peek p lexer.AT); cbn [negb] in H.
  - step H by parseDirective_located. destruct E as (Hc & _ & Ho).
    apply IH in H. destruct H as [Hr Hn]. closure.
    split; [assumption|]. intros Hok Hds. apply Hn.
    + eapply cursor_ok_reaches; eassumption.
    + rewrite flat_map_snoc. apply Forall_app. split; auto.
  - inversion H; subst. split; [apply reaches_refl|auto].
Qed.

Lemma parseDirectives_located fuel p ds q :
  parseDirectives fuel p = Ok (ds, q) ->
  located_items locsDirective p ds q.
Proof.
  intros H. apply parseDirectives_loop_located in H.
  destruct H as [Hr Hn]. split; [assumption|].
  intros Hok. apply Hn; [assumption|apply Forall_nil].
Qed.

Lemma parseArgument_located fuel p a q :
  parseArgument fuel p = Ok (a, q) ->
  located ast.Argument_Loc locsArgument p a q.
Proof.
  unfold parseArgument. intros H. step H by parseName_located.
  destruct E as (? & ? & ?). step H by expect_inv.
  destruct E as [-> ->]. pose proof (consumed_advance p0).
  step H by parseValue_located. destruct E as (? & ? & ?). finish H.
Qed.

Lemma parseArguments_located fuel p args q :
  parseArguments fuel p = Ok (args, q) ->
  located_items locsArgument p args q.
Proof.
  unfold parseArguments. destruct (peek p lexer.PAREN_L).
  - destruct (many _ _ _ _ _) as [[l q1]|[? ?]|?|] eqn:E; try discriminate.
    apply many_nonempty in E.
    rewrite range_assign_nonempty_panics by assumption. discriminate.
  - intros H. inversion H; subst. split; [apply reaches_refl|].
    intros _. apply Forall_nil.
Qed.

Lemma parseVariableDefinition_located fuel p v q :
  parseVariableDefinition fuel p = Ok (v, q) ->
  located ast.VariableDefinition_Loc locsVariableDefinition p v q.
Proof.
  unfold parseVariableDefinition. intros H. step_skip H.
  - pose proof (consumed_advance p).
    step H by parseValue_located. destruct E as (? & ? & ?).
    step H by expect_inv. destruct E as [-> ->].
    pose proof (consumed_advance p0).
    step H by parseVariable_located. destruct E as (? & ? & ?).
    step H by parseType_located. destruct E as (? & ? & ?). finish H.
  - cbn [bind] in H. step H by expect_inv. destruct E as [-> ->].
    pose proof (consumed_advance p).
    step H by parseVariable_located. destruct E as (? & ? & ?).
    step H by parseType_located. destruct E as (? & ? & ?). finish H.
Qed.

Lemma parseVariableDefinitions_located fuel p vs q :
  parseVariableDefinitions fuel p = Ok (vs, q) ->
  located_items locsVariableDefinition p vs q.
Proof.
  unfold parseVariableDefinitions. destruct (peek p lexer.PAREN_L).
  - destruct (many _ _ _ _ _) as [[l q1]|[l e]|?|] eqn:E; try discriminate.
    + apply many_nonempty in E.
      rewrite range_assign_nonempty_panics by assumption. discriminate.
    + destruct (range_assign [] 0 l); discriminate.
  - intros H. inversion H; subst. split; [apply reaches_refl|].
    intros _. apply Forall_nil.
Qed.

Lemma selection_group_located fuel :
  (forall p ss q, parseSelectionSet fuel p = Ok (ss, q) ->
                  located ast.SelectionSet_Loc locsSelectionSet p ss q)
  /\ (forall p s q, parseSelection fuel p = Ok (s, q) ->
                    located selectionLoc locsSelection p s q)
  /\ (forall p s q, parseFragment fuel p = Ok (s, q) ->
                    located selectionLoc locsSelection p s q)
  /\ (forall p f q, parseField fuel p = Ok (f, q) ->
                    located ast.Field_Loc locsField p f q).
Proof.
  induction fuel as [|fuel (IHs & IHsel & IHfr & IHf)].
  { repeat split; discriminate. }
  repeat match goal with |- _ /\ _ => split end.
  - intros p ss q H. rewrite parseSelectionSet_S in H.
    destruct (many _ _ _ _ _) as [[sels q1]|[? ?]|?|] eqn:E;
      try discriminate.
    apply (many_located locsSelection) in E.
    + destruct E as [Hc Ho]. finish H.
    + intros p' a' q' H'. apply (located_item selectionLoc).
      apply IHsel. assumption.
  - intros p s q H. rewrite parseSelection_S in H.
    destruct (peek p lexer.SPREAD); [apply IHfr; assumption|].
    step H by IHf. destruct E as (? & ? & ?).
    inversion H; subst. repeat split; assumption.
  - intros p s q H. rewrite parseFragment_S in H. cbv zeta in H.
    step H by expect_inv. destruct E as [-> ->].
    pose proof (consumed_advance p).
    destruct (String.eqb _ _).
    + pose proof (consumed_advance (snd (advance p))).
      step H by parseNamedType_located. destruct E as (? & ? & ?).
      step H by parseDirectives_located. destruct E as (? & ?).
      step H by IHs. destruct E as (? & ? & ?). finish H.
    + step H by parseFragmentName_located. destruct E as (? & ? & ?).
      step H by parseDirectives_located. destruct E as (? & ?).
      finish H.
  - intros p f q H. rewrite parseField_S in H. cbv zeta in H.
    step H by parseName_located. destruct E as (? & ? & ?).
    assert (Hrest : forall nm al r,
      reaches p0 r ->
      (cursor_ok p -> Forall ordered (locsName nm)) ->
      (cursor_ok p -> Forall ordered (locsName al)) ->
      (let* (selectionSet, parser) :=
         if peek r lexer.BRACE_L then parseSelectionSet fuel r
         else Ok (ast.SelectionSet_zero, r) in
       let* (arguments, parser0) := parseArguments fuel parser in
       let* (directives, parser1) := parseDirectives fuel parser0 in
       Ok ({| ast.Field_Kind := kinds.Field;
              ast.Field_Loc := loc parser1 (lexer.Token_Start (Token p));
              ast.Field_Alias := al;
              ast.Field_Name := nm;
              ast.Field_Arguments := arguments;
              ast.Field_Directives := directives;
              ast.Field_SelectionSet := selectionSet |}, parser1))
      = Ok (f, q) ->
      located ast.Field_Loc locsField p f q).
    { intros nm al r Hr Hnm Hal H'.
      destruct (peek r lexer.BRACE_L).
      - step H' by IHs. destruct E as (? & ? & ?).
        step H' by parseArguments_located. destruct E as (? & ?).
        step H' by parseDirectives_located. destruct E as (? & ?).
        finish H'.
      - cbn [bind] in H'.
        step H' by parseArguments_located. destruct E as (? & ?).
        step H' by parseDirectives_located. destruct E as (? & ?).
        finish H'. }
    step_skip H.
    + pose proof (consumed_advance p0).
      destruct (parseName (snd (advance p0))) as [[n1 r1]|?|?|] eqn:E1;
        try discriminate.
      apply parseName_located in E1. destruct E1 as (? & ? & ?).
      cbn [bind] in H. closure.
      apply (Hrest n1 n r1); try assumption.
      intros Hok. use_ok. assumption.
    + cbn [bind] in H.
      apply (Hrest n ast.Name_zero p0); try assumption.
      * apply reaches_refl.
      * intros _. apply Forall_cons; [apply ordered_zero|apply Forall_nil].
Qed.

Lemma parseSelectionSet_located fuel p ss q :
  parseSelectionSet fuel p = Ok (ss, q) ->
  located ast.SelectionSet_Loc locsSelectionSet p ss q.
Proof. apply (selection_group_located fuel). Qed.

Lemma parseOperationDefinition_located fuel p o q :
  parseOperationDefinition fuel p = Ok (o, q) ->
  located ast.OperationDefinition_Loc locsOperationDefinition p o q.
Proof.
  unfold parseOperationDefinition. intros H.
  destruct (peek p lexer.BRACE_L).
  - step H by parseSelectionSet_located. destruct E as (? & ? & ?).
    finish H.
  - step H by expect_inv. destruct E as [-> ->].
    pose proof (consumed_advance p).
    step H by parseName_located. destruct E as (? & ? & ?).
    step H by parseVariableDefinitions_located. destruct E as (? & ?).
    step H by parseDirectives_located. destruct E as (? & ?).
    step H by parseSelectionSet_located. destruct E as (? & ? & ?).
    finish H.
Qed.

Lemma parseFragmentDefinition_located fuel p f q :
  parseFragmentDefinition fuel p = Ok (f, q) ->
  located ast.FragmentDefinition_Loc locsFragmentDefinition p f q.
Proof.
  unfold parseFragmentDefinition. intros H.
  step H by expectKeyWord_inv. destruct E as [-> ->].
  pose proof (consumed_advance p).
  step H by parseFragmentName_located. destruct E as (? & ? & ?).
  step H by expectKeyWord_inv. destruct E as [-> ->].
  pose proof (consumed_advance p0).
  step H by parseNamedType_located. destruct E as (? & ? & ?).
  step H by parseSelectionSet_located. destruct E as (? & ? & ?).
  step H by parseDirectives_located. destruct E as (? & ?).
  finish H.
Qed.

Lemma parseDocument_loop_located fuel : forall p ds ds' q,
  parseDocument_loop fuel p ds = Ok (ds', q) ->
  consumed p q
  /\ (cursor_ok p -> Forall ordered (flat_map locsDefinition ds) ->
      Forall ordered (flat_map locsDefinition ds')).
Proof.
  induction fuel as [|fuel IH]; intros p ds ds' q H; [discriminate|].
  simpl in H. step_skip H.
  { inversion H; subst. split; [apply consumed_advance|auto]. }
  assert (Hop : forall d,
    (let* (oDef, parser) := parseOperationDefinition fuel p in
     parseDocument_loop fuel parser (ds ++ [ast.Definition_Operation oDef]))
    = Ok (d, q) ->
    consumed p q
    /\ (cursor_ok p -> Forall ordered (flat_map locsDefinition ds) ->
        Forall ordered (flat_map locsDefinition d))).
  { intros d H'. step H' by parseOperationDefinition_located.
    destruct E as (Hc & _ & Ho). apply IH in H'. destruct H' as [Hc' Hn].
    closure. split; [assumption|]. intros Hok Hds. apply Hn.
    - eapply cursor_ok_reaches; eassumption.
    - rewrite flat_map_snoc. apply Forall_app. split; auto. }
  destruct (peek p lexer.BRACE_L); [apply Hop; assumption|].
  destruct (peek p lexer.NAME); [|discriminate].
  destruct (_ || _)%bool; [apply Hop; assumption|].
  destruct (String.eqb _ _); [|discriminate].
  step H by parseFragmentDefinition_located.
  destruct E as (Hc & _ & Ho). apply IH in H. destruct H as [Hc' Hn].
  closure. split; [assumption|]. intros Hok Hds. apply Hn.
  - eapply cursor_ok_reaches; eassumption.
  - rewrite flat_map_snoc. apply Forall_app. split; auto.
Qed.

Lemma parseDocument_located fuel p d q :
  parseDocument fuel p = Ok (d, q) ->
  located ast.Document_Loc locsDocument p d q.
Proof.
  unfold parseDocument. intros H.
  destruct (parseDocument_loop fuel p []) as [[ds q1]|?|?|] eqn:E;
    try discriminate.
  apply parseDocument_loop_located in E. destruct E as [Hc Hn].
  cbn [bind] in H. inversion H; subst; clear H.
  split; [assumption|split; [reflexivity|]].
  intros Hok. unfold locsDocument; cbn. apply Forall_cons.
  - apply ordered_loc; assumption.
  - apply Hn; [assumption|apply Forall_nil].
Qed.

Lemma located_records_span {A} (getLoc : A -> ast.Location) locs
      (f : parseFn A) :
  (forall p a q, f p = Ok (a, q) -> located getLoc locs p a q) ->
  records_span getLoc f.
Proof.
  intros Hf p a q Ho H. destruct (Hf _ _ _ H) as ([last Hc] & Hl & _).
  exists last. split; [assumption|].
  rewrite Hl. apply loc_span; assumption.
Qed.

(** The type that a trailing [!] wraps was located before the [!] was
    consumed. *)
Lemma parseType_inner_span fuel p k l inner q :
  Options p = defaultOptions ->
  parseType fuel p = Ok (ast.Type_NonNullType k l inner, q) ->
  exists last m,
    consumes p last m
    /\ lexer.Token_Kind (Token m) = lexer.BANG
    /\ q = snd (advance m)
    /\ typeLoc inner = span (Source p) (Token p) last.
Proof.
  intros Hopt H. destruct fuel as [|fuel]; [discriminate|].
  rewrite parseType_S in H. cbv zeta in H. step_skip H.
  - pose proof (consumed_advance p) as Hadv.
    destruct (parseType fuel (snd (advance p))) as [[t1 q1]|?|?|] eqn:E1;
      try discriminate.
    apply parseType_located in E1. destruct E1 as (Hc1 & _ & _).
    cbn [bind] in H.
    destruct (expect q1 lexer.BRACKET_R) as [[t2 q2]|?|?|] eqn:E2;
      try discriminate.
    apply expect_inv in E2. destruct E2 as [-> ->].
    pose proof (consumed_advance q1) as Hadv1. cbn [bind] in H.
    step_skip H; inversion H; subst.
    assert (Hc : consumed p (snd (advance q1))) by (closure; assumption).
    destruct Hc as [last Hc]. exists last, (snd (advance q1)).
    repeat split; try assumption. cbn. apply loc_span; assumption.
  - destruct (parseNamedType p) as [[n q1]|?|?|] eqn:E1; try discriminate.
    apply parseNamedType_located in E1.
    destruct E1 as ([last Hc] & Hl & _). cbn [bind] in H.
    step_skip H; inversion H; subst.
    exists last, q1. repeat split; try assumption.
    cbn. rewrite Hl. apply loc_span; assumption.
Qed.

Lemma makeParser_cursor_ok Lex s opts p :
  lexer_sane (Lex s) -> makeParser Lex s opts = Ok p -> cursor_ok p.
Proof.
  unfold makeParser. intros Hl H.
  destruct (Lex s 0) as [t|e] eqn:E; [|discriminate].
  inversion H; subst. destruct (Hl _ _ E) as [H0 H1].
  split; [exact Hl|]. cbn. lia.
Qed.

(** C6. Under the default options every production gives the node it
    builds the location that starts at the start of the first token of
    the production and ends at the end of the last token consumed while
    building the node (the cursor's previous end when the production
    returns); the type under a trailing [!] ends at the last token
    before the [!].  With a tokenizer that keeps its contract (a token
    begins at or after the offset asked for and ends at or after its
    start), every location of a parsed document has its end at or
    after its start. *)
Theorem locations_span_consumed_tokens :
  records_span ast.Name_Loc parseName
  /\ records_span ast.NamedType_Loc parseNamedType
  /\ records_span ast.Name_Loc parseFragmentName
  /\ records_span ast.Variable_Loc parseVariable
  /\ (forall fuel, records_span typeLoc (parseType fuel))
  /\ (forall fuel p k l inner q,
         Options p = defaultOptions ->
         parseType fuel p = Ok (ast.Type_NonNullType k l inner, q) ->
         exists last m,
           consumes p last m
           /\ lexer.Token_Kind (Token m) = lexer.BANG
           /\ q = snd (advance m)
           /\ typeLoc inner = span (Source p) (Token p) last)
  /\ (forall fuel isConst,
         records_span valueLoc (fun p => parseValue fuel p isConst))
  /\ (forall fuel, records_span ast.Directive_Loc (parseDirective fuel))
  /\ (forall fuel, records_span ast.Argument_Loc (parseArgument fuel))
  /\ (forall fuel,
         records_span ast.VariableDefinition_Loc
                      (parseVariableDefinition fuel))
  /\ (forall fuel,
         records_span ast.SelectionSet_Loc (parseSelectionSet fuel))
  /\ (forall fuel, records_span selectionLoc (parseSelection fuel))
  /\ (forall fuel, records_span selectionLoc (parseFragment fuel))
  /\ (forall fuel, records_span ast.Field_Loc (parseField fuel))
  /\ (forall fuel,
         records_span ast.OperationDefinition_Loc
                      (parseOperationDefinition fuel))
  /\ (forall fuel,
         records_span ast.FragmentDefinition_Loc
                      (parseFragmentDefinition fuel))
  /\ (forall fuel, records_span ast.Document_Loc (parseDocument fuel))
  /\ (forall Lex fuel src opts doc,
         (forall s, lexer_sane (Lex s)) ->
         Parse Lex fuel {| Params_Source := src; Params_Options := opts |}
         = Ok doc ->
         Forall ordered (locsDocument doc)).
Proof.
  repeat match goal with |- _ /\ _ => split end.
  - apply (located_records_span _ locsName), parseName_located.
  - apply (located_records_span _ locsNamedType), parseNamedType_located.
  - apply (located_records_span _ locsName), parseFragmentName_located.
  - apply (located_records_span _ locsVariable), parseVariable_located.
  - intros fuel. apply (located_records_span _ locsType).
    apply parseType_located.
  - intros fuel p k l inner q. apply parseType_inner_span.
  - intros fuel c. apply (located_records_span _ locsValue).
    intros p a q. apply parseValue_located.
  - intros fuel. apply (located_records_span _ locsDirective).
    apply parseDirective_located.
  - intros fuel. apply (located_records_span _ locsArgument).
    apply parseArgument_located.
  - intros fuel. apply (located_records_span _ locsVariableDefinition).
    apply parseVariableDefinition_located.
  - intros fuel. apply (located_records_span _ locsSelectionSet).
    apply parseSelectionSet_located.
  - intros fuel. apply (located_records_span _ locsSelection).
    apply (selection_group_located fuel).
  - intros fuel. apply (located_records_span _ locsSelection).
    apply (selection_group_located fuel).
  - intros fuel. apply (located_records_span _ locsField).
    apply (selection_group_located fuel).
  - intros fuel. apply (located_records_span _ locsOperationDefinition).
    apply parseOperationDefinition_located.
  - intros fuel. apply (located_records_span _ locsFragmentDefinition).
    apply parseFragmentDefinition_located.
  - intros fuel. apply (located_records_span _ locsDocument).
    apply parseDocument_located.
  - intros Lex fuel src opts doc Hl H. unfold Parse in H.
    cbn [Params_Source Params_Options] in H.
    destruct (makeParser Lex _ opts) as [p0|?|?|] eqn:Emk; try discriminate.
    cbn [bind] in H.
    destruct (parseDocument fuel p0) as [[d q]|?|?|] eqn:Ed;
      try discriminate.
    cbn [bind] in H. inversion H; subst.
    apply parseDocument_located in Ed. destruct Ed as (_ & _ & Ho).
    apply Ho. eapply makeParser_cursor_ok; [apply Hl|eassumption].
Qed.

Lemma locations_span_consumed_tokens_witness :
  let p := {| LexToken := lexer.Lex hero_source; Source := hero_source;
              Options := defaultOptions; PrevEnd := 0;
              Token := lexer.makeToken lexer.BRACE_L 0 1 EmptyString |} in
  (exists q last,
      parseDocument 10 p = Ok (hero_document, q)
      /\ consumes p last q
      /\ ast.Document_Loc hero_document = span hero_source (Token p) last)
  /\ Forall ordered (locsDocument hero_document).
Proof.
  intros p.
  destruct locations_span_consumed_tokens
    as (_ & _ & _ & _ & _ & _ & _ & _ & _ & _ & _ & _ & _ & _ & _ & _
        & Hdoc & Hparse).
  assert (HP : Parse lexer.Lex 10
                 {| Params_Source := SourceObj hero_source;
                    Params_Options := defaultOptions |} = Ok hero_document)
    by (vm_compute; reflexivity).
  split.
  - destruct (Parse_inv _ _ _ _ _ HP) as (p0 & q & Hmk & E).
    assert (Hp : Ok p = Ok (E := graphqlerrors.error) p0)
      by (rewrite <- Hmk; reflexivity).
    inversion Hp; subst p0.
    destruct (Hdoc 10%nat p _ _ eq_refl E) as (last & Hc & Hl).
    exists q, last. repeat split; assumption.
  - exact (Hparse lexer.Lex 10%nat _ _ _ Lex_sane HP).
Defined.

(* ------------------------------------------------------------------ *)
(** ** Determinism *)



(* ------------------------------------------------------------------ *)
(** ** The document loop *)

(** End of input: when the first token is [EOF] the document has no
    definition, and its location runs from the start to the end of that
    token. *)
Theorem empty_document :
  forall Lex fuel src opts p0,
    makeParser Lex src opts = Ok p0 ->
    lexer.Token_Kind (Token p0) = lexer.EOF ->
    Parse Lex (S fuel) {| Params_Source := SourceObj src;
                          Params_Options := opts |}
    = Ok {| ast.Document_Kind := kinds.Document;
            ast.Document_Loc :=
              loc (snd (advance p0)) (lexer.Token_Start (Token p0));
            ast.Document_Definitions := [] |}
    /\ PrevEnd (snd (advance p0)) = lexer.Token_End (Token p0).
Proof.
  intros Lex fuel src opts p0 Hmk Hk. split; [|apply advance_PrevEnd].
  unfold Parse. cbn [Params_Source Params_Options]. rewrite Hmk.
  cbn [bind]. unfold parseDocument. simpl parseDocument_loop.
  rewrite (skip_true _ _ Hk). reflexivity.
Qed.

Lemma empty_document_witness :
  let s := source.NewSource " ,  " EmptyString in
  let p := {| LexToken := lexer.Lex s; Source := s;
              Options := defaultOptions; PrevEnd := 0;
              Token := lexer.makeToken lexer.EOF 4 0 EmptyString |} in
  (makeParser lexer.Lex s defaultOptions = Ok p
   /\ lexer.Token_Kind (Token p) = lexer.EOF)
  /\ Parse lexer.Lex 1 {| Params_Source := SourceObj s;
                          Params_Options := defaultOptions |}
     = Ok {| ast.Document_Kind := kinds.Document;
             ast.Document_Loc := loc (snd (advance p)) 4;
             ast.Document_Definitions := [] |}.
Proof.
  intros s p. split; [split; reflexivity|].
  exact (proj1 (empty_document lexer.Lex 0 s defaultOptions p
                  eq_refl eq_refl)).
Defined.

(** The dispatch of [parseDocument]: a token that is not the end of
    input, an opening brace or a name, and a name other than [query],
    [mutation] and [fragment], is rejected as unexpected at its start,
    at the top of the document as after any definition. *)
Theorem document_dispatch_rejects :
  (forall fuel p ds,
      lexer.Token_Kind (Token p) <> lexer.EOF ->
      lexer.Token_Kind (Token p) <> lexer.BRACE_L ->
      (lexer.Token_Kind (Token p) = lexer.NAME ->
       lexer.Token_Value (Token p) <> "query"%string
       /\ lexer.Token_Value (Token p) <> "mutation"%string
       /\ lexer.Token_Value (Token p) <> "fragment"%string) ->
      parseDocument_loop (S fuel) p ds
      = Err (graphqlerrors.SyntaxError (Source p)
               (lexer.Token_Start (Token p))
               ("Unexpected " +++ lexer.GetTokenDesc (Token p))))
  /\ (forall Lex fuel src opts p0,
         makeParser Lex src opts = Ok p0 ->
         lexer.Token_Kind (Token p0) <> lexer.EOF ->
         lexer.Token_Kind (Token p0) <> lexer.BRACE_L ->
         (lexer.Token_Kind (Token p0) = lexer.NAME ->
          lexer.Token_Value (Token p0) <> "query"%string
          /\ lexer.Token_Value (Token p0) <> "mutation"%string
          /\ lexer.Token_Value (Token p0) <> "fragment"%string) ->
         Parse Lex (S fuel) {| Params_Source := SourceObj src;
                               Params_Options := opts |}
         = Err (graphqlerrors.SyntaxError src
                  (lexer.Token_Start (Token p0))
                  ("Unexpected " +++ lexer.GetTokenDesc (Token p0)))).
Proof.
  assert (Hloop : forall fuel p ds,
      lexer.Token_Kind (Token p) <> lexer.EOF ->
      lexer.Token_Kind (Token p) <> lexer.BRACE_L ->
      (lexer.Token_Kind (Token p) = lexer.NAME ->
       lexer.Token_Value (Token p) <> "query"%string
       /\ lexer.Token_Value (Token p) <> "mutation"%string
       /\ lexer.Token_Value (Token p) <> "fragment"%string) ->
      parseDocument_loop (S fuel) p ds
      = Err (graphqlerrors.SyntaxError (Source p)
               (lexer.Token_Start (Token p))
               ("Unexpected " +++ lexer.GetTokenDesc (Token p)))).
  { intros fuel p ds He Hb Hn. simpl.
    rewrite (skip_false _ _ He), (peek_false _ _ Hb).
    unfold peek.
    destruct (lexer.TokenKind_beq (lexer.Token_Kind (Token p)) lexer.NAME)
      eqn:Ek; [|reflexivity].
    apply TokenKind_beq_eq in Ek. destruct (Hn Ek) as (Hq & Hm & Hf).
    apply String.eqb_neq in Hq, Hm, Hf. rewrite Hq, Hm, Hf. reflexivity. }
  split; [exact Hloop|].
  intros Lex fuel src opts p0 Hmk He Hb Hn. unfold Parse.
  cbn [Params_Source Params_Options]. rewrite Hmk. cbn [bind].
  unfold parseDocument. rewrite (Hloop fuel p0 [] He Hb Hn). cbn [bind].
  unfold makeParser in Hmk. destruct (Lex src 0); [|discriminate].
  inversion Hmk; subst. reflexivity.
Qed.

Lemma document_dispatch_rejects_witness :
  let s := source.NewSource "subscription { a }" EmptyString in
  let p := {| LexToken := lexer.Lex s; Source := s;
              Options := defaultOptions; PrevEnd := 0;
              Token := lexer.makeToken lexer.NAME 0 12 "subscription" |} in
  makeParser lexer.Lex s defaultOptions = Ok p
  /\ Parse lexer.Lex 1 {| Params_Source := SourceObj s;
                          Params_Options := defaultOptions |}
     = Err (graphqlerrors.SyntaxError s 0
              ("Unexpected Name " +++ dquote +++ "subscription" +++ dquote)).
Proof.
  intros s p. split; [reflexivity|].
  apply (proj2 document_dispatch_rejects lexer.Lex 0%nat s defaultOptions p).
  - reflexivity.
  - discriminate.
  - discriminate.
  - intros _. repeat split; discriminate.
Defined.

(* ------------------------------------------------------------------ *)
(** ** What the accepted productions look like *)

Lemma expect_inv_kind p k t q :
  expect p k = Ok (t, q) -> lexer.Token_Kind (Token p) = k.
Proof.
  unfold expect. destruct (lexer.TokenKind_beq _ _) eqn:E; [|discriminate].
  intros _. apply TokenKind_beq_eq. assumption.
Qed.

Lemma parseName_inv p n q :
  parseName p = Ok (n, q) ->
  lexer.Token_Kind (Token p) = lexer.NAME
  /\ q = snd (advance p)
  /\ n = {| ast.Name_Kind := kinds.Name;
            ast.Name_Loc := loc q (lexer.Token_Start (Token p));
            ast.Name_Value := lexer.Token_Value (Token p) |}.
Proof.
  unfold parseName. intros H.
  destruct (expect p lexer.NAME) as [[t q1]|?|?|] eqn:E; try discriminate.
  pose proof (expect_inv_kind _ _ _ _ E) as Hk.
  apply expect_inv in E. destruct E as [-> ->].
  cbn [bind] in H. inversion H; subst. auto.
Qed.

Lemma any_loop_extends {A} (f : parseFn A) fuel :
  forall p c nodes nodes' p',
    any_loop fuel p f c nodes = Ok (nodes', p') ->
    exists rest, nodes' = (nodes ++ rest)%list.
Proof.
  induction fuel as [|fuel IH]; intros p c nodes nodes' p' H;
    [discriminate|].
  simpl in H. destruct (skip p c) as [[|] p1].
  - inversion H; subst. exists []. rewrite app_nil_r. reflexivity.
  - destruct (f p1) as [[node p2]|e|msg|]; try discriminate.
    destruct (IH _ _ _ _ _ H) as [rest Hrest].
    exists (node :: rest). rewrite Hrest, <- app_assoc. reflexivity.
Qed.

Lemma any_loop_empty_inv {A} (f : parseFn A) fuel p c q :
  any_loop fuel p f c [] = Ok ([], q) ->
  lexer.Token_Kind (Token p) = c /\ q = snd (advance p).
Proof.
  destruct fuel as [|fuel]; [discriminate|]. simpl.
  destruct (skip p c) as [b p1] eqn:Es. apply skip_inv in Es.
  destruct Es as [(-> & -> & Hk)|(-> & ->)].
  - intros H. inversion H. auto.
  - destruct (f p) as [[node p2]|e|msg|]; try discriminate.
    intros H. apply any_loop_extends in H. destruct H as [rest H].
    destruct rest; discriminate.
Qed.

(** Because of the copy loop, the lists that the parser returns are
    empty ones: an argument list and a variable-definition list are
    returned only where there is no parenthesis (and then nothing is
    consumed), and a value is returned only for the two tokens [{]
    and []], as the array without items. *)
Theorem accepted_lists_are_empty :
  (forall fuel p args q,
      parseArguments fuel p = Ok (args, q) ->
      args = [] /\ q = p /\ lexer.Token_Kind (Token p) <> lexer.PAREN_L)
  /\ (forall fuel p vs q,
         parseVariableDefinitions fuel p = Ok (vs, q) ->
         vs = [] /\ q = p /\ lexer.Token_Kind (Token p) <> lexer.PAREN_L)
  /\ (forall fuel p isConst v q,
         parseValue fuel p isConst = Ok (v, q) ->
         lexer.Token_Kind (Token p) = lexer.BRACE_L
         /\ lexer.Token_Kind (Token (snd (advance p))) = lexer.BRACKET_R
         /\ q = snd (advance (snd (advance p)))
         /\ v = ast.Value_ArrayValue kinds.Array
                  (loc q (lexer.Token_Start (Token p))) []).
Proof.
  split; [|split].
  - intros fuel p args q. unfold parseArguments, peek.
    destruct (lexer.TokenKind_beq _ _) eqn:Ek.
    + destruct (many _ _ _ _ _) as [[l q1]|[? ?]|?|] eqn:E;
        try discriminate.
      apply many_nonempty in E.
      rewrite range_assign_nonempty_panics by assumption. discriminate.
    + intros H. inversion H; subst. repeat split.
      intros Hk. rewrite Hk in Ek. discriminate.
  - intros fuel p vs q. unfold parseVariableDefinitions, peek.
    destruct (lexer.TokenKind_beq _ _) eqn:Ek.
    + destruct (many _ _ _ _ _) as [[l q1]|[l e]|?|] eqn:E;
        try discriminate.
      * apply many_nonempty in E.
        rewrite range_assign_nonempty_panics by assumption. discriminate.
      * destruct (range_assign [] 0 l); discriminate.
    + intros H. inversion H; subst. repeat split.
      intros Hk. rewrite Hk in Ek. discriminate.
  - intros fuel p c v q H. destruct fuel as [|fuel]; [discriminate|].
    rewrite parseValue_S in H.
    destruct (lexer.Token_Kind (Token p)) eqn:Hk; try discriminate.
    destruct fuel as [|fuel]; [discriminate|].
    rewrite parseArray_S in H.
    destruct (any _ _ _ _ _) as [[vs q1]|[? ?]|?|] eqn:E;
      try discriminate.
    destruct (range_assign [] 0 vs) as [vs'|?|?|] eqn:Er;
      try discriminate.
    apply range_assign_nil_inv in Er. destruct Er as [-> ->].
    cbn [bind] in H. inversion H; subst; clear H.
    unfold any in E. rewrite (expect_ok _ _ Hk) in E.
    apply any_loop_empty_inv in E. destruct E as [Hk' ->].
    repeat split; assumption.
Qed.

Lemma accepted_lists_are_empty_witness :
  let p := parserOn "{] x" (lexer.makeToken lexer.BRACE_L 0 1 EmptyString) in
  exists q,
    parseValue 3 p false
    = Ok (ast.Value_ArrayValue kinds.Array (locOn "{] x" 0 2) [], q)
    /\ lexer.Token_Kind (Token (snd (advance p))) = lexer.BRACKET_R
    /\ q = snd (advance (snd (advance p))).
Proof.
  intros p.
  assert (R : runOn (fun q => parseValue 3 q false) "{] x" defaultOptions
              = Ok (ast.Value_ArrayValue kinds.Array (locOn "{] x" 0 2) []))
    by (vm_compute; reflexivity).
  destruct (runOn_inv _ _ _ _ R) as (p0 & q & Hmk & E).
  assert (Hp : Ok p = Ok (E := graphqlerrors.error) p0)
    by (rewrite <- Hmk; reflexivity).
  inversion Hp; subst p0. exists q. split; [exact E|].
  destruct (proj2 (proj2 accepted_lists_are_empty) _ _ _ _ _ E)
    as (_ & Hk & Hq & _).
  split; assumption.
Defined.

(** [parseType] returns a well-formed type reference: never nil, and
    never a non-null wrapper directly around another one (a second [!]
    is left to the caller). *)
Theorem parseType_well_formed :
  forall fuel p t q, parseType fuel p = Ok (t, q) -> wfType t.
Proof.
  induction fuel as [|fuel IH]; intros p t q H; [discriminate|].
  rewrite parseType_S in H. cbv zeta in H.
  destruct (skip p lexer.BRACE_L) as [[|] p1].
  - destruct (parseType fuel p1) as [[t1 q1]|?|?|] eqn:E1;
      try discriminate.
    apply IH in E1. cbn [bind] in H.
    destruct (expect q1 lexer.BRACKET_R) as [[t2 q2]|?|?|];
      try discriminate.
    cbn [bind] in H.
    destruct (skip q2 lexer.BANG) as [[|] q3]; inversion H; subst; cbn;
      auto.
  - destruct (parseNamedType p1) as [[n q1]|?|?|] eqn:E1;
      try discriminate.
    unfold parseNamedType in E1.
    destruct (parseName p1) as [[nm q0]|?|?|] eqn:E0; try discriminate.
    apply parseName_inv in E0. destruct E0 as (_ & _ & ->).
    cbn [bind] in E1. inversion E1; subst; clear E1. cbn [bind] in H.
    destruct (skip q1 lexer.BANG) as [[|] q3]; inversion H; subst; cbn;
      auto.
Qed.

Lemma parseType_well_formed_witness :
  let p := parserOn "{Int!]!!"
                    (lexer.makeToken lexer.BRACE_L 0 1 EmptyString) in
  let t :=
    ast.Type_NonNullType kinds.NonNullType (locOn "{Int!]!!" 0 7)
      (ast.Type_ListType kinds.ListType (locOn "{Int!]!!" 0 6)
         (ast.Type_NonNullType kinds.NonNullType (locOn "{Int!]!!" 1 5)
            (ast.Type_NamedType kinds.NamedType (locOn "{Int!]!!" 1 4)
               {| ast.Name_Kind := kinds.Name;
                  ast.Name_Loc := locOn "{Int!]!!" 1 4;
                  ast.Name_Value := "Int" |} ast.Type_nil))) in
  exists q, parseType 5 p = Ok (t, q) /\ wfType t.
Proof.
  intros p t.
  assert (R : runOn (parseType 5) "{Int!]!!" defaultOptions = Ok t)
    by (vm_compute; reflexivity).
  destruct (runOn_inv _ _ _ _ R) as (p0 & q & Hmk & E).
  assert (Hp : Ok p = Ok (E := graphqlerrors.error) p0)
    by (rewrite <- Hmk; reflexivity).
  inversion Hp; subst p0. exists q. split; [exact E|].
  exact (parseType_well_formed _ _ _ _ E).
Defined.

(* ------------------------------------------------------------------ *)
(** ** Fields and directives *)

(** The steps of [parseField] after its first name, as one equation. *)
Lemma parseField_after_name fuel p :
  lexer.Token_Kind (Token p) = lexer.NAME ->
  parseField (S fuel) p =
  let first := {| ast.Name_Kind := kinds.Name;
                  ast.Name_Loc := loc (snd (advance p))
                                      (lexer.Token_Start (Token p));
                  ast.Name_Value := lexer.Token_Value (Token p) |} in
  let p1 := snd (advance p) in
  let '(isAlias, p2) := skip p1 lexer.COLON in
  let* (names, p3) :=
    if isAlias then
      let* (n, parser) := parseName p2 in Ok ((n, first), parser)
    else Ok ((first, ast.Name_zero), p2) in
  let '(name, alias) := names in
  let* (selectionSet, p4) :=
    if peek p3 lexer.BRACE_L then parseSelectionSet fuel p3
    else Ok (ast.SelectionSet_zero, p3) in
  let* (arguments, p5) := parseArguments fuel p4 in
  let* (directives, p6) := parseDirectives fuel p5 in
  Ok ({| ast.Field_Kind := kinds.Field;
         ast.Field_Alias := alias;
         ast.Field_Name := name;
         ast.Field_Arguments := arguments;
         ast.Field_Directives := directives;
         ast.Field_SelectionSet := selectionSet;
         ast.Field_Loc := loc p6 (lexer.Token_Start (Token p)) |}, p6).
Proof.
  intros Hk. rewrite parseField_S. cbv zeta. unfold parseName at 1.
  rewrite (expect_ok _ _ Hk). reflexivity.
Qed.

Lemma parseField_needs_name fuel p f q :
  parseField fuel p = Ok (f, q) ->
  lexer.Token_Kind (Token p) = lexer.NAME.
Proof.
  destruct fuel as [|fuel]; [discriminate|]. rewrite parseField_S.
  cbv zeta. intros H.
  destruct (parseName p) as [[n q1]|?|?|] eqn:E; try discriminate.
  apply parseName_inv in E. apply E.
Qed.

(** A field alias is recognised only when a [:] follows the first
    name: then the first name is the alias and the name token after
    the [:] is the field's name; otherwise the alias is the zero name
    and the first name is the field's name. *)
Theorem parseField_alias_and_name :
  forall fuel p f q,
    parseField fuel p = Ok (f, q) ->
    lexer.Token_Kind (Token p) = lexer.NAME
    /\ (lexer.Token_Kind (Token (advances 1 p)) = lexer.COLON ->
        ast.Name_Value (ast.Field_Alias f) = lexer.Token_Value (Token p)
        /\ ast.Name_Kind (ast.Field_Alias f) = kinds.Name
        /\ lexer.Token_Kind (Token (advances 2 p)) = lexer.NAME
        /\ ast.Name_Value (ast.Field_Name f)
           = lexer.Token_Value (Token (advances 2 p)))
    /\ (lexer.Token_Kind (Token (advances 1 p)) <> lexer.COLON ->
        ast.Field_Alias f = ast.Name_zero
        /\ ast.Name_Value (ast.Field_Name f) = lexer.Token_Value (Token p)).
Proof.
  intros fuel p f q H.
  pose proof (parseField_needs_name _ _ _ _ H) as Hk.
  split; [assumption|].
  destruct fuel as [|fuel]; [discriminate|].
  rewrite (parseField_after_name _ _ Hk) in H. cbv zeta in H.
  change (advances 1 p) with (snd (advance p)).
  change (advances 2 p) with (snd (advance (snd (advance p)))).
  split; intros Hc.
  - rewrite (skip_true _ _ Hc) in H.
    destruct (parseName (snd (advance (snd (advance p)))))
      as [[n q1]|?|?|] eqn:E; try discriminate.
    apply parseName_inv in E. destruct E as (Hn & -> & ->).
    cbn [bind] in H.
    destruct (if peek _ _ then _ else _) as [[ss q2]|?|?|];
      try discriminate. cbn [bind] in H.
    destruct (parseArguments fuel q2) as [[args q3]|?|?|];
      try discriminate. cbn [bind] in H.
    destruct (parseDirectives fuel q3) as [[ds q4]|?|?|];
      try discriminate. cbn [bind] in H.
    inversion H; subst; cbn. auto.
  - rewrite (skip_false _ _ Hc) in H. cbn [bind] in H.
    destruct (if peek _ _ then _ else _) as [[ss q2]|?|?|];
      try discriminate. cbn [bind] in H.
    destruct (parseArguments fuel q2) as [[args q3]|?|?|];
      try discriminate. cbn [bind] in H.
    destruct (parseDirectives fuel q3) as [[ds q4]|?|?|];
      try discriminate. cbn [bind] in H.
    inversion H; subst; cbn. auto.
Qed.

Lemma parseField_alias_and_name_witness :
  let p := parserOn "user: profile { id }"
                    (lexer.makeToken lexer.NAME 0 4 "user") in
  exists f q,
    parseField 8 p = Ok (f, q)
    /\ ast.Name_Value (ast.Field_Alias f) = "user"%string
    /\ ast.Name_Value (ast.Field_Name f) = "profile"%string.
Proof.
  intros p.
  assert (R : mapResult (fun _ => tt) (parseField 8 p) = Ok tt)
    by (vm_compute; reflexivity).
  destruct (returns_some _ R) as (f & q & E).
  exists f, q. split; [exact E|].
  destruct (parseField_alias_and_name _ _ _ _ E) as (_ & Ha & _).
  destruct (Ha eq_refl) as (H1 & _ & _ & H2).
  split; [exact H1|exact H2].
Defined.

(** [parseField] looks for the selection set right after the field's
    name, before the arguments and the directives: the field has a
    selection set exactly when a [{] follows the name, and it is then
    the non-empty set that [parseSelectionSet] parses from there; with
    any other token there, a directive for one, the selection set is
    the zero value.  The argument list of a returned field is empty. *)
Theorem parseField_selection_set_follows_name :
  forall fuel p f q,
    parseField (S fuel) p = Ok (f, q) ->
    (lexer.Token_Kind (Token (afterFieldName p)) <> lexer.BRACE_L ->
     ast.Field_SelectionSet f = ast.SelectionSet_zero)
    /\ (lexer.Token_Kind (Token (afterFieldName p)) = lexer.BRACE_L ->
        (exists q',
            parseSelectionSet fuel (afterFieldName p)
            = Ok (ast.Field_SelectionSet f, q'))
        /\ ast.SelectionSet_Selections (ast.Field_SelectionSet f) <> [])
    /\ ast.Field_Arguments f = [].
Proof.
  intros fuel p f q H.
  pose proof (parseField_needs_name _ _ _ _ H) as Hk.
  rewrite (parseField_after_name _ _ Hk) in H. cbv zeta in H.
  assert (Hrest : forall names p3,
    (let '(name, alias) := names in
     let* (selectionSet, p4) :=
       if peek p3 lexer.BRACE_L then parseSelectionSet fuel p3
       else Ok (ast.SelectionSet_zero, p3) in
     let* (arguments, p5) := parseArguments fuel p4 in
     let* (directives, p6) := parseDirectives fuel p5 in
     Ok ({| ast.Field_Kind := kinds.Field;
            ast.Field_Alias := alias;
            ast.Field_Name := name;
            ast.Field_Arguments := arguments;
            ast.Field_Directives := directives;
            ast.Field_SelectionSet := selectionSet;
            ast.Field_Loc := loc p6 (lexer.Token_Start (Token p)) |}, p6))
    = Ok (f, q) ->
    (lexer.Token_Kind (Token p3) <> lexer.BRACE_L ->
     ast.Field_SelectionSet f = ast.SelectionSet_zero)
    /\ (lexer.Token_Kind (Token p3) = lexer.BRACE_L ->
        (exists q',
            parseSelectionSet fuel p3 = Ok (ast.Field_SelectionSet f, q'))
        /\ ast.SelectionSet_Selections (ast.Field_SelectionSet f) <> [])
    /\ ast.Field_Arguments f = []).
  { intros [name alias] p3 H'.
    destruct (if peek p3 lexer.BRACE_L then _ else _)
      as [[ss q2]|?|?|] eqn:Ess; try discriminate. cbn [bind] in H'.
    destruct (parseArguments fuel q2) as [[args q3]|?|?|] eqn:Ea;
      try discriminate. cbn [bind] in H'.
    apply (proj1 accepted_lists_are_empty) in Ea. destruct Ea as (-> & _).
    destruct (parseDirectives fuel q3) as [[ds q4]|?|?|];
      try discriminate. cbn [bind] in H'.
    inversion H'; subst; cbn. split; [|split; [|reflexivity]].
    - intros Hn. rewrite (peek_false _ _ Hn) in Ess.
      inversion Ess. reflexivity.
    - intros Hb. rewrite (peek_true _ _ Hb) in Ess. split.
      + exists q2. assumption.
      + eapply parseSelectionSet_nonempty. eassumption. }
  unfold afterFieldName.
  change (advances 1 p) with (snd (advance p)).
  change (advances 3 p)
    with (snd (advance (snd (advance (snd (advance p)))))).
  destruct (lexer.TokenKind_beq
              (lexer.Token_Kind (Token (snd (advance p)))) lexer.COLON)
    eqn:Ec.
  - apply TokenKind_beq_eq in Ec. rewrite (skip_true _ _ Ec) in H.
    destruct (parseName (snd (advance (snd (advance p)))))
      as [[n q1]|?|?|] eqn:E; try discriminate.
    apply parseName_inv in E. destruct E as (Hn & -> & ->).
    cbn [bind] in H. exact (Hrest (_, _) _ H).
  - assert (Hc : lexer.Token_Kind (Token (snd (advance p))) <> lexer.COLON).
    { intros Hc. rewrite Hc in Ec. discriminate. }
    rewrite (skip_false _ _ Hc) in H. cbn [bind] in H.
    exact (Hrest (_, _) _ H).
Qed.

Lemma parseField_selection_set_follows_name_witness :
  let p := parserOn "a @d { b }" (lexer.makeToken lexer.NAME 0 1 "a") in
  exists f q,
    parseField 8 p = Ok (f, q)
    /\ lexer.Token_Kind (Token (afterFieldName p)) = lexer.AT
    /\ ast.Field_SelectionSet f = ast.SelectionSet_zero
    /\ ast.Field_Arguments f = [].
Proof.
  intros p.
  assert (R : mapResult (fun _ => tt) (parseField 8 p) = Ok tt)
    by (vm_compute; reflexivity).
  destruct (returns_some _ R) as (f & q & E).
  exists f, q. split; [exact E|]. split; [reflexivity|].
  destruct (parseField_selection_set_follows_name _ _ _ _ E)
    as (Hz & _ & Ha).
  split; [|exact Ha]. apply Hz.
  assert (Hat : lexer.Token_Kind (Token (afterFieldName p)) = lexer.AT)
    by reflexivity.
  rewrite Hat. discriminate.
Defined.

Lemma skip_cases p k :
  (lexer.Token_Kind (Token p) = k /\ skip p k = (true, snd (advance p)))
  \/ (lexer.Token_Kind (Token p) <> k /\ skip p k = (false, p)).
Proof.
  destruct (lexer.TokenKind_beq (lexer.Token_Kind (Token p)) k) eqn:E.
  - apply TokenKind_beq_eq in E. left. split; [assumption|].
    apply skip_true. assumption.
  - right. assert (Hn : lexer.Token_Kind (Token p) <> k).
    { intros Hk. rewrite Hk, TokenKind_beq_refl in E. discriminate. }
    split; [assumption|]. apply skip_false. assumption.
Qed.

(** A directive is [@], a name, and a value only when a [:] follows the
    name: without the colon the value is nil and nothing more is
    consumed; with it the value is the one [parseValue] returns, the
    array without items. *)
Theorem parseDirective_value_is_optional :
  forall fuel p d q,
    parseDirective fuel p = Ok (d, q) ->
    lexer.Token_Kind (Token p) = lexer.AT
    /\ lexer.Token_Kind (Token (advances 1 p)) = lexer.NAME
    /\ ast.Name_Value (ast.Directive_Name d)
       = lexer.Token_Value (Token (advances 1 p))
    /\ (lexer.Token_Kind (Token (advances 2 p)) <> lexer.COLON ->
        ast.Directive_Value d = ast.Value_nil /\ q = advances 2 p)
    /\ (lexer.Token_Kind (Token (advances 2 p)) = lexer.COLON ->
        exists l,
          ast.Directive_Value d = ast.Value_ArrayValue kinds.Array l []
          /\ q = advances 5 p).
Proof.
  intros fuel p d q H. unfold parseDirective in H.
  change (advances 1 p) with (snd (advance p)).
  change (advances 2 p) with (snd (advance (snd (advance p)))).
  change (advances 5 p)
    with (snd (advance (snd (advance (snd (advance
            (snd (advance (snd (advance p)))))))))).
  destruct (expect p lexer.AT) as [[t q1]|?|?|] eqn:E1; try discriminate.
  pose proof (expect_inv_kind _ _ _ _ E1) as Hat.
  apply expect_inv in E1. destruct E1 as [-> ->]. cbn [bind] in H.
  destruct (parseName (snd (advance p))) as [[n q2]|?|?|] eqn:E2;
    try discriminate.
  apply parseName_inv in E2. destruct E2 as (Hn & -> & ->).
  cbn [bind] in H.
  split; [assumption|split; [assumption|]].
  destruct (skip_cases (snd (advance (snd (advance p)))) lexer.COLON)
    as [[Hc Es]|[Hc Es]]; rewrite Es in H.
  - destruct (parseValue fuel _ false) as [[v q4]|?|?|] eqn:Ev;
      try discriminate.
    apply (proj2 (proj2 accepted_lists_are_empty)) in Ev.
    destruct Ev as (_ & _ & -> & ->). cbn [bind] in H.
    inversion H; subst; cbn. split; [reflexivity|].
    split; [intros Hne; contradiction|].
    intros _. eexists. split; reflexivity.
  - cbn [bind] in H. inversion H; subst; cbn. split; [reflexivity|].
    split; [intros _; split; reflexivity|].
    intros Hc'. contradiction.
Qed.

Lemma parseDirective_value_is_optional_witness :
  let p := parserOn "@skip @include: {]"
                    (lexer.makeToken lexer.AT 0 1 EmptyString) in
  exists d q,
    parseDirective 5 p = Ok (d, q)
    /\ ast.Name_Value (ast.Directive_Name d) = "skip"%string
    /\ ast.Directive_Value d = ast.Value_nil
    /\ q = advances 2 p.
Proof.
  intros p.
  assert (R : mapResult (fun _ => tt) (parseDirective 5 p) = Ok tt)
    by (vm_compute; reflexivity).
  destruct (returns_some _ R) as (d & q & E).
  exists d, q. split; [exact E|].
  destruct (parseDirective_value_is_optional _ _ _ _ E)
    as (_ & _ & Hn & Hno & _).
  split; [exact Hn|]. apply Hno.
  assert (Hat : lexer.Token_Kind (Token (advances 2 p)) = lexer.AT)
    by reflexivity.
  rewrite Hat. discriminate.
Defined.

(* ------------------------------------------------------------------ *)
(** ** The definitions of a parsed document *)

Lemma parseOperationDefinition_ok fuel p o q :
  parseOperationDefinition fuel p = Ok (o, q) ->
  (peek p lexer.BRACE_L = false ->
   lexer.Token_Value (Token p) = "query"%string
   \/ lexer.Token_Value (Token p) = "mutation"%string) ->
  definition_ok (ast.Definition_Operation o).
Proof.
  unfold parseOperationDefinition. intros H Hkw.
  destruct (peek p lexer.BRACE_L).
  - destruct (parseSelectionSet fuel p) as [[ss q1]|?|?|] eqn:Es;
      try discriminate.
    apply parseSelectionSet_nonempty in Es. cbn [bind] in H.
    inversion H; subst; cbn. auto.
  - specialize (Hkw eq_refl).
    destruct (expect p lexer.NAME) as [[t q1]|?|?|] eqn:E1;
      try discriminate.
    apply expect_inv in E1. destruct E1 as [-> ->]. cbn [bind] in H.
    destruct (parseName _) as [[n q2]|?|?|] eqn:E2; try discriminate.
    apply parseName_inv in E2. destruct E2 as (_ & -> & ->).
    cbn [bind] in H.
    destruct (parseVariableDefinitions fuel _) as [[vs q3]|?|?|] eqn:E3;
      try discriminate.
    apply (proj1 (proj2 accepted_lists_are_empty)) in E3.
    destruct E3 as (-> & -> & _). cbn [bind] in H.
    destruct (parseDirectives fuel _) as [[ds q4]|?|?|];
      try discriminate. cbn [bind] in H.
    destruct (parseSelectionSet fuel q4) as [[ss q5]|?|?|] eqn:Es;
      try discriminate.
    apply parseSelectionSet_nonempty in Es. cbn [bind] in H.
    inversion H; subst; cbn. auto.
Qed.

Lemma parseFragmentDefinition_ok fuel p f q :
  parseFragmentDefinition fuel p = Ok (f, q) ->
  definition_ok (ast.Definition_Fragment f).
Proof.
  unfold parseFragmentDefinition. intros H.
  destruct (expectKeyWord p "fragment") as [[t q1]|?|?|];
    try discriminate. cbn [bind] in H.
  destruct (parseFragmentName q1) as [[n q2]|?|?|] eqn:E2;
    try discriminate.
  unfold parseFragmentName in E2.
  destruct (String.eqb (lexer.Token_Value (Token q1)) "on") eqn:Eon;
    [discriminate|].
  apply parseName_inv in E2. destruct E2 as (_ & -> & ->).
  cbn [bind] in H.
  destruct (expectKeyWord _ "on") as [[t3 q3]|?|?|]; try discriminate.
  cbn [bind] in H.
  destruct (parseNamedType q3) as [[tc q4]|?|?|]; try discriminate.
  cbn [bind] in H.
  destruct (parseSelectionSet fuel q4) as [[ss q5]|?|?|] eqn:Es;
    try discriminate.
  apply parseSelectionSet_nonempty in Es. cbn [bind] in H.
  destruct (parseDirectives fuel q5) as [[ds q6]|?|?|]; try discriminate.
  cbn [bind] in H. inversion H; subst; cbn.
  split; [|assumption]. apply String.eqb_neq. assumption.
Qed.

Lemma parseDocument_loop_ok fuel : forall p ds ds' q,
  parseDocument_loop fuel p ds = Ok (ds', q) ->
  Forall definition_ok ds -> Forall definition_ok ds'.
Proof.
  induction fuel as [|fuel IH]; intros p ds ds' q H Hds; [discriminate|].
  simpl in H. destruct (skip p lexer.EOF) as [[|] p1].
  { inversion H; subst. assumption. }
  destruct (peek p1 lexer.BRACE_L) eqn:Eb.
  { destruct (parseOperationDefinition fuel p1) as [[o q1]|?|?|] eqn:Eo;
      try discriminate.
    cbn [bind] in H. apply IH in H; [assumption|].
    apply Forall_app. split; [assumption|]. apply Forall_cons; [|constructor].
    eapply parseOperationDefinition_ok; [eassumption|].
    rewrite Eb. discriminate. }
  destruct (peek p1 lexer.NAME); [|discriminate].
  destruct (String.eqb (lexer.Token_Value (Token p1)) "query") eqn:Eq;
    [|destruct (String.eqb (lexer.Token_Value (Token p1)) "mutation")
        eqn:Em]; cbn [orb] in H.
  - destruct (parseOperationDefinition fuel p1) as [[o q1]|?|?|] eqn:Eo;
      try discriminate.
    cbn [bind] in H. apply IH in H; [assumption|].
    apply Forall_app. split; [assumption|]. apply Forall_cons; [|constructor].
    eapply parseOperationDefinition_ok; [eassumption|].
    intros _. left. apply String.eqb_eq. assumption.
  - destruct (parseOperationDefinition fuel p1) as [[o q1]|?|?|] eqn:Eo;
      try discriminate.
    cbn [bind] in H. apply IH in H; [assumption|].
    apply Forall_app. split; [assumption|]. apply Forall_cons; [|constructor].
    eapply parseOperationDefinition_ok; [eassumption|].
    intros _. right. apply String.eqb_eq. assumption.
  - destruct (String.eqb _ "fragment"); [|discriminate].
    destruct (parseFragmentDefinition fuel p1) as [[f q1]|?|?|] eqn:Ef;
      try discriminate.
    cbn [bind] in H. apply IH in H; [assumption|].
    apply Forall_app. split; [assumption|]. apply Forall_cons; [|constructor].
    eapply parseFragmentDefinition_ok. eassumption.
Qed.

(** Every definition of a parsed document is one of three: the
    anonymous [query] (zero name), a [query] or [mutation] named by a
    name token, or a fragment whose name is not [on]; none has a
    variable definition, and each has a selection set with at least one
    selection. *)
Theorem parsed_definitions_ok :
  forall Lex fuel src opts doc,
    Parse Lex fuel {| Params_Source := src; Params_Options := opts |}
    = Ok doc ->
    Forall definition_ok (ast.Document_Definitions doc).
Proof.
  intros Lex fuel src opts doc H.
  destruct (Parse_inv _ _ _ _ _ H) as (p0 & q & _ & Hd).
  unfold parseDocument in Hd.
  destruct (parseDocument_loop fuel p0 []) as [[ds q1]|?|?|] eqn:El;
    try discriminate.
  cbn [bind] in Hd. inversion Hd; subst; cbn.
  eapply parseDocument_loop_ok; [eassumption|constructor].
Qed.

Lemma parsed_definitions_ok_witness :
  let params :=
    {| Params_Source :=
         SourceString "mutation M { a } fragment F on T { b } { c }";
       Params_Options := defaultOptions |} in
  exists doc,
    Parse lexer.Lex 12 params = Ok doc
    /\ List.length (ast.Document_Definitions doc) = 3%nat
    /\ Forall definition_ok (ast.Document_Definitions doc).
Proof.
  intros params.
  assert (R : mapResult (fun d => List.length (ast.Document_Definitions d))
                        (Parse lexer.Lex 12 params) = Ok 3%nat)
    by (vm_compute; reflexivity).
  destruct (Parse lexer.Lex 12 params) as [doc|e|msg|] eqn:E;
    try discriminate R.
  exists doc. split; [reflexivity|]. split.
  - cbn in R. inversion R. reflexivity.
  - exact (parsed_definitions_ok lexer.Lex 12%nat
             (SourceString "mutation M { a } fragment F on T { b } { c }")
             defaultOptions doc E).
Defined.

(* ------------------------------------------------------------------ *)
(** ** A lexical error that [advance] returns is dropped *)

(** After a failed [advance] the cursor stays on the same token, and
    every further [advance] leaves the state as it is. *)
Lemma advance_failed p e :
  LexToken p (lexer.Token_End (Token p)) = lexer.LexFailed e ->
  Token (snd (advance p)) = Token p
  /\ snd (advance (snd (advance p))) = snd (advance p).
Proof.
  intros H. unfold advance. cbn [LexToken Token]. rewrite H.
  cbn [snd LexToken Token PrevEnd Source Options]. rewrite H.
  split; reflexivity.
Qed.

(** On a name token that the cursor cannot leave, a field is parsed
    without moving. *)
Lemma stuck_parseSelection p :
  lexer.Token_Kind (Token p) = lexer.NAME ->
  snd (advance p) = p ->
  forall fuel,
    parseSelection fuel p = OutOfFuel
    \/ exists s, parseSelection fuel p = Ok (s, p).
Proof.
  intros Hk Hst fuel. destruct fuel as [|fuel]; [left; reflexivity|].
  rewrite parseSelection_S.
  rewrite peek_false by (rewrite Hk; discriminate).
  destruct fuel as [|fuel]; [left; reflexivity|].
  rewrite (parseField_after_name _ _ Hk). cbv zeta. rewrite Hst.
  rewrite skip_false by (rewrite Hk; discriminate). cbn [bind].
  rewrite peek_false by (rewrite Hk; discriminate). cbn [bind].
  unfold parseArguments. rewrite peek_false by (rewrite Hk; discriminate).
  cbn [bind]. unfold parseDirectives.
  destruct fuel as [|fuel]; [left; reflexivity|].
  simpl parseDirectives_loop.
  rewrite peek_false by (rewrite Hk; discriminate).
  cbn [negb bind]. right. eexists. reflexivity.
Qed.

Lemma stuck_many_loop {A} (f : parseFn A) p c :
  lexer.Token_Kind (Token p) <> c ->
  (f p = OutOfFuel \/ exists a, f p = Ok (a, p)) ->
  forall fuel nodes, many_loop fuel p f c nodes = OutOfFuel.
Proof.
  intros Hk Hf. induction fuel as [|fuel IH]; intros nodes; [reflexivity|].
  simpl. rewrite (skip_false _ _ Hk).
  destruct Hf as [Hf|[a Hf]]; rewrite Hf; [reflexivity|]. apply IH.
Qed.

(** [skip] and [expect] drop the error that [advance] returns.  When
    the tokenizer fails just after the first field name of a selection
    set, the cursor stays on that name, the field is parsed again and
    again, and the selection set, and with it the whole [Parse], never
    returns: whatever the fuel, the run is out of fuel, and the lexical
    error is not reported. *)
Theorem dropped_lex_error_diverges :
  (forall fuel p e,
      lexer.Token_Kind (Token p) = lexer.BRACE_L ->
      lexer.Token_Kind (Token (advances 1 p)) = lexer.NAME ->
      LexToken p (lexer.Token_End (Token (advances 1 p)))
      = lexer.LexFailed e ->
      parseSelectionSet fuel p = OutOfFuel)
  /\ (forall Lex fuel src opts p0 e,
         makeParser Lex src opts = Ok p0 ->
         lexer.Token_Kind (Token p0) = lexer.BRACE_L ->
         lexer.Token_Kind (Token (advances 1 p0)) = lexer.NAME ->
         LexToken p0 (lexer.Token_End (Token (advances 1 p0)))
         = lexer.LexFailed e ->
         Parse Lex fuel {| Params_Source := SourceObj src;
                           Params_Options := opts |} = OutOfFuel).
Proof.
  assert (Hss : forall fuel p e,
      lexer.Token_Kind (Token p) = lexer.BRACE_L ->
      lexer.Token_Kind (Token (advances 1 p)) = lexer.NAME ->
      LexToken p (lexer.Token_End (Token (advances 1 p)))
      = lexer.LexFailed e ->
      parseSelectionSet fuel p = OutOfFuel).
  { intros fuel p e Hb Hn Hl.
    change (advances 1 p) with (snd (advance p)) in *.
    set (p1 := snd (advance p)) in *.
    rewrite <- (advance_LexToken p) in Hl. fold p1 in Hl.
    destruct (advance_failed _ _ Hl) as [Htok Hst].
    set (p2 := snd (advance p1)) in *.
    assert (Hn2 : lexer.Token_Kind (Token p2) = lexer.NAME)
      by (rewrite Htok; assumption).
    destruct fuel as [|fuel]; [reflexivity|].
    rewrite parseSelectionSet_S. unfold many.
    rewrite (expect_ok _ _ Hb). fold p1.
    destruct fuel as [|fuel]; [reflexivity|].
    rewrite parseSelection_S.
    rewrite peek_false by (rewrite Hn; discriminate).
    destruct fuel as [|fuel]; [reflexivity|].
    rewrite (parseField_after_name _ _ Hn). cbv zeta. fold p2.
    rewrite skip_false by (rewrite Hn2; discriminate). cbn [bind].
    rewrite peek_false by (rewrite Hn2; discriminate). cbn [bind].
    unfold parseArguments.
    rewrite peek_false by (rewrite Hn2; discriminate). cbn [bind].
    unfold parseDirectives.
    destruct fuel as [|fuel]; [reflexivity|].
    simpl parseDirectives_loop.
    rewrite peek_false by (rewrite Hn2; discriminate). cbn [negb bind].
    rewrite (stuck_many_loop _ p2 lexer.BRACE_R); [reflexivity| |].
    - rewrite Hn2. discriminate.
    - apply stuck_parseSelection; assumption. }
  split; [exact Hss|].
  intros Lex fuel src opts p0 e Hmk Hb Hn Hl. unfold Parse.
  cbn [Params_Source Params_Options]. rewrite Hmk. cbn [bind].
  unfold parseDocument. destruct fuel as [|fuel]; [reflexivity|].
  simpl parseDocument_loop.
  rewrite skip_false by (rewrite Hb; discriminate).
  rewrite (peek_true _ _ Hb). unfold parseOperationDefinition.
  rewrite (peek_true _ _ Hb), (Hss fuel p0 e Hb Hn Hl). reflexivity.
Qed.

Lemma dropped_lex_error_diverges_witness :
  let s := source.NewSource "{ a ? }" EmptyString in
  let p := {| LexToken := lexer.Lex s; Source := s;
              Options := defaultOptions; PrevEnd := 0;
              Token := lexer.makeToken lexer.BRACE_L 0 1 EmptyString |} in
  (makeParser lexer.Lex s defaultOptions = Ok p
   /\ LexToken p (lexer.Token_End (Token (advances 1 p)))
      = lexer.LexFailed
          (graphqlerrors.LexError s 4 "Unexpected character"))
  /\ forall fuel,
      Parse lexer.Lex fuel {| Params_Source := SourceObj s;
                              Params_Options := defaultOptions |}
      = OutOfFuel.
Proof.
  intros s p. split; [split; reflexivity|]. intros fuel.
  apply (proj2 dropped_lex_error_diverges lexer.Lex fuel s defaultOptions p
               (graphqlerrors.LexError s 4 "Unexpected character"));
    reflexivity.
Defined.

(* ------------------------------------------------------------------ *)
(** ** Delimited lists *)



